(** * image-generator: the random layer-pool generator, shuffler, manifest
    and archive builder of [pkg/image], embedded in Rocq.

    Two variants of the package are covered, as in the sources: the one whose
    factory owns a seeded [*rand.Rand] ([NewRandomImageFactory]), and the
    older one configured through struct fields ([Seed], [LayerSizeKB],
    [LayerCount]), which is the one the [build] command calls. *)

From Stdlib Require Import ZArith Strings.String Strings.Ascii Strings.Byte List Lia.
From Stdlib Require Import DecimalString DecimalPos DecimalZ.
From stdpp Require Import gmap strings list.

Open Scope Z_scope.

(** ** Outcomes of running Go code

    A Go function either returns, panics, or keeps looping.  Loops whose
    termination depends on the random source are run with fuel. *)
Inductive outcome (A : Type) : Type :=
| Done (a : A)
| Panic (msg : string)
| OutOfFuel.
Arguments Done {A} a.
Arguments Panic {A} msg.
Arguments OutOfFuel {A}.

(** ** The random source ([math/rand])

    [math/rand] is a dependency, not part of the package: it is taken as an
    interface.  [Int63] returns a non-negative 63-bit integer and the
    advanced source; [Intn n] returns an integer of [[0, n)] for [0 < n]
    (and panics otherwise, which the callers below never trigger). *)
Class RandSource : Type := {
  Src : Type;
  NewSource : Z -> Src;
  Int63 : Src -> Z * Src;
  Intn : Z -> Src -> Z * Src
}.

(** ** Constants of the package *)
Definition letterBytes : list byte :=
  list_byte_of_string "abcdefghijklmnopqrstuvwxyzABCDEFGHIJKLMNOPQRSTUVWXYZ".
Definition letterIdxBits : Z := 6.
Definition letterIdxMask : Z := Z.shiftl 1 letterIdxBits - 1.
Definition letterIdxMax : Z := 63 / letterIdxBits.
Definition baseImageDir : string := "./generated-files".
Definition len {A : Type} (l : list A) : Z := Z.of_nat (length l).

Section ByteGenerator.
Context {R : RandSource}.

(** The loop of [randBytes]:
    [for i, cache, remain := n-1, src.Int63(), letterIdxMax; i >= 0; { ... }].
    One unit of fuel is one iteration. *)
Fixpoint randBytes_loop (fuel : nat) (i cache remain : Z) (b : list byte) (s : Src)
  : outcome (list byte * Src) :=
  if i <? 0 then Done (b, s)
  else match fuel with
       | O => OutOfFuel
       | S fuel' =>
         let '(cache1, remain1, s1) :=
           if remain =? 0
           then let '(c, s') := Int63 s in (c, letterIdxMax, s')
           else (cache, remain, s) in
         let idx := Z.land cache1 letterIdxMask in
         let '(b1, i1) :=
           if idx <? len letterBytes
           then (<[Z.to_nat i := nth (Z.to_nat idx) letterBytes x00]> b, i - 1)
           else (b, i) in
         randBytes_loop fuel' i1 (Z.shiftr cache1 letterIdxBits) (remain1 - 1) b1 s1
       end.

(** [b := make([]byte, n)] followed by the loop, on a given source.
    [make] panics on a negative length; the message is kept without the
    prefix that the runtime puts before it. *)
Definition randBytes_from (fuel : nat) (n : Z) (s : Src) : outcome (list byte * Src) :=
  if n <? 0 then Panic "makeslice: len out of range"
  else
    let b := replicate (Z.to_nat n) x00 in
    let '(cache, s1) := Int63 s in
    randBytes_loop fuel (n - 1) cache letterIdxMax b s1.
End ByteGenerator.

(** ** Strings, [fmt] and errors *)

Definition nl : string := String (ascii_of_nat 10) EmptyString.
Definition dquote : ascii := ascii_of_nat 34.

(** [%d] of an integer. *)
Definition itoa (z : Z) : string := NilZero.string_of_int (Z.to_int z).

(** [strconv.Quote] on the characters a path or a message of this package can
    hold: the double quote, the backslash, newline, carriage return and tab
    are escaped; everything else is copied. *)
Fixpoint quote_body (s : string) : string :=
  match s with
  | EmptyString => EmptyString
  | String c s' =>
    let rest := quote_body s' in
    if Ascii.eqb c dquote then String "\" (String dquote rest)
    else if Ascii.eqb c "\"%char then String "\" (String "\" rest)
    else if Ascii.eqb c (ascii_of_nat 10) then String "\" (String "n" rest)
    else if Ascii.eqb c (ascii_of_nat 13) then String "\" (String "r" rest)
    else if Ascii.eqb c (ascii_of_nat 9) then String "\" (String "t" rest)
    else String c rest
  end.
Definition Quote (s : string) : string :=
  String dquote (quote_body s +:+ String dquote EmptyString).

(** [syscall.Errno] values the model distinguishes.  [fault] are the ones the
    environment can inject into any call; the others are decided by the state
    of the file system. *)
Inductive fault : Type := FaultACCES | FaultIO | FaultNOSPC | FaultROFS.
Inductive errno : Type := ENOENT | ENOTDIR | EISDIR | EACCES | EIO | ENOSPC | EROFS.
Definition errno_of_fault (x : fault) : errno :=
  match x with
  | FaultACCES => EACCES | FaultIO => EIO | FaultNOSPC => ENOSPC | FaultROFS => EROFS
  end.
Definition errno_text (e : errno) : string :=
  match e with
  | ENOENT => "no such file or directory"
  | ENOTDIR => "not a directory"
  | EISDIR => "is a directory"
  | EACCES => "permission denied"
  | EIO => "input/output error"
  | ENOSPC => "no space left on device"
  | EROFS => "read-only file system"
  end.

(** Go error values: a [syscall.Errno], an [*os.PathError] (operation, path
    and cause), the [*fmt.wrapError] that [fmt.Errorf] builds when a [%w] verb
    received an error, and the plain error it builds otherwise. *)
Inductive error : Type :=
| Errno (e : errno)
| PathError (Op Path : string) (Err : error)
| wrapError (msg : string) (err : error)
| errorString (msg : string).

Fixpoint Error (e : error) : string :=
  match e with
  | Errno n => errno_text n
  | PathError op p err => op +:+ " " +:+ p +:+ ": " +:+ Error err
  | wrapError msg _ => msg
  | errorString msg => msg
  end.

Definition Unwrap (e : error) : option error :=
  match e with
  | PathError _ _ err => Some err
  | wrapError _ err => Some err
  | _ => None
  end.

(** [os.IsNotExist]: looks through a [PathError] for [ENOENT]. *)
Definition IsNotExist (e : error) : bool :=
  match e with
  | PathError _ _ (Errno ENOENT) => true
  | Errno ENOENT => true
  | _ => false
  end.

(** Operands of a formatting call. *)
Inductive operand : Type :=
| OStr (s : string)
| OInt (z : Z)
| OErr (e : error).

Definition type_name (o : operand) : string :=
  match o with
  | OStr _ => "string" | OInt _ => "int" | OErr _ => "*errors.errorString"
  end.
Definition plain (o : operand) : string :=
  match o with
  | OStr s => s | OInt z => itoa z | OErr e => Error e
  end.

(** One verb applied to its operand: [%s], [%v], [%q], [%d] and [%w] as the
    package uses them; a verb that does not fit its operand prints Go's
    [%!verb(type=value)] form. *)
Definition format_verb (v : ascii) (o : operand) : string :=
  let bad := "%!" +:+ String v ("(" +:+ type_name o +:+ "=" +:+ plain o +:+ ")") in
  match o with
  | OStr s =>
    if Ascii.eqb v "s" || Ascii.eqb v "v" then s
    else if Ascii.eqb v "q" then Quote s else bad
  | OInt z =>
    if Ascii.eqb v "d" || Ascii.eqb v "v" then itoa z else bad
  | OErr e =>
    if Ascii.eqb v "s" || Ascii.eqb v "v" || Ascii.eqb v "w" then Error e
    else if Ascii.eqb v "q" then Quote (Error e) else bad
  end.

(** [fmt.Sprintf]: every [%x] consumes the next operand; a verb without an
    operand prints [%!x(MISSING)]; [%%] prints a percent sign. *)
Fixpoint Sprintf (format : string) (args : list operand) : string :=
  match format with
  | EmptyString => EmptyString
  | String c rest =>
    if Ascii.eqb c "%" then
      match rest with
      | EmptyString => "%!(NOVERB)"
      | String v rest' =>
        if Ascii.eqb v "%" then String "%" (Sprintf rest' args)
        else match args with
             | [] => "%!" +:+ String v ("(MISSING)" +:+ Sprintf rest' [])
             | o :: args' => format_verb v o +:+ Sprintf rest' args'
             end
      end
    else String c (Sprintf rest args)
  end.

(** The operand of the first [%w] verb that is an error, if any: what
    [fmt.Errorf] wraps. *)
Fixpoint wrapped_operand (format : string) (args : list operand) : option error :=
  match format with
  | EmptyString => None
  | String c rest =>
    if Ascii.eqb c "%" then
      match rest with
      | EmptyString => None
      | String v rest' =>
        if Ascii.eqb v "%" then wrapped_operand rest' args
        else match args with
             | [] => None
             | o :: args' =>
               match o with
               | OErr e => if Ascii.eqb v "w" then Some e else wrapped_operand rest' args'
               | _ => wrapped_operand rest' args'
               end
             end
      end
    else wrapped_operand rest args
  end.

Definition Errorf (format : string) (args : list operand) : error :=
  match wrapped_operand format args with
  | Some e => wrapError (Sprintf format args) e
  | None => errorString (Sprintf format args)
  end.

(** ** Paths ([path.Join], [path.Clean]) *)

Fixpoint split_on (sep : ascii) (s : string) : list string :=
  match s with
  | EmptyString => [EmptyString]
  | String c s' =>
    if Ascii.eqb c sep then EmptyString :: split_on sep s'
    else match split_on sep s' with
         | [] => [String c EmptyString]
         | w :: ws => String c w :: ws
         end
  end.

Fixpoint join_with (sep : string) (l : list string) : string :=
  match l with
  | [] => EmptyString
  | [x] => x
  | x :: rest => x +:+ sep +:+ join_with sep rest
  end.

(** The element stack of [path.Clean]: empty and [.] elements are dropped, a
    [..] removes the element before it, or stays when there is none and the
    path is not rooted. *)
Fixpoint clean_elems (rooted : bool) (stack : list string) (elems : list string)
  : list string :=
  match elems with
  | [] => rev stack
  | e :: rest =>
    if String.eqb e "" || String.eqb e "." then clean_elems rooted stack rest
    else if String.eqb e ".." then
      match stack with
      | top :: stack' =>
        if String.eqb top ".." then clean_elems rooted (e :: stack) rest
        else clean_elems rooted stack' rest
      | [] =>
        if rooted then clean_elems rooted [] rest
        else clean_elems rooted [e] rest
      end
    else clean_elems rooted (e :: stack) rest
  end.

Definition is_rooted (p : string) : bool :=
  match p with
  | String c _ => Ascii.eqb c "/"
  | EmptyString => false
  end.

Definition Clean (p : string) : string :=
  let out := join_with "/" (clean_elems (is_rooted p) [] (split_on "/" p)) in
  if is_rooted p then "/" +:+ out
  else if String.eqb out "" then "." else out.

Definition path_Join (elem : list string) : string :=
  match List.filter (fun e => negb (String.eqb e "")) elem with
  | [] => ""
  | es => Clean (join_with "/" es)
  end.

(** ** The file system *)

Inductive syscall : Type :=
| SysMkdirAll | SysStat | SysOpen | SysRead | SysCreate | SysWrite.

(** One call made to the operating system and how it ended. *)
Record event : Type := { ev_call : syscall; ev_path : string; ev_err : option errno }.

(** A regular file: its bytes and the time of its last modification. *)
Record node : Type := { data : list byte; mtime : nat }.

(** Regular files, directories and the calls made so far, newest first.  The
    length of the trace is the clock. *)
Record FS : Type := {
  files : gmap string node;
  dirs : gset string;
  trace : list event
}.

Definition clock (fs : FS) : nat := length (trace fs).

Definition is_write_call (c : syscall) : bool :=
  match c with
  | SysCreate | SysWrite => true
  | _ => false
  end.

(** The calls that created, truncated or wrote a file, newest first. *)
Definition writes (fs : FS) : list event :=
  List.filter (fun e => is_write_call (ev_call e)) (trace fs).

(** The environment: which call fails, by time, call and path. *)
Definition oracle : Type := nat -> syscall -> string -> option fault.

Definition log (c : syscall) (p : string) (r : option errno) (fs : FS) : FS :=
  {| files := files fs; dirs := dirs fs;
     trace := {| ev_call := c; ev_path := p; ev_err := r |} :: trace fs |}.

Definition put_file (p : string) (bs : list byte) (t : nat) (fs : FS) : FS :=
  {| files := <[p := {| data := bs; mtime := t |}]> (files fs);
     dirs := dirs fs; trace := trace fs |}.

Definition add_dir (p : string) (fs : FS) : FS :=
  {| files := files fs; dirs := {[p]} ∪ dirs fs; trace := trace fs |}.

(** What [os.Stat] reports, as far as the package looks: the size. *)
Record FileInfo : Type := { Size : Z; IsDir : bool }.

Section FileSystem.
Variable env : oracle.

(** [os.MkdirAll(path, perm)]: nothing to do when the directory is there.
    Paths are names in a flat map: of the states of the file system only a
    regular file at [path] itself makes the call fail; a parent that is a
    regular file is a failure that the environment reports. *)
Definition MkdirAll (p : string) (fs : FS) : option error * FS :=
  match env (clock fs) SysMkdirAll p with
  | Some x =>
    (Some (PathError "mkdir" p (Errno (errno_of_fault x))),
     log SysMkdirAll p (Some (errno_of_fault x)) fs)
  | None =>
    match files fs !! p with
    | Some _ => (Some (PathError "mkdir" p (Errno ENOTDIR)), log SysMkdirAll p (Some ENOTDIR) fs)
    | None => (None, add_dir p (log SysMkdirAll p None fs))
    end
  end.

(** [os.Stat(path)] *)
Definition Stat (p : string) (fs : FS) : (FileInfo + error) * FS :=
  match env (clock fs) SysStat p with
  | Some x =>
    (inr (PathError "stat" p (Errno (errno_of_fault x))),
     log SysStat p (Some (errno_of_fault x)) fs)
  | None =>
    match files fs !! p with
    | Some nd => (inl {| Size := len (data nd); IsDir := false |}, log SysStat p None fs)
    | None =>
      if decide (p ∈ dirs fs)
      then (inl {| Size := 0; IsDir := true |}, log SysStat p None fs)
      else (inr (PathError "stat" p (Errno ENOENT)), log SysStat p (Some ENOENT) fs)
    end
  end.

(** Opening for writing with [O_CREATE|O_TRUNC]: the file exists and is
    empty afterwards. *)
Definition open_trunc (p : string) (fs : FS) : option error * FS :=
  match env (clock fs) SysCreate p with
  | Some x =>
    (Some (PathError "open" p (Errno (errno_of_fault x))),
     log SysCreate p (Some (errno_of_fault x)) fs)
  | None =>
    if decide (p ∈ dirs fs)
    then (Some (PathError "open" p (Errno EISDIR)), log SysCreate p (Some EISDIR) fs)
    else (None, put_file p [] (clock fs) (log SysCreate p None fs))
  end.

(** One [write] of [bs] at the end of an open file. *)
Definition write_bytes (p : string) (bs : list byte) (fs : FS) : option error * FS :=
  match env (clock fs) SysWrite p with
  | Some x =>
    (Some (PathError "write" p (Errno (errno_of_fault x))),
     log SysWrite p (Some (errno_of_fault x)) fs)
  | None =>
    let old := match files fs !! p with Some nd => data nd | None => [] end in
    (None, put_file p (old ++ bs) (clock fs) (log SysWrite p None fs))
  end.

(** [os.Create(name)] *)
Definition Create (p : string) (fs : FS) : option error * FS := open_trunc p fs.

(** [ioutil.WriteFile(filename, data, perm)]: open, write, close. *)
Definition WriteFile (p : string) (bs : list byte) (fs : FS) : option error * FS :=
  match open_trunc p fs with
  | (Some err, fs1) => (Some err, fs1)
  | (None, fs1) => write_bytes p bs fs1
  end.

(** [ioutil.ReadFile(filename)]: open, then read to the end. *)
Definition ReadFile (p : string) (fs : FS) : (list byte + error) * FS :=
  match env (clock fs) SysOpen p with
  | Some x =>
    (inr (PathError "open" p (Errno (errno_of_fault x))),
     log SysOpen p (Some (errno_of_fault x)) fs)
  | None =>
    match files fs !! p with
    | Some nd =>
      let fs1 := log SysOpen p None fs in
      match env (clock fs1) SysRead p with
      | Some x =>
        (inr (PathError "read" p (Errno (errno_of_fault x))),
         log SysRead p (Some (errno_of_fault x)) fs1)
      | None => (inl (data nd), log SysRead p None fs1)
      end
    | None =>
      if decide (p ∈ dirs fs)
      then let fs1 := log SysOpen p None fs in
           (inr (PathError "read" p (Errno EISDIR)), log SysRead p (Some EISDIR) fs1)
      else (inr (PathError "open" p (Errno ENOENT)), log SysOpen p (Some ENOENT) fs)
    end
  end.
End FileSystem.

(** [os.Open(name)], read by the consumer of the handle. *)
Definition Open (env : oracle) (p : string) (fs : FS) : (list byte + error) * FS :=
  match env (clock fs) SysOpen p with
  | Some x =>
    (inr (PathError "open" p (Errno (errno_of_fault x))),
     log SysOpen p (Some (errno_of_fault x)) fs)
  | None =>
    match files fs !! p with
    | Some nd => (inl (data nd), log SysOpen p None fs)
    | None =>
      if decide (p ∈ dirs fs) then (inl [], log SysOpen p None fs)
      else (inr (PathError "open" p (Errno ENOENT)), log SysOpen p (Some ENOENT) fs)
    end
  end.

(** ** The archive writer ([archive/tar])

    The writer is kept as the list of its entries, next to the bytes it has
    sent to the underlying file.  The encoding of a header block is the
    library's and is a parameter. *)
Module tar.
Record Header : Type := { Name : string; Mode : Z; Size : Z }.
Record entry : Type := { hdr : Header; body : list byte }.
(** [w]: the file written to; [nb]: bytes the current entry still expects;
    [pad]: padding owed to the 512-byte block of the current entry. *)
Record Writer : Type := { w : string; entries : list entry; nb : Z; pad : Z }.

Definition NewWriter (file : string) : Writer :=
  {| w := file; entries := []; nb := 0; pad := 0 |}.

Definition ErrWriteTooLong : error := errorString "archive/tar: write too long".

Definition missed (tw : Writer) : error :=
  errorString (Sprintf "archive/tar: missed writing %d bytes" [OInt (nb tw)]).

Definition zeros (n : Z) : list byte := replicate (Z.to_nat n) x00.

Fixpoint append_body (bs : list byte) (es : list entry) : list entry :=
  match es with
  | [] => []
  | [e] => [{| hdr := hdr e; body := body e ++ bs |}]
  | e :: rest => e :: append_body bs rest
  end.

Section Writer.
Variable env : oracle.
Variable header_block : Header -> list byte.

(** [tw.WriteHeader(hdr)]: the previous entry must be complete; its
    padding and the new header block are written. *)
Definition WriteHeader (h : Header) (tw : Writer) (fs : FS)
  : option error * Writer * FS :=
  if 0 <? nb tw then (Some (missed tw), tw, fs)
  else
    match write_bytes env (w tw) (zeros (pad tw) ++ header_block h) fs with
    | (Some err, fs1) => (Some err, tw, fs1)
    | (None, fs1) =>
      (None,
       {| w := w tw; entries := entries tw ++ [{| hdr := h; body := [] |}];
          nb := Size h; pad := (- Size h) mod 512 |},
       fs1)
    end.

(** [tw.Write(b)]: at most the bytes the header announced are written. *)
Definition Write (bs : list byte) (tw : Writer) (fs : FS)
  : option error * Writer * FS :=
  let overwrite := nb tw <? len bs in
  let b := if overwrite then take (Z.to_nat (nb tw)) bs else bs in
  match (if 0 <? len b then write_bytes env (w tw) b fs else (None, fs)) with
  | (Some err, fs1) => (Some err, tw, fs1)
  | (None, fs1) =>
    (if overwrite then Some ErrWriteTooLong else None,
     {| w := w tw; entries := append_body b (entries tw);
        nb := nb tw - len b; pad := pad tw |},
     fs1)
  end.

(** [tw.Close()]: padding of the last entry and the two-block trailer, as
    one write on the file; the writer does not remember an earlier failed
    write. *)
Definition Close (tw : Writer) (fs : FS) : option error * Writer * FS :=
  if 0 <? nb tw then (Some (missed tw), tw, fs)
  else
    match write_bytes env (w tw) (zeros (pad tw) ++ zeros 1024) fs with
    | (Some err, fs1) => (Some err, tw, fs1)
    | (None, fs1) =>
      (None, {| w := w tw; entries := entries tw; nb := 0; pad := 0 |}, fs1)
    end.
End Writer.
End tar.

(** ** The build daemon ([docker/client]), outside the core: an interface. *)
Class Docker : Type := {
  Client : Type;
  NewEnvClient : Client + error;
  NewClientWithOpts : Client + error;
  ImageBuild : Client -> list byte -> string -> list string -> string + error
}.

(** [log.New(out, prefix, flag)] *)
Record Logger : Type := { prefix : string; flag : Z }.

(** ** Integers *)
Definition wrap64 (z : Z) : Z := (z + 2 ^ 63) mod 2 ^ 64 - 2 ^ 63.
(** [int(u)] for [u uint] on a 64-bit platform. *)
Definition int_of_uint (u : N) : Z := wrap64 (Z.of_N u).

(** ** Code shared by the two variants *)
Section Shared.
Context {R : RandSource}.
Variable env : oracle.
Variable header_block : tar.Header -> list byte.

(** The loop of [shuffleGeneratedFilePaths] over a source:
    [for i := range l { j := Intn(i + 1); l[i], l[j] = l[j], l[i] }].
    An index outside the slice panics. *)
Fixpoint shuffle_loop (todo : nat) (i : nat) (l : list string) (s : Src)
  : outcome (list string * Src) :=
  match todo with
  | O => Done (l, s)
  | S todo' =>
    let '(j, s') := Intn (Z.of_nat i + 1) s in
    if j <? 0 then Panic "index out of range"
    else match l !! i, l !! (Z.to_nat j) with
         | Some x, Some y =>
           shuffle_loop todo' (S i) (<[Z.to_nat j := x]> (<[i := y]> l)) s'
         | _, _ => Panic "index out of range"
         end
  end.

Definition shuffle (l : list string) (s : Src) : outcome (list string * Src) :=
  shuffle_loop (length l) 0 l s.

(** The text [generateDockerfile] builds. *)
Definition dockerfile_text (filePaths : list string) : string :=
  fold_left (fun dockerFile p => dockerFile +:+ Sprintf ("ADD %s /opt" +:+ nl) [OStr p])
            filePaths ("FROM scratch" +:+ nl).

(** [generateDockerfile(filePaths)], the same in both variants. *)
Definition generateDockerfile (filePaths : list string) (fs : FS)
  : (string * option error) * FS :=
  let filename := "./dockerfile.generated" in
  match WriteFile env filename (list_byte_of_string (dockerfile_text filePaths)) fs with
  | (Some err, fs1) =>
    (("", Some (Errorf "failed to write to %q: %w" [OStr filename; OErr err])), fs1)
  | (None, fs1) => ((filename, None), fs1)
  end.

(** The loop of [createArchive].  The two variants differ in the errors
    they build when [os.Stat] or [ioutil.ReadFile] fails. *)
Section Archive.
Variable statErr readErr : string -> error -> error.

Fixpoint createArchive_loop (filePaths : list string) (tw : tar.Writer) (fs : FS)
  : option error * tar.Writer * FS :=
  match filePaths with
  | [] => (None, tw, fs)
  | filePath :: rest =>
    match Stat env filePath fs with
    | (inr err, fs1) => (Some (statErr filePath err), tw, fs1)
    | (inl fileInfo, fs1) =>
      match ReadFile env filePath fs1 with
      | (inr err, fs2) => (Some (readErr filePath err), tw, fs2)
      | (inl bs, fs2) =>
        let hdr := {| tar.Name := filePath; tar.Mode := 384; tar.Size := Size fileInfo |} in
        match tar.WriteHeader env header_block hdr tw fs2 with
        | (Some err, tw3, fs3) =>
          (Some (Errorf "failed to write tar header: %w" [OErr err]), tw3, fs3)
        | (None, tw3, fs3) =>
          match tar.Write env bs tw3 fs3 with
          | (Some err, tw4, fs4) =>
            (Some (Errorf "failed to write tar body: %w" [OErr err]), tw4, fs4)
          | (None, tw4, fs4) => createArchive_loop rest tw4 fs4
          end
        end
      end
    end
  end.

(** [createArchive(name, filePaths)].  The deferred [tw.Close()] runs on
    every return once the writer exists; its error is dropped. *)
Definition createArchive_with (name : string) (filePaths : list string) (fs : FS)
  : option error * tar.Writer * FS :=
  match Create env name fs with
  | (Some err, fs1) =>
    (Some (Errorf "failed to create tar archive %q: %w" [OStr name; OErr err]),
     tar.NewWriter name, fs1)
  | (None, fs1) =>
    let '(r, tw, fs2) := createArchive_loop filePaths (tar.NewWriter name) fs1 in
    let '(_, tw', fs3) := tar.Close env tw fs2 in
    (r, tw', fs3)
  end.
End Archive.

(** The loop of [generateRandomFilePool], over the factory type [F] of a
    variant: [dir] is the directory, [record] appends to
    [allGeneratedFiles], [gen] is the variant's [randBytes]. *)
Section Pool.
Variable F : Type.
Variable record : string -> F -> F.
Variable gen : nat -> Z -> F -> outcome (list byte * F).

Definition filePath (dir : string) (layerSizeKB i : N) : string :=
  path_Join [dir; Sprintf "random_%dKB_%d.txt" [OInt (Z.of_N layerSizeKB); OInt (Z.of_N i)]].

Fixpoint pool_loop (fuel : nat) (dir : string) (layerSizeKB : N)
         (todo : nat) (i : N) (f : F) (fs : FS)
  : outcome (option error * F * FS) :=
  match todo with
  | O => Done (None, f, fs)
  | S todo' =>
    let p := filePath dir layerSizeKB i in
    let f1 := record p f in
    match Stat env p fs with
    | (inl _, fs1) => pool_loop fuel dir layerSizeKB todo' (i + 1)%N f1 fs1
    | (inr err, fs1) =>
      if negb (IsNotExist err)
      then Done (Some (Errorf "error checking if file exists: %w" [OErr err]), f1, fs1)
      else
        match gen fuel (wrap64 (1024 * int_of_uint layerSizeKB)) f1 with
        | Done (bs, f2) =>
          match WriteFile env p bs fs1 with
          | (Some err', fs2) =>
            Done (Some (Errorf "error writing random bytes to file: %w" [OErr err']), f2, fs2)
          | (None, fs2) => pool_loop fuel dir layerSizeKB todo' (i + 1)%N f2 fs2
          end
        | Panic m => Panic m
        | OutOfFuel => OutOfFuel
        end
    end
  end.

Definition pool (fuel : nat) (dir : string) (layerSizeKB layerCount : N) (f : F) (fs : FS)
  : outcome (option error * F * FS) :=
  match MkdirAll env dir fs with
  | (Some err, fs1) =>
    Done (Some (Errorf "failed creating directory %q: %w" [OStr dir; OErr err]), f, fs1)
  | (None, fs1) => pool_loop fuel dir layerSizeKB (N.to_nat layerCount) 0%N f fs1
  end.
End Pool.
End Shared.

(** ** The factory that owns its random source *)
Section Image.
Context {R : RandSource} {D : Docker}.
Variable env : oracle.
Variable header_block : tar.Header -> list byte.

Record RandomImageFactory : Type := {
  imageDir : string;
  src : Src;
  dockerClient : option Client;
  allGeneratedFiles : list string;
  logger : option Logger
}.

Definition RandomImageFactoryOpt : Type := RandomImageFactory -> RandomImageFactory.

Definition set_src (s : Src) (f : RandomImageFactory) : RandomImageFactory :=
  {| imageDir := imageDir f; src := s; dockerClient := dockerClient f;
     allGeneratedFiles := allGeneratedFiles f; logger := logger f |}.
Definition set_files (l : list string) (f : RandomImageFactory) : RandomImageFactory :=
  {| imageDir := imageDir f; src := src f; dockerClient := dockerClient f;
     allGeneratedFiles := l; logger := logger f |}.
Definition set_logger (l : option Logger) (f : RandomImageFactory) : RandomImageFactory :=
  {| imageDir := imageDir f; src := src f; dockerClient := dockerClient f;
     allGeneratedFiles := allGeneratedFiles f; logger := l |}.
Definition set_client (c : option Client) (f : RandomImageFactory) : RandomImageFactory :=
  {| imageDir := imageDir f; src := src f; dockerClient := c;
     allGeneratedFiles := allGeneratedFiles f; logger := logger f |}.

Definition WithLogger (l : Logger) : RandomImageFactoryOpt := set_logger (Some l).

Definition NewRandomImageFactory (seed : Z) (opts : list RandomImageFactoryOpt)
  : RandomImageFactory :=
  let f := {| imageDir := path_Join [baseImageDir; Sprintf "%d" [OInt seed]];
              src := NewSource seed;
              dockerClient := None;
              allGeneratedFiles := [];
              logger := None |} in
  fold_left (fun f opt => opt f) opts f.

(** [f.randBytes(n)]: draws from the factory's source and leaves it advanced. *)
Definition randBytes (fuel : nat) (n : Z) (f : RandomImageFactory)
  : outcome (list byte * RandomImageFactory) :=
  match randBytes_from fuel n (src f) with
  | Done (b, s) => Done (b, set_src s f)
  | Panic m => Panic m
  | OutOfFuel => OutOfFuel
  end.

Definition shuffleGeneratedFilePaths (f : RandomImageFactory) : outcome RandomImageFactory :=
  match shuffle (allGeneratedFiles f) (src f) with
  | Done (l, s) => Done (set_files l (set_src s f))
  | Panic m => Panic m
  | OutOfFuel => OutOfFuel
  end.

Definition generateRandomFilePool (fuel : nat) (layerSizeKB layerCount : N)
           (f : RandomImageFactory) (fs : FS)
  : outcome (option error * RandomImageFactory * FS) :=
  pool env RandomImageFactory
       (fun p f => set_files (allGeneratedFiles f ++ [p]) f)
       randBytes fuel (imageDir f) layerSizeKB layerCount f fs.

Definition createArchive : string -> list string -> FS -> option error * tar.Writer * FS :=
  createArchive_with env header_block
    (fun filePath err => Errorf "failed to read file info %q: %w" [OStr filePath; OErr err])
    (fun filePath err => Errorf "failed to read file %q: %w" [OStr filePath; OErr err]).

Definition getDockerClient (f : RandomImageFactory) : (Client + error) * RandomImageFactory :=
  match dockerClient f with
  | Some cli => (inl cli, f)
  | None =>
    match NewEnvClient with
    | inr err => (inr (Errorf "failed to initialized docker client: %w" [OErr err]), f)
    | inl cli => (inl cli, set_client (Some cli) f)
    end
  end.

(** What a call of [GenerateImage] leaves: the returned error, the factory,
    the file system, and the archive writer when [createArchive] was reached. *)
Record run : Type := {
  run_err : option error;
  run_factory : RandomImageFactory;
  run_fs : FS;
  run_archive : option tar.Writer
}.

(** [f.GenerateImage(layerSizeKB, layerCount, tags)]; [pwd] is
    [os.Getenv("PWD")]. *)
Definition GenerateImage (fuel : nat) (pwd : string) (layerSizeKB layerCount : N)
           (tags : list string) (f : RandomImageFactory) (fs : FS) : outcome run :=
  let f0 := match logger f with
            | None => set_logger (Some {| prefix := ""; flag := 3 |}) f
            | Some _ => f
            end in
  match generateRandomFilePool fuel layerSizeKB layerCount f0 fs with
  | Panic m => Panic m
  | OutOfFuel => OutOfFuel
  | Done (Some err, f1, fs1) =>
    Done {| run_err := Some err; run_factory := f1; run_fs := fs1; run_archive := None |}
  | Done (None, f1, fs1) =>
    match shuffleGeneratedFilePaths f1 with
    | Panic m => Panic m
    | OutOfFuel => OutOfFuel
    | Done f2 =>
      match generateDockerfile env (allGeneratedFiles f2) fs1 with
      | ((_, Some err), fs2) =>
        Done {| run_err := Some err; run_factory := f2; run_fs := fs2; run_archive := None |}
      | ((dockerfilePath, None), fs2) =>
        let tarFile := path_Join [pwd; "context.tar"] in
        let files := allGeneratedFiles f2 ++ [dockerfilePath] in
        match createArchive tarFile files fs2 with
        | (Some err, tw, fs3) =>
          Done {| run_err := Some err; run_factory := f2; run_fs := fs3;
                  run_archive := Some tw |}
        | (None, tw, fs3) =>
          match getDockerClient f2 with
          | (inr err, f3) =>
            Done {| run_err := Some err; run_factory := f3; run_fs := fs3;
                    run_archive := Some tw |}
          | (inl cli, f3) =>
            match Open env tarFile fs3 with
            | (inr err, fs4) =>
              Done {| run_err := Some (Errorf "failed to open tarball %s: %w"
                                              [OStr tarFile; OErr err]);
                      run_factory := f3; run_fs := fs4; run_archive := Some tw |}
            | (inl buildContext, fs4) =>
              match ImageBuild cli buildContext dockerfilePath tags with
              | inr err =>
                Done {| run_err := Some (Errorf "failed to build image: %w" [OErr err]);
                        run_factory := f3; run_fs := fs4; run_archive := Some tw |}
              | inl _ =>
                Done {| run_err := None; run_factory := f3; run_fs := fs4;
                        run_archive := Some tw |}
              end
            end
          end
        end
      end
    end
  end.
End Image.

(** ** The variant configured through struct fields (called by [cmd/build.go]) *)
Module Legacy.
Section Image.
Context {R : RandSource} {D : Docker}.
Variable env : oracle.
Variable header_block : tar.Header -> list byte.

Definition fileSizeKB : Z := 50.
Definition imageDir : string := "./generated-files".

Record RandomImageFactory : Type := {
  LayerSizeKB : N;
  LayerCount : N;
  Seed : Z;
  Tags : list string;
  dockerClient : option Client;
  allGeneratedFiles : list string
}.

Definition set_files (l : list string) (f : RandomImageFactory) : RandomImageFactory :=
  {| LayerSizeKB := LayerSizeKB f; LayerCount := LayerCount f; Seed := Seed f;
     Tags := Tags f; dockerClient := dockerClient f; allGeneratedFiles := l |}.
Definition set_client (c : option Client) (f : RandomImageFactory) : RandomImageFactory :=
  {| LayerSizeKB := LayerSizeKB f; LayerCount := LayerCount f; Seed := Seed f;
     Tags := Tags f; dockerClient := c; allGeneratedFiles := allGeneratedFiles f |}.

(** [f.randBytes(n)]: [src := rand.NewSource(f.Seed)] at every call. *)
Definition randBytes (fuel : nat) (n : Z) (f : RandomImageFactory)
  : outcome (list byte * RandomImageFactory) :=
  match randBytes_from fuel n (NewSource (Seed f)) with
  | Done (b, _) => Done (b, f)
  | Panic m => Panic m
  | OutOfFuel => OutOfFuel
  end.

(** [shuffleGeneratedFilePaths]: [rand.Intn] draws from the package-level
    source of [math/rand], here [g]. *)
Definition shuffleGeneratedFilePaths (f : RandomImageFactory) (g : Src)
  : outcome (RandomImageFactory * Src) :=
  match shuffle (allGeneratedFiles f) g with
  | Done (l, g') => Done (set_files l f, g')
  | Panic m => Panic m
  | OutOfFuel => OutOfFuel
  end.

Definition generateRandomFilePool (fuel : nat) (f : RandomImageFactory) (fs : FS)
  : outcome (option error * RandomImageFactory * FS) :=
  pool env RandomImageFactory
       (fun p f => set_files (allGeneratedFiles f ++ [p]) f)
       randBytes fuel imageDir (LayerSizeKB f) (LayerCount f) f fs.

(** The two [fmt.Errorf] calls of the loop have a [%q] and a [%w] verb and
    the error as their only operand. *)
Definition createArchive : string -> list string -> FS -> option error * tar.Writer * FS :=
  createArchive_with env header_block
    (fun filePath err => Errorf "failed to read file info %q: %w" [OErr err])
    (fun filePath err => Errorf "failed to read file %q: %w" [OErr err]).

Definition getDockerClient (f : RandomImageFactory) : (Client + error) * RandomImageFactory :=
  match dockerClient f with
  | Some cli => (inl cli, f)
  | None =>
    match NewClientWithOpts with
    | inr err => (inr (Errorf "failed to initialized docker client: %w" [OErr err]), f)
    | inl cli => (inl cli, set_client (Some cli) f)
    end
  end.

Record run : Type := {
  run_err : option error;
  run_factory : RandomImageFactory;
  run_fs : FS;
  run_global : Src;
  run_archive : option tar.Writer
}.

(** [f.GenerateImage()] *)
Definition GenerateImage (fuel : nat) (pwd : string) (f : RandomImageFactory)
           (g : Src) (fs : FS) : outcome run :=
  match generateRandomFilePool fuel f fs with
  | Panic m => Panic m
  | OutOfFuel => OutOfFuel
  | Done (Some err, f1, fs1) =>
    Done {| run_err := Some err; run_factory := f1; run_fs := fs1; run_global := g;
            run_archive := None |}
  | Done (None, f1, fs1) =>
    match shuffleGeneratedFilePaths f1 g with
    | Panic m => Panic m
    | OutOfFuel => OutOfFuel
    | Done (f2, g2) =>
      match generateDockerfile env (allGeneratedFiles f2) fs1 with
      | ((_, Some err), fs2) =>
        Done {| run_err := Some err; run_factory := f2; run_fs := fs2; run_global := g2;
                run_archive := None |}
      | ((dockerfilePath, None), fs2) =>
        let tarFile := path_Join [pwd; "context.tar"] in
        let files := allGeneratedFiles f2 ++ [dockerfilePath] in
        match createArchive tarFile files fs2 with
        | (Some err, tw, fs3) =>
          Done {| run_err := Some err; run_factory := f2; run_fs := fs3; run_global := g2;
                  run_archive := Some tw |}
        | (None, tw, fs3) =>
          match getDockerClient f2 with
          | (inr err, f3) =>
            Done {| run_err := Some err; run_factory := f3; run_fs := fs3;
                    run_global := g2; run_archive := Some tw |}
          | (inl cli, f3) =>
            match Open env tarFile fs3 with
            | (inr err, fs4) =>
              Done {| run_err := Some (Errorf "failed to open tarball %s: %w"
                                              [OStr tarFile; OErr err]);
                      run_factory := f3; run_fs := fs4; run_global := g2;
                      run_archive := Some tw |}
            | (inl buildContext, fs4) =>
              match ImageBuild cli buildContext dockerfilePath (Tags f3) with
              | inr err =>
                Done {| run_err := Some (Errorf "failed to build image: %w" [OErr err]);
                        run_factory := f3; run_fs := fs4; run_global := g2;
                        run_archive := Some tw |}
              | inl _ =>
                Done {| run_err := None; run_factory := f3; run_fs := fs4;
                        run_global := g2; run_archive := Some tw |}
              end
            end
          end
        end
      end
    end
  end.
End Image.
End Legacy.

(** ** A small source, daemon and environment to run the model on inputs

    A 64-bit linear congruential generator stands for [math/rand]: [Int63]
    returns the upper 54 bits of the state, [Intn n] reduces upper bits
    modulo [n]. *)
Module Demo.
Definition next (s : Z) : Z :=
  (s * 6364136223846793005 + 1442695040888963407) mod 2 ^ 64.

Definition source : RandSource :=
  {| Src := Z;
     NewSource := fun seed => seed mod 2 ^ 64;
     Int63 := fun s => (Z.shiftr (next s) 10, next s);
     Intn := fun n s => (Z.shiftr (next s) 33 mod n, next s) |}.

(** A daemon that accepts every build. *)
Definition docker : Docker :=
  {| Client := unit;
     NewEnvClient := inl tt;
     NewClientWithOpts := inl tt;
     ImageBuild := fun _ _ _ _ => inl "ok"%string |}.

(** No call fails. *)
Definition calm : oracle := fun _ _ _ => None.

(** Only the call made at time [t] fails, with [x]. *)
Definition fail_at (t : nat) (x : fault) : oracle :=
  fun t' _ _ => if Nat.eqb t t' then Some x else None.

(** A header block that holds the name and the size, padded to 512 bytes. *)
Definition header_block (h : tar.Header) : list byte :=
  take 512 (list_byte_of_string (tar.Name h +:+ ":" +:+ itoa (tar.Size h))
            ++ replicate 512 x00).

Definition empty_fs : FS := {| files := ∅; dirs := ∅; trace := [] |}.
End Demo.

(** ** Vocabulary of the statements *)

Definition is_letter (x : byte) : Prop := In x letterBytes.

Section Productive.
Context {R : RandSource}.

(** The [j]-th 6-bit chunk of a draw, as the loop of [randBytes] reads it. *)
Definition chunk (c j : Z) : Z :=
  Z.land (Z.shiftr c (letterIdxBits * j)) letterIdxMask.

(** A draw that holds at least one chunk the loop accepts. *)
Definition accepts (c : Z) : Prop :=
  exists j, 0 <= j < letterIdxMax /\ chunk c j < len letterBytes.

(** The source after [k] draws. *)
Fixpoint advance (k : nat) (s : Src) : Src :=
  match k with
  | O => s
  | S k' => advance k' (snd (Int63 s))
  end.

(** From every state some later draw is accepted: the source does not
    reject for ever. *)
Definition productive : Prop :=
  forall s, exists k, accepts (fst (Int63 (advance k s))).

(** [Intn n] stays in [[0, n)]. *)
Definition Intn_in_range : Prop :=
  forall n s, 0 < n -> 0 <= fst (Intn n s) < n.
End Productive.

Section LoopVocabulary.
Context {R : RandSource}.

(** One iteration of the loop of [randBytes], for [0 <= i]. *)
Definition loop_step (i cache remain : Z) (b : list byte) (s : Src)
  : Z * Z * Z * list byte * Src :=
  let '(cache1, remain1, s1) :=
    if remain =? 0
    then let '(c, s') := Int63 s in (c, letterIdxMax, s')
    else (cache, remain, s) in
  let idx := Z.land cache1 letterIdxMask in
  let '(b1, i1) :=
    if idx <? len letterBytes
    then (<[Z.to_nat i := nth (Z.to_nat idx) letterBytes x00]> b, i - 1)
    else (b, i) in
  (i1, Z.shiftr cache1 letterIdxBits, remain1 - 1, b1, s1).

(** Some iterations later the loop is at [i - 1]. *)
Definition reaches (i cache remain : Z) (b : list byte) (s : Src) : Prop :=
  exists fuel cache' (r' : nat) b' s',
    forall fuel2,
      randBytes_loop (fuel + fuel2) i cache remain b s =
      randBytes_loop fuel2 (i - 1) cache' (Z.of_nat r') b' s'.
End LoopVocabulary.

(** The code of a byte, and the letters [a-z], [A-Z]. *)
Definition code (x : byte) : Z := Z.of_N (Byte.to_N x).
Definition is_alpha (x : byte) : Prop :=
  97 <= code x <= 122 \/ 65 <= code x <= 90.

(** The shuffle in the words of its contract: exchanging two elements, and
    the Fisher-Yates steps "for i from 0, exchange element i with element
    js[i]". *)
Definition swap (i j : nat) (l : list string) : list string :=
  match l !! i, l !! j with
  | Some x, Some y => <[j := x]> (<[i := y]> l)
  | _, _ => l
  end.

Fixpoint fisher_yates (i : nat) (js : list nat) (l : list string) : list string :=
  match js with
  | [] => l
  | j :: js' => fisher_yates (S i) js' (swap i j l)
  end.

Section Draws.
Context {R : RandSource}.

(** The indices the source hands to [todo] steps of the shuffle that start
    at step [i], and the source afterwards. *)
Fixpoint draws (todo i : nat) (s : Src) : list nat * Src :=
  match todo with
  | O => ([], s)
  | S todo' =>
    let '(j, s') := Intn (Z.of_nat i + 1) s in
    let '(js, s'') := draws todo' (S i) s' in
    (Z.to_nat j :: js, s'')
  end.
End Draws.

(** [js] chooses, at step [i + k], an index of [[0, i + k]]. *)
Definition choices_in_range (i : nat) (js : list nat) : Prop :=
  forall k j, js !! k = Some j -> (j <= i + k)%nat.

(** A path that [os.Stat] finds: a regular file or a directory. *)
Definition exists_at (p : string) (fs : FS) : Prop :=
  is_Some (files fs !! p) \/ p ∈ dirs fs.

(** The calls of [fs'] that are not yet in [fs]. *)
Definition new_writes (fs fs' : FS) (new : list event) : Prop :=
  writes fs' = new ++ writes fs.

(** ** Runs of the model on the demonstration source *)
Module DemoRuns.
(** [generatePool(seed=1, sizeKB=1, count=3)] in an empty directory. *)
Definition pool_factory : @RandomImageFactory Demo.source Demo.docker :=
  NewRandomImageFactory (R := Demo.source) (D := Demo.docker) 1 [].

Definition pool_run
  : outcome (option error * @RandomImageFactory Demo.source Demo.docker * FS) :=
  generateRandomFilePool Demo.calm 2000 1 3 pool_factory Demo.empty_fs.

Definition pool_factory_after :=
  Eval vm_compute in
    match pool_run with
    | Done (_, f, _) => f
    | _ => pool_factory
    end.

Definition pool_fs_after :=
  Eval vm_compute in
    match pool_run with
    | Done (_, _, fs) => fs
    | _ => Demo.empty_fs
    end.
End DemoRuns.

(** The build command with [--layer-size 1 --layer-count 2] and its default
    seed, in an empty directory: the struct-field variant and, for the same
    seed, the variant that owns its source. *)
Module DemoBuild.
Definition seed : Z := 4848484.

Definition legacy_factory : @Legacy.RandomImageFactory Demo.docker :=
  {| Legacy.LayerSizeKB := 1; Legacy.LayerCount := 2; Legacy.Seed := seed;
     Legacy.Tags := ["registry.digitalocean.com/meow/rando"%string];
     Legacy.dockerClient := None; Legacy.allGeneratedFiles := [] |}.

Definition legacy_pool
  : outcome (option error * @Legacy.RandomImageFactory Demo.docker * FS) :=
  Legacy.generateRandomFilePool (R := Demo.source) Demo.calm 2000
                                legacy_factory Demo.empty_fs.

Definition legacy_factory_after :=
  Eval vm_compute in
    match legacy_pool with Done (_, f, _) => f | _ => legacy_factory end.
Definition legacy_fs_after :=
  Eval vm_compute in
    match legacy_pool with Done (_, _, fs) => fs | _ => Demo.empty_fs end.

Definition factory : @RandomImageFactory Demo.source Demo.docker :=
  NewRandomImageFactory (R := Demo.source) (D := Demo.docker) seed [].

Definition pool
  : outcome (option error * @RandomImageFactory Demo.source Demo.docker * FS) :=
  generateRandomFilePool Demo.calm 2000 1 2 factory Demo.empty_fs.

Definition factory_after :=
  Eval vm_compute in match pool with Done (_, f, _) => f | _ => factory end.
Definition fs_after :=
  Eval vm_compute in match pool with Done (_, _, fs) => fs | _ => Demo.empty_fs end.

(** The first 1024 bytes of the seed's stream, the source after them, and
    the 1024 bytes that follow. *)
Definition first_kb :=
  Eval vm_compute in
    match randBytes_from (R := Demo.source) 2000 1024 (NewSource (RandSource := Demo.source) seed) with
    | Done (b, _) => b
    | _ => []
    end.
Definition source_after_first_kb :=
  Eval vm_compute in
    match randBytes_from (R := Demo.source) 2000 1024 (NewSource (RandSource := Demo.source) seed) with
    | Done (_, s) => s
    | _ => 0
    end.
Definition second_kb :=
  Eval vm_compute in
    match randBytes_from (R := Demo.source) 2000 1024 source_after_first_kb with
    | Done (b, _) => b
    | _ => []
    end.
End DemoBuild.

(** ** Vocabulary for the manifest and the archive *)

Definition newline : ascii := ascii_of_nat 10.

(** Every character of [s] satisfies [P]. *)
Fixpoint all_chars (P : ascii -> Prop) (s : string) : Prop :=
  match s with
  | EmptyString => True
  | String c s' => P c /\ all_chars P s'
  end.

Definition newline_free (s : string) : Prop := all_chars (fun c => c <> newline) s.

(** The lines of a text: what stands before each newline, and what follows
    the last one when that is not empty. *)
Fixpoint lines (s : string) : list string :=
  match s with
  | EmptyString => []
  | String c s' =>
    if Ascii.eqb c newline then EmptyString :: lines s'
    else match lines s' with
         | [] => [String c EmptyString]
         | l :: ls => String c l :: ls
         end
  end.

(** The paths of a pool of [count] files of [size] KB under [dir], in index
    order. *)
Definition pool_paths (dir : string) (size count : N) : list string :=
  map (fun k => filePath dir size (N.of_nat k)) (seq 0 (N.to_nat count)).

(** A path of a generated file: under the directory of a seed, or under the
    directory of the struct-field variant. *)
Definition is_pool_path (p : string) : Prop :=
  exists (size i : N),
    (exists seed : Z, p = filePath (path_Join [baseImageDir; Sprintf "%d" [OInt seed]]) size i)
    \/ p = filePath Legacy.imageDir size i.

(** The header line and the directive line of a path. *)
Definition header_line : string := "FROM scratch".
Definition directive_line (p : string) : string := "ADD " +:+ p +:+ " /opt".

(** ** Vocabulary for failures *)

(** [os.Stat] answering "not found". *)
Definition not_found (e : event) : Prop :=
  ev_call e = SysStat /\ ev_err e = Some ENOENT.

(** A call that did not fail; in the pool, "not found" is an answer, not a
    failure. *)
Definition succeeded (e : event) : Prop := ev_err e = None.
Definition succeeded_or_not_found (e : event) : Prop := succeeded e \/ not_found e.

(** [cause] is the [*PathError] of the failed call [e]: it names an
    operation, the path of the call and its error number. *)
Definition path_error_of (e : event) (cause : error) : Prop :=
  exists op en, ev_err e = Some en /\ cause = PathError op (ev_path e) (Errno en).

(** The error [err] reports the failed call [e]: it wraps the [*PathError]
    of that call. *)
Definition reports (err : error) (e : event) : Prop :=
  exists cause, Unwrap err = Some cause /\ path_error_of e cause.

(** The first failure is fatal: [new] are the calls of an operation, newest
    first, and [r] is what it returned.  Without an error every call was
    allowed; with an error, the newest call is the failure it reports and no
    call was made after it. *)
Definition fatal (allowed : event -> Prop) (r : option error) (new : list event) : Prop :=
  match r with
  | None => Forall allowed new
  | Some err =>
    exists e rest,
      new = e :: rest /\ Forall allowed rest /\ ~ allowed e /\ reports err e
  end.

(** The write of the archive trailer by the deferred [tw.Close()], if it was
    made. *)
Definition closing_calls (name : string) (l : list event) : Prop :=
  l = [] \/ exists e, l = [e] /\ ev_call e = SysWrite /\ ev_path e = name.

(** No file disappears between [fs] and [fs']. *)
Definition nothing_removed (fs fs' : FS) : Prop :=
  forall q, is_Some (files fs !! q) -> is_Some (files fs' !! q).

(** An entry whose size field is the length of the bytes written for it, with
    the fixed mode [0600]. *)
Definition entry_ok (e : tar.entry) : Prop :=
  tar.Size (tar.hdr e) = len (tar.body e) /\ tar.Mode (tar.hdr e) = 384.

Definition entry_names (es : list tar.entry) : list string :=
  map (fun e => tar.Name (tar.hdr e)) es.

(** The errors [createArchive] builds around a cause. *)
Definition archive_error (statErr readErr : string -> error -> error)
           (paths : list string) (cause err : error) : Prop :=
  (exists p, In p paths /\ (err = statErr p cause \/ err = readErr p cause))
  \/ err = Errorf "failed to write tar header: %w" [OErr cause]
  \/ err = Errorf "failed to write tar body: %w" [OErr cause].

(** A whole run of [GenerateImage] for the build of [DemoBuild], and the
    same run when the disk is full at the write of the archive trailer. *)
Module DemoImage.
Definition pwd : string := "/home/u".
Definition tags : list string := ["registry.digitalocean.com/meow/rando"%string].

Definition started : @run Demo.source Demo.docker :=
  {| run_err := Some (errorString "not run"); run_factory := DemoBuild.factory;
     run_fs := Demo.empty_fs; run_archive := None |}.

Definition image_run : outcome (@run Demo.source Demo.docker) :=
  GenerateImage Demo.calm Demo.header_block 2000 pwd 1 2 tags
                DemoBuild.factory Demo.empty_fs.

Definition image_result :=
  Eval vm_compute in match image_run with Done r => r | _ => started end.

(** The trailer is the 26th call of the run. *)
Definition disk_full_at_trailer : oracle := Demo.fail_at 25 FaultNOSPC.

Definition trailer_run : outcome (@run Demo.source Demo.docker) :=
  GenerateImage disk_full_at_trailer Demo.header_block 2000 pwd 1 2 tags
                DemoBuild.factory Demo.empty_fs.

Definition trailer_result :=
  Eval vm_compute in match trailer_run with Done r => r | _ => started end.

Definition trailer_call : event :=
  {| ev_call := SysWrite; ev_path := "/home/u/context.tar"; ev_err := Some ENOSPC |}.

(** An archive of one path whose [os.Stat], the second call, is denied. *)
Definition denied_at_stat : oracle := Demo.fail_at 1 FaultACCES.

Definition denied_archive : option error * tar.Writer * FS :=
  createArchive denied_at_stat Demo.header_block "/home/u/context.tar"
                ["layer.txt"%string] Demo.empty_fs.

Definition denied_err :=
  Eval vm_compute in fst (fst denied_archive).
Definition denied_writer :=
  Eval vm_compute in snd (fst denied_archive).
Definition denied_fs :=
  Eval vm_compute in snd denied_archive.
End DemoImage.

(** ** Vocabulary of the further properties *)

Definition slash_free (s : string) : Prop := all_chars (fun c => c <> "/"%char) s.

(** A path element that [path.Clean] keeps where it is: not empty, without
    a slash, and neither [.] nor [..]. *)
Definition kept_element (e : string) : Prop :=
  slash_free e /\ e <> ""%string /\ e <> "."%string /\ e <> ".."%string.

(** The name [random_<size>KB_<i>.txt] of the [i]-th file of a pool. *)
Definition pool_name (size i : N) : string :=
  "random_" +:+ itoa (Z.of_N size) +:+ "KB_" +:+ itoa (Z.of_N i) +:+ ".txt".

(** The first [k] slices of [n] bytes that [randBytes] cuts from a source,
    one after the other, and the source after them. *)
Fixpoint stream_chunks {R : RandSource} (fuel : nat) (n : Z) (k : nat) (s : Src)
  : outcome (list (list byte) * Src) :=
  match k with
  | O => Done ([], s)
  | S k' =>
    match randBytes_from fuel n s with
    | Done (b, s1) =>
      match stream_chunks fuel n k' s1 with
      | Done (bs, s2) => Done (b :: bs, s2)
      | Panic m => Panic m
      | OutOfFuel => OutOfFuel
      end
    | Panic m => Panic m
    | OutOfFuel => OutOfFuel
    end
  end.

(** An environment in which no call fails. *)
Definition no_fault (env : oracle) : Prop := forall t c p, env t c p = None.

(** The number of bytes [generateRandomFilePool] asks of [randBytes]:
    [1024*int(layerSizeKB)]. *)
Definition layer_bytes (size : N) : Z := wrap64 (1024 * int_of_uint size).

(** ** The build command ([cmd/build.go]) *)
Module cmd.
Section Build.
Context {R : RandSource} {D : Docker}.
Variable env : oracle.
Variable header_block : tar.Header -> list byte.

(** [buildCmd.RunE]: [layerSize], [layerCount], [seed] and [tags] are the
    values of the flags [--layer-size], [--layer-count], [--seed] and
    [--tags]. *)
Definition RunE (fuel : nat) (pwd : string) (layerSize layerCount : N) (seed : Z)
           (tags : list string) (g : Src) (fs : FS) : outcome Legacy.run :=
  let randomImageFactory :=
    {| Legacy.LayerSizeKB := layerSize;
       Legacy.LayerCount := layerCount;
       Legacy.Seed := seed;
       Legacy.Tags := ["registry.digitalocean.com/meow/rando"%string];
       Legacy.dockerClient := None;
       Legacy.allGeneratedFiles := [] |} in
  Legacy.GenerateImage env header_block fuel pwd randomImageFactory g fs.
End Build.
End cmd.

(** Further runs on the demonstration source. *)
Module DemoMore.
(** The first request of 1024 bytes to the factory of [DemoBuild]. *)
Definition first_request
  : outcome (list byte * @RandomImageFactory Demo.source Demo.docker) :=
  randBytes (R := Demo.source) (D := Demo.docker) 2000 1024 DemoBuild.factory.

Definition factory_after_first_request :=
  Eval vm_compute in
    match first_request with Done (_, f) => f | _ => DemoBuild.factory end.

(** A request of 2048 bytes to the same factory. *)
Definition long_request
  : outcome (list byte * @RandomImageFactory Demo.source Demo.docker) :=
  randBytes (R := Demo.source) (D := Demo.docker) 4000 2048 DemoBuild.factory.

Definition two_kb :=
  Eval vm_compute in
    match long_request with Done (b, _) => b | _ => [] end.
Definition factory_after_long_request :=
  Eval vm_compute in
    match long_request with Done (_, f) => f | _ => DemoBuild.factory end.

(** The archive of [DemoImage.denied_archive] in the struct-field variant. *)
Definition legacy_denied_archive : option error * tar.Writer * FS :=
  Legacy.createArchive DemoImage.denied_at_stat Demo.header_block "/home/u/context.tar"
                       ["layer.txt"%string] Demo.empty_fs.

Definition legacy_denied_err :=
  Eval vm_compute in
    match fst (fst legacy_denied_archive) with
    | Some e => e
    | None => errorString "no error"
    end.
Definition legacy_denied_writer :=
  Eval vm_compute in snd (fst legacy_denied_archive).
Definition legacy_denied_fs :=
  Eval vm_compute in snd legacy_denied_archive.
End DemoMore.

(** A source that replays a list of answers: [Int63] and [Intn] hand out the
    next one, reduced to their range; an exhausted list answers 0. *)
Module Script.
Definition source : RandSource :=
  {| Src := list Z;
     NewSource := fun seed => [seed];
     Int63 := fun s => match s with
                       | x :: s' => (x mod 2 ^ 63, s')
                       | [] => (0, [])
                       end;
     Intn := fun n s => match s with
                        | x :: s' => (x mod n, s')
                        | [] => (0, [])
                        end |}.
End Script.

(** The bytes of an archive, entry by entry: the header block, the body, and
    zeros up to the next multiple of 512. *)
Definition entry_bytes (header_block : tar.Header -> list byte) (e : tar.entry)
  : list byte :=
  header_block (tar.hdr e) ++ tar.body e ++ tar.zeros ((- tar.Size (tar.hdr e)) mod 512).

Definition archive_bytes (header_block : tar.Header -> list byte) (es : list tar.entry)
  : list byte :=
  concat (map (entry_bytes header_block) es).

(** What the file of the writer holds between two entries: with the padding
    still owed, the bytes of the entries written so far. *)
Definition archive_so_far (header_block : tar.Header -> list byte)
           (tw : tar.Writer) (fs : FS) : Prop :=
  tar.nb tw = 0 /\
  exists nd, files fs !! tar.w tw = Some nd /\
             data nd ++ tar.zeros (tar.pad tw) = archive_bytes header_block (tar.entries tw).

(** The archive of one file of three bytes, when no call fails. *)
Module DemoArchive.
Definition one_file_fs : FS :=
  {| files := {[ "layer.txt"%string := {| data := list_byte_of_string "abc"; mtime := 0 |} ]};
     dirs := ∅; trace := [] |}.

Definition archive : option error * tar.Writer * FS :=
  createArchive Demo.calm Demo.header_block "/home/u/context.tar"
                ["layer.txt"%string] one_file_fs.

Definition writer :=
  Eval vm_compute in snd (fst archive).
Definition fs_after :=
  Eval vm_compute in snd archive.
End DemoArchive.

(** Two runs of the pool and the shuffler for one seed: four files of 1 KB
    in an empty directory, and the same with a new factory of the same seed
    once the files exist. *)
Module DemoShuffle.





(** A factory of the seed that holds three paths, and a run of
    [GenerateImage] like the one of [DemoImage] with another logger, other
    tags and another working directory. *)
Definition three_paths : @RandomImageFactory Demo.source Demo.docker :=
  set_files ["a"; "b"; "c"]%string DemoBuild.factory.

Definition legacy_three_paths : @Legacy.RandomImageFactory Demo.docker :=
  {| Legacy.LayerSizeKB := 1; Legacy.LayerCount := 3; Legacy.Seed := DemoBuild.seed;
     Legacy.Tags := []; Legacy.dockerClient := None;
     Legacy.allGeneratedFiles := ["a"; "b"; "c"]%string |}.



End DemoShuffle.

(** A second image from the factory and the files that the run of
    [DemoImage] left. *)
Module DemoReuse.
Definition second_run : outcome (@run Demo.source Demo.docker) :=
  GenerateImage Demo.calm Demo.header_block 2000 DemoImage.pwd 1 2 DemoImage.tags
                (run_factory DemoImage.image_result) (run_fs DemoImage.image_result).

Definition second_result :=
  Eval vm_compute in match second_run with Done r => r | _ => DemoImage.started end.

Definition second_names :=
  Eval vm_compute in
    match run_archive second_result with
    | Some tw => entry_names (tar.entries tw)
    | None => []
    end.
End DemoReuse.
Section ByteGeneratorFacts.
Context {R : RandSource}.

Lemma letterBytes_len : len letterBytes = 52.
Proof. reflexivity. Qed.

Lemma letter_at (idx : Z) :
  0 <= idx < len letterBytes -> is_letter (nth (Z.to_nat idx) letterBytes x00).
Proof.
  intros H. apply nth_In. unfold len in H. lia.
Qed.

Lemma idx_nonneg (c : Z) : 0 <= Z.land c letterIdxMask.
Proof. apply Z.land_nonneg. right. vm_compute. discriminate. Qed.

Lemma randBytes_loop_S fuel i cache remain b s :
  0 <= i ->
  randBytes_loop (S fuel) i cache remain b s =
  let '(i1, c1, r1, b1, s1) := loop_step i cache remain b s in
  randBytes_loop fuel i1 c1 r1 b1 s1.
Proof.
  intros Hi. unfold loop_step. simpl.
  destruct (i <? 0) eqn:E; [apply Z.ltb_lt in E; lia|].
  destruct (remain =? 0); [destruct (Int63 s) as [c s']|];
    destruct (_ <? len letterBytes); reflexivity.
Qed.

Lemma randBytes_loop_done fuel i cache remain b s :
  i < 0 -> randBytes_loop fuel i cache remain b s = Done (b, s).
Proof.
  intros Hi. apply Z.ltb_lt in Hi. destruct fuel; simpl; rewrite Hi; reflexivity.
Qed.

(** The slice keeps its length, and what lies above [i] is letters. *)
Lemma randBytes_loop_sound fuel :
  forall i cache remain b s b' s',
    -1 <= i < len b ->
    (forall (k : nat) x, i < Z.of_nat k -> b !! k = Some x -> is_letter x) ->
    randBytes_loop fuel i cache remain b s = Done (b', s') ->
    length b' = length b /\ Forall is_letter b'.
Proof.
  induction fuel as [|fuel IH]; intros i cache remain b s b' s' Hi Hinv Hrun.
  - simpl in Hrun. destruct (i <? 0) eqn:E; [|discriminate].
    apply Z.ltb_lt in E. injection Hrun as <- <-. split; [reflexivity|].
    apply Forall_lookup. intros k x Hk. apply (Hinv k x); [lia|exact Hk].
  - destruct (Z.ltb_spec i 0) as [Hneg|Hpos].
    + rewrite randBytes_loop_done in Hrun by lia. injection Hrun as <- <-.
      split; [reflexivity|].
      apply Forall_lookup. intros k x Hk. apply (Hinv k x); [lia|exact Hk].
    + rewrite randBytes_loop_S in Hrun by lia. unfold loop_step in Hrun.
      destruct (if remain =? 0 then _ else _) as [[cache1 remain1] s1].
      pose proof (idx_nonneg cache1) as Hnn.
      destruct (Z.ltb_spec (Z.land cache1 letterIdxMask) (len letterBytes)) as [Hlt|Hge].
      * apply IH in Hrun.
        -- rewrite length_insert in Hrun. exact Hrun.
        -- unfold len in *. rewrite length_insert. lia.
        -- intros k x Hk Hlook.
           destruct (decide (k = Z.to_nat i)) as [->|Hne].
           ++ rewrite list_lookup_insert_eq in Hlook by (unfold len in *; lia).
              injection Hlook as <-. apply letter_at. lia.
           ++ rewrite list_lookup_insert_ne in Hlook by congruence.
              apply (Hinv k x); [lia|exact Hlook].
      * apply IH in Hrun; [exact Hrun|lia|exact Hinv].
Qed.

Lemma randBytes_from_sound fuel n s b s' :
  randBytes_from fuel n s = Done (b, s') ->
  len b = n /\ Forall is_letter b.
Proof.
  unfold randBytes_from. destruct (Z.ltb_spec n 0) as [Hn|Hn]; [discriminate|].
  destruct (Int63 s) as [cache s1]. intros Hrun.
  apply randBytes_loop_sound in Hrun.
  - destruct Hrun as [Hlen Hall]. split; [|exact Hall].
    unfold len. rewrite Hlen, length_replicate. lia.
  - unfold len. rewrite length_replicate. lia.
  - intros k x Hk Hlook. apply lookup_lt_Some in Hlook.
    rewrite length_replicate in Hlook. lia.
Qed.

Lemma chunk_shift (c j : Z) :
  0 < j -> chunk (Z.shiftr c letterIdxBits) (j - 1) = chunk c j.
Proof.
  intros Hj. unfold chunk, letterIdxBits.
  rewrite Z.shiftr_shiftr by lia. f_equal. f_equal. lia.
Qed.

Lemma chunk_0 (c : Z) : chunk c 0 = Z.land c letterIdxMask.
Proof. unfold chunk. rewrite Z.mul_0_r, Z.shiftr_0_r. reflexivity. Qed.

Lemma reaches_step i cache remain b s :
  0 <= i ->
  (let '(i1, c1, r1, b1, s1) := loop_step i cache remain b s in
   (i1 = i - 1 /\ exists r' : nat, r1 = Z.of_nat r') \/
   (i1 = i /\ reaches i c1 r1 b1 s1)) ->
  reaches i cache remain b s.
Proof.
  intros Hi. destruct (loop_step i cache remain b s) as [[[[i1 c1] r1] b1] s1] eqn:E.
  intros [[-> [r' ->]]|[-> (fuel & c' & r' & b' & s' & H)]].
  - exists 1%nat, c1, r', b1, s1. intros fuel2. simpl Nat.add.
    rewrite randBytes_loop_S by lia. rewrite E. reflexivity.
  - exists (S fuel), c', r', b', s'. intros fuel2. simpl Nat.add.
    rewrite randBytes_loop_S by lia. rewrite E. apply H.
Qed.

(** An accepted chunk among the next [r] of the current draw. *)
Lemma reaches_in_cache (r : nat) :
  forall i cache b s,
    0 <= i ->
    (exists j, 0 <= j < Z.of_nat r /\ chunk cache j < len letterBytes) ->
    reaches i cache (Z.of_nat r) b s.
Proof.
  induction r as [|r IH]; intros i cache b s Hi [j [Hj Hacc]]; [lia|].
  apply reaches_step; [lia|]. unfold loop_step.
  replace (Z.of_nat (S r) =? 0) with false by (symmetry; apply Z.eqb_neq; lia).
  destruct (Z.ltb_spec (Z.land cache letterIdxMask) (len letterBytes)) as [Hlt|Hge].
  - left. split; [reflexivity|]. exists r. lia.
  - right. split; [reflexivity|].
    replace (Z.of_nat (S r) - 1) with (Z.of_nat r) by lia.
    apply IH; [lia|]. exists (j - 1).
    assert (j <> 0) by (intros ->; rewrite chunk_0 in Hacc; lia).
    rewrite chunk_shift by lia. split; [lia|exact Hacc].
Qed.

(** An accepted draw [k] draws ahead. *)
Lemma reaches_ahead (k : nat) :
  forall (r : nat) i cache b s,
    0 <= i ->
    accepts (fst (Int63 (advance k s))) ->
    reaches i cache (Z.of_nat r) b s.
Proof.
  induction k as [|k IHk]; intros r; induction r as [|r IHr];
    intros i cache b s Hi Hacc.
  - apply reaches_step; [lia|]. unfold loop_step. simpl Z.eqb. simpl in Hacc.
    destruct (Int63 s) as [c s1]. simpl in Hacc.
    destruct (Z.ltb_spec (Z.land c letterIdxMask) (len letterBytes)) as [Hlt|Hge].
    + left. split; [reflexivity|]. exists 9%nat. reflexivity.
    + right. split; [reflexivity|]. change (letterIdxMax - 1) with (Z.of_nat 9).
      apply reaches_in_cache; [lia|].
      destruct Hacc as [j [Hj Hch]]. exists (j - 1).
      assert (j <> 0) by (intros ->; rewrite chunk_0 in Hch; lia).
      rewrite chunk_shift by lia. change letterIdxMax with 10 in Hj.
      split; [lia|exact Hch].
  - apply reaches_step; [lia|]. unfold loop_step.
    replace (Z.of_nat (S r) =? 0) with false by (symmetry; apply Z.eqb_neq; lia).
    destruct (Z.ltb_spec (Z.land cache letterIdxMask) (len letterBytes)) as [Hlt|Hge].
    + left. split; [reflexivity|]. exists r. lia.
    + right. split; [reflexivity|].
      replace (Z.of_nat (S r) - 1) with (Z.of_nat r) by lia.
      apply IHr; assumption.
  - apply reaches_step; [lia|]. unfold loop_step. simpl Z.eqb. simpl in Hacc.
    destruct (Int63 s) as [c s1]. simpl in Hacc.
    destruct (Z.ltb_spec (Z.land c letterIdxMask) (len letterBytes)) as [Hlt|Hge].
    + left. split; [reflexivity|]. exists 9%nat. reflexivity.
    + right. split; [reflexivity|]. change (letterIdxMax - 1) with (Z.of_nat 9).
      apply IHk; assumption.
  - apply reaches_step; [lia|]. unfold loop_step.
    replace (Z.of_nat (S r) =? 0) with false by (symmetry; apply Z.eqb_neq; lia).
    destruct (Z.ltb_spec (Z.land cache letterIdxMask) (len letterBytes)) as [Hlt|Hge].
    + left. split; [reflexivity|]. exists r. lia.
    + right. split; [reflexivity|].
      replace (Z.of_nat (S r) - 1) with (Z.of_nat r) by lia.
      apply IHr; assumption.
Qed.

Lemma randBytes_loop_terminates (Hprod : productive) (n : nat) :
  forall cache (r : nat) b s,
    exists fuel b' s',
      randBytes_loop fuel (Z.of_nat n - 1) cache (Z.of_nat r) b s = Done (b', s').
Proof.
  induction n as [|n IH]; intros cache r b s.
  - exists 0%nat, b, s. apply randBytes_loop_done. lia.
  - destruct (Hprod s) as [k Hk].
    destruct (reaches_ahead k r (Z.of_nat (S n) - 1) cache b s ltac:(lia) Hk)
      as (fuel1 & c' & r' & b1 & s1 & Hreach).
    replace (Z.of_nat (S n) - 1 - 1) with (Z.of_nat n - 1) in Hreach by lia.
    destruct (IH c' r' b1 s1) as (fuel2 & b' & s' & Hdone).
    exists (fuel1 + fuel2)%nat, b', s'. rewrite Hreach. exact Hdone.
Qed.

Lemma randBytes_from_terminates (Hprod : productive) (n : Z) (s : Src) :
  0 <= n -> exists fuel b s', randBytes_from fuel n s = Done (b, s').
Proof.
  intros Hn. unfold randBytes_from.
  replace (n <? 0) with false by (symmetry; apply Z.ltb_ge; lia).
  destruct (Int63 s) as [cache s1].
  destruct (randBytes_loop_terminates Hprod (Z.to_nat n) cache 10
              (replicate (Z.to_nat n) x00) s1) as (fuel & b & s' & H).
  exists fuel, b, s'. rewrite Z2Nat.id in H by lia. exact H.
Qed.

(** More fuel does not change a result. *)
Lemma randBytes_loop_fuel_mono fuel :
  forall fuel' i cache remain b s r,
    (fuel <= fuel')%nat ->
    randBytes_loop fuel i cache remain b s = Done r ->
    randBytes_loop fuel' i cache remain b s = Done r.
Proof.
  induction fuel as [|fuel IH]; intros fuel' i cache remain b s r Hle Hrun.
  - simpl in Hrun. destruct (Z.ltb_spec i 0) as [Hi|Hi]; [|discriminate].
    rewrite randBytes_loop_done by lia. exact Hrun.
  - destruct (Z.ltb_spec i 0) as [Hi|Hi].
    + rewrite randBytes_loop_done in * by lia. exact Hrun.
    + destruct fuel' as [|fuel']; [lia|].
      rewrite randBytes_loop_S in * by lia.
      destruct (loop_step i cache remain b s) as [[[[i1 c1] r1] b1] s1].
      apply IH; [lia|exact Hrun].
Qed.

Lemma randBytes_from_fuel_mono fuel fuel' n s r :
  (fuel <= fuel')%nat ->
  randBytes_from fuel n s = Done r -> randBytes_from fuel' n s = Done r.
Proof.
  unfold randBytes_from. intros Hle.
  destruct (n <? 0); [discriminate|]. destruct (Int63 s) as [c s1].
  apply randBytes_loop_fuel_mono. exact Hle.
Qed.

Lemma randBytes_from_fuel_indep fuel1 fuel2 n s r1 r2 :
  randBytes_from fuel1 n s = Done r1 ->
  randBytes_from fuel2 n s = Done r2 -> r1 = r2.
Proof.
  intros H1 H2.
  apply (randBytes_from_fuel_mono _ (Nat.max fuel1 fuel2)) in H1; [|lia].
  apply (randBytes_from_fuel_mono _ (Nat.max fuel1 fuel2)) in H2; [|lia].
  congruence.
Qed.
End ByteGeneratorFacts.

Lemma is_letter_alpha (x : byte) : is_letter x <-> is_alpha x.
Proof.
  split.
  - intros H. unfold is_letter, letterBytes in H. simpl in H.
    repeat (destruct H as [<-|H]; [unfold is_alpha; vm_compute; intuition discriminate|]).
    destruct H.
  - unfold is_alpha, code. intros H.
    destruct x; vm_compute in H;
      try (exfalso; destruct H as [[H1 H2]|[H1 H2]]; (now apply H1) || (now apply H2));
      unfold is_letter, letterBytes; simpl; tauto.
Qed.

(** The demonstration source never rejects a whole draw: its draws are below
    [2^54], so the tenth chunk is 0. *)
Lemma Demo_source_productive : @productive Demo.source.
Proof.
  intros s. exists 0%nat. exists 9. split; [vm_compute; intuition discriminate|].
  simpl. unfold chunk, letterIdxBits, letterIdxMask.
  rewrite Z.shiftr_shiftr by lia. change (10 + 6 * 9) with 64.
  assert (Hb : 0 <= Demo.next s < 2 ^ 64) by (unfold Demo.next; apply Z.mod_pos_bound; lia).
  rewrite Z.shiftr_div_pow2 by lia.
  rewrite Z.div_small by lia. reflexivity.
Qed.

Lemma Demo_Intn_in_range : @Intn_in_range Demo.source.
Proof.
  intros n s Hn. simpl. apply Z.mod_pos_bound. exact Hn.
Qed.

(** C2: for every state of the source (in particular the one a seed gives),
    and every requested length [n >= 0], the byte generator of either variant
    returns, and what it returns is a slice of exactly [n] bytes, each one a
    letter of [a-z], [A-Z].  Returning needs a source that does not reject
    for ever. *)
Theorem randBytes_length_alphabet `{R : RandSource} `{D : Docker}
        (f : RandomImageFactory) (lf : Legacy.RandomImageFactory) (n : Z) :
  productive ->
  0 <= n ->
  (exists fuel b f', randBytes fuel n f = Done (b, f')) /\
  (exists fuel b, Legacy.randBytes fuel n lf = Done (b, lf)) /\
  (forall fuel b f', randBytes fuel n f = Done (b, f') ->
     len b = n /\ Forall is_alpha b) /\
  (forall fuel b lf', Legacy.randBytes fuel n lf = Done (b, lf') ->
     len b = n /\ Forall is_alpha b).
Proof.
  intros Hprod Hn. repeat split.
  - destruct (randBytes_from_terminates Hprod n (src f) Hn) as (fuel & b & s' & H).
    exists fuel, b, (set_src s' f). unfold randBytes. rewrite H. reflexivity.
  - destruct (randBytes_from_terminates Hprod n (NewSource (Legacy.Seed lf)) Hn)
      as (fuel & b & s' & H).
    exists fuel, b. unfold Legacy.randBytes. rewrite H. reflexivity.
  - unfold randBytes in H.
    destruct (randBytes_from fuel n (src f)) as [[b0 s0]| |] eqn:E; try discriminate.
    injection H as <- <-. apply randBytes_from_sound in E. apply E.
  - unfold randBytes in H.
    destruct (randBytes_from fuel n (src f)) as [[b0 s0]| |] eqn:E; try discriminate.
    injection H as <- <-. apply randBytes_from_sound in E.
    eapply Forall_impl; [apply E|]. intros x Hx. apply is_letter_alpha, Hx.
  - unfold Legacy.randBytes in H.
    destruct (randBytes_from fuel n _) as [[b0 s0]| |] eqn:E; try discriminate.
    injection H as <- <-. apply randBytes_from_sound in E. apply E.
  - unfold Legacy.randBytes in H.
    destruct (randBytes_from fuel n _) as [[b0 s0]| |] eqn:E; try discriminate.
    injection H as <- <-. apply randBytes_from_sound in E.
    eapply Forall_impl; [apply E|]. intros x Hx. apply is_letter_alpha, Hx.
Qed.

Lemma randBytes_length_alphabet_witness :
  let f := NewRandomImageFactory (R := Demo.source) (D := Demo.docker) 4848484 [] in
  let lf := {| Legacy.LayerSizeKB := 1; Legacy.LayerCount := 2; Legacy.Seed := 4848484;
               Legacy.Tags := []; Legacy.dockerClient := @None (@Client Demo.docker);
               Legacy.allGeneratedFiles := [] |} in
  productive (R := Demo.source) /\ 0 <= 5 /\
  ((exists fuel b f', randBytes fuel 5 f = Done (b, f')) /\
   (exists fuel b, Legacy.randBytes (R := Demo.source) fuel 5 lf = Done (b, lf)) /\
   (forall fuel b f', randBytes fuel 5 f = Done (b, f') ->
      len b = 5 /\ Forall is_alpha b) /\
   (forall fuel b lf', Legacy.randBytes (R := Demo.source) fuel 5 lf = Done (b, lf') ->
      len b = 5 /\ Forall is_alpha b)).
Proof.
  intros f lf. split; [exact Demo_source_productive|]. split; [lia|].
  apply (@randBytes_length_alphabet Demo.source Demo.docker f lf 5
           Demo_source_productive).
  lia.
Defined.

(** C1: the bytes depend on the seed and the requested length only.  For
    every seed and length [n >= 0] there is one slice [b] such that every
    factory seeded with that seed, whatever its other fields (layer size,
    layer count, tags, logger, recorded paths), returns [b] at its first
    request of [n] bytes, in both variants and whatever the fuel. *)
Theorem randBytes_deterministic `{R : RandSource} `{D : Docker} (seed n : Z) :
  productive ->
  0 <= n ->
  exists b : list byte,
    (forall f : RandomImageFactory,
        src f = NewSource seed ->
        (exists fuel f', randBytes fuel n f = Done (b, f')) /\
        (forall fuel b' f', randBytes fuel n f = Done (b', f') -> b' = b)) /\
    (forall lf : Legacy.RandomImageFactory,
        Legacy.Seed lf = seed ->
        (exists fuel, Legacy.randBytes fuel n lf = Done (b, lf)) /\
        (forall fuel b' lf', Legacy.randBytes fuel n lf = Done (b', lf') -> b' = b)).
Proof.
  intros Hprod Hn.
  destruct (randBytes_from_terminates Hprod n (NewSource seed) Hn) as (fuel0 & b & s0 & H0).
  exists b. split.
  - intros f Hsrc. split.
    + exists fuel0, (set_src s0 f). unfold randBytes. rewrite Hsrc, H0. reflexivity.
    + intros fuel b' f' H. unfold randBytes in H. rewrite Hsrc in H.
      destruct (randBytes_from fuel n (NewSource seed)) as [[b1 s1]| |] eqn:E;
        try discriminate.
      injection H as <- <-.
      pose proof (randBytes_from_fuel_indep _ _ _ _ _ _ E H0) as Heq. congruence.
  - intros lf Hseed. split.
    + exists fuel0. unfold Legacy.randBytes. rewrite Hseed, H0. reflexivity.
    + intros fuel b' lf' H. unfold Legacy.randBytes in H. rewrite Hseed in H.
      destruct (randBytes_from fuel n (NewSource seed)) as [[b1 s1]| |] eqn:E;
        try discriminate.
      injection H as <- <-.
      pose proof (randBytes_from_fuel_indep _ _ _ _ _ _ E H0) as Heq. congruence.
Qed.

Lemma randBytes_deterministic_witness :
  @productive Demo.source /\ 0 <= 1024 /\
  exists b : list byte,
    (forall f : @RandomImageFactory Demo.source Demo.docker,
        src f = @NewSource Demo.source 4848484 ->
        (exists fuel f', randBytes fuel 1024 f = Done (b, f')) /\
        (forall fuel b' f', randBytes fuel 1024 f = Done (b', f') -> b' = b)) /\
    (forall lf : @Legacy.RandomImageFactory Demo.docker,
        Legacy.Seed lf = 4848484 ->
        (exists fuel, @Legacy.randBytes Demo.source Demo.docker fuel 1024 lf = Done (b, lf)) /\
        (forall fuel b' lf',
            @Legacy.randBytes Demo.source Demo.docker fuel 1024 lf = Done (b', lf') -> b' = b)).
Proof.
  split; [exact Demo_source_productive|]. split; [lia|].
  apply (@randBytes_deterministic Demo.source Demo.docker 4848484 1024
           Demo_source_productive).
  lia.
Defined.

(** ** The shuffler *)

Lemma insert_perm_delete (l : list string) (j : nat) (a : string) :
  (j < length l)%nat -> <[j := a]> l ≡ₚ a :: delete j l.
Proof.
  revert j. induction l as [|b l IH]; intros j Hj; simpl in Hj; [lia|].
  destruct j as [|j]; simpl.
  - reflexivity.
  - rewrite (IH j) by lia. apply perm_swap.
Qed.

Lemma swap_perm (l : list string) (i j : nat) : swap i j l ≡ₚ l.
Proof.
  unfold swap.
  destruct (l !! i) as [x|] eqn:Hi; [|reflexivity].
  destruct (l !! j) as [y|] eqn:Hj; [|reflexivity].
  revert i j Hi Hj. induction l as [|a l IH]; intros i j Hi Hj; [discriminate|].
  destruct i as [|i], j as [|j]; simpl in *.
  - injection Hi as ->. reflexivity.
  - injection Hi as ->. rewrite insert_perm_delete by (eapply lookup_lt_Some; eauto).
    rewrite (delete_Permutation l j y Hj) at 2. apply perm_swap.
  - injection Hj as ->. rewrite insert_perm_delete by (eapply lookup_lt_Some; eauto).
    rewrite (delete_Permutation l i x Hi) at 2. apply perm_swap.
  - apply perm_skip. apply IH; assumption.
Qed.

Lemma swap_length (l : list string) (i j : nat) : length (swap i j l) = length l.
Proof.
  unfold swap. destruct (l !! i); [|reflexivity]. destruct (l !! j); [|reflexivity].
  rewrite !length_insert. reflexivity.
Qed.

Lemma fisher_yates_perm (js : list nat) :
  forall i l, fisher_yates i js l ≡ₚ l /\ length (fisher_yates i js l) = length l.
Proof.
  induction js as [|j js IH]; intros i l; simpl; [split; reflexivity|].
  destruct (IH (S i) (swap i j l)) as [Hp Hl]. split.
  - rewrite Hp. apply swap_perm.
  - rewrite Hl. apply swap_length.
Qed.

Section ShufflerFacts.
Context {R : RandSource}.
Hypothesis Hrange : Intn_in_range.

Lemma draws_length (todo : nat) : forall i s, length (fst (draws todo i s)) = todo.
Proof.
  induction todo as [|todo IH]; intros i s; simpl; [reflexivity|].
  destruct (Intn (Z.of_nat i + 1) s) as [j s'].
  specialize (IH (S i) s'). destruct (draws todo (S i) s') as [js s'']. simpl in *.
  congruence.
Qed.

Lemma draws_in_range (todo : nat) :
  forall i s, choices_in_range i (fst (draws todo i s)).
Proof.
  induction todo as [|todo IH]; intros i s k j; simpl.
  - intros H. discriminate.
  - pose proof (Hrange (Z.of_nat i + 1) s ltac:(lia)) as Hj.
    destruct (Intn (Z.of_nat i + 1) s) as [j0 s'].
    specialize (IH (S i) s'). destruct (draws todo (S i) s') as [js s'']. simpl in *.
    destruct k as [|k]; simpl.
    + intros [= <-]. lia.
    + intros H. apply IH in H. lia.
Qed.

(** The loop performs the Fisher-Yates steps on the indices drawn, and
    never leaves the slice. *)
Lemma shuffle_loop_spec (todo : nat) :
  forall i l s,
    (i + todo = length l)%nat ->
    shuffle_loop todo i l s =
    Done (fisher_yates i (fst (draws todo i s)) l, snd (draws todo i s)).
Proof.
  induction todo as [|todo IH]; intros i l s Hlen; simpl; [reflexivity|].
  pose proof (Hrange (Z.of_nat i + 1) s ltac:(lia)) as Hj.
  destruct (Intn (Z.of_nat i + 1) s) as [j s']. simpl in Hj.
  replace (j <? 0) with false by (symmetry; apply Z.ltb_ge; lia).
  destruct (lookup_lt_is_Some_2 l i ltac:(lia)) as [x Hx].
  destruct (lookup_lt_is_Some_2 l (Z.to_nat j) ltac:(lia)) as [y Hy].
  rewrite Hx, Hy.
  rewrite IH by (rewrite !length_insert; lia).
  destruct (draws todo (S i) s') as [js s'']. simpl.
  unfold swap. rewrite Hx, Hy. reflexivity.
Qed.

Lemma shuffle_spec (l : list string) (s : Src) :
  shuffle l s =
  Done (fisher_yates 0 (fst (draws (length l) 0 s)) l, snd (draws (length l) 0 s)).
Proof. unfold shuffle. apply shuffle_loop_spec. reflexivity. Qed.
End ShufflerFacts.

(** C5: the shuffler of either variant returns, having performed the
    Fisher-Yates steps on the answers of [Intn]: with [js] the answers
    [Intn(1)], [Intn(2)], .., [Intn(len)] that the source gives one after the
    other, it exchanged, for [i] from 0 to [len - 1], element [i] with the
    element at index [js[i]], an index of [[0, i]], and it leaves the source
    after these answers.  The list it leaves is a permutation of the list it
    found, of the same length.  The indices are in range because [Intn]
    keeps its contract. *)
Theorem shuffle_is_permutation `{R : RandSource} `{D : Docker}
        (f : RandomImageFactory) (lf : Legacy.RandomImageFactory) (g : Src) :
  Intn_in_range ->
  (let l := allGeneratedFiles f in
   let js := fst (draws (length l) 0 (src f)) in
   shuffleGeneratedFilePaths f
   = Done (set_files (fisher_yates 0 js l) (set_src (snd (draws (length l) 0 (src f))) f)) /\
   length js = length l /\
   choices_in_range 0 js /\
   fisher_yates 0 js l ≡ₚ l /\
   length (fisher_yates 0 js l) = length l) /\
  (let l := Legacy.allGeneratedFiles lf in
   let js := fst (draws (length l) 0 g) in
   Legacy.shuffleGeneratedFilePaths lf g
   = Done (Legacy.set_files (fisher_yates 0 js l) lf, snd (draws (length l) 0 g)) /\
   length js = length l /\
   choices_in_range 0 js /\
   fisher_yates 0 js l ≡ₚ l /\
   length (fisher_yates 0 js l) = length l).
Proof.
  intros Hrange. split.
  - intros l js. unfold shuffleGeneratedFilePaths.
    rewrite (shuffle_spec Hrange). split; [reflexivity|].
    split; [apply draws_length|]. split; [apply draws_in_range, Hrange|].
    apply fisher_yates_perm.
  - intros l js. unfold Legacy.shuffleGeneratedFilePaths.
    rewrite (shuffle_spec Hrange). split; [reflexivity|].
    split; [apply draws_length|]. split; [apply draws_in_range, Hrange|].
    apply fisher_yates_perm.
Qed.

Lemma DemoShuffle_three_draws :
  draws (R := Demo.source) 3 0 (src DemoShuffle.three_paths)
  = ([0; 1; 0]%nat, (5693208106461018061 : @Src Demo.source)).
Proof. vm_compute. reflexivity. Qed.

Lemma DemoShuffle_legacy_three_draws :
  draws (R := Demo.source) 3 0 (1 : @Src Demo.source)
  = ([0; 1; 0]%nat, (11960119808228829710 : @Src Demo.source)).
Proof. vm_compute. reflexivity. Qed.

Lemma shuffle_is_permutation_witness :
  Intn_in_range (R := Demo.source) /\
  (shuffleGeneratedFilePaths DemoShuffle.three_paths
   = Done (set_files ["c"; "b"; "a"]%string
                     (set_src (5693208106461018061 : @Src Demo.source)
                              DemoShuffle.three_paths)) /\
   fst (draws (R := Demo.source) 3 0 (src DemoShuffle.three_paths)) = [0; 1; 0]%nat /\
   fisher_yates 0 [0; 1; 0]%nat ["a"; "b"; "c"]%string = ["c"; "b"; "a"]%string /\
   ["c"; "b"; "a"]%string ≡ₚ ["a"; "b"; "c"]%string) /\
  (Legacy.shuffleGeneratedFilePaths (R := Demo.source) DemoShuffle.legacy_three_paths
                                    (1 : @Src Demo.source)
   = Done (Legacy.set_files ["c"; "b"; "a"]%string DemoShuffle.legacy_three_paths,
           (11960119808228829710 : @Src Demo.source)) /\
   fst (draws (R := Demo.source) 3 0 (1 : @Src Demo.source)) = [0; 1; 0]%nat).
Proof.
  split; [exact Demo_Intn_in_range|].
  destruct (@shuffle_is_permutation Demo.source Demo.docker DemoShuffle.three_paths
              DemoShuffle.legacy_three_paths (1 : @Src Demo.source)
              Demo_Intn_in_range)
    as [(H1 & _ & _ & H4 & _) (H5 & _)].
  cbn [DemoShuffle.three_paths allGeneratedFiles set_files length] in H1, H4.
  cbn [DemoShuffle.legacy_three_paths Legacy.allGeneratedFiles length] in H5.
  rewrite DemoShuffle_three_draws in H1, H4. rewrite DemoShuffle_legacy_three_draws in H5.
  split; [split; [exact H1|split; [rewrite DemoShuffle_three_draws; reflexivity|
                                   split; [reflexivity|exact H4]]]|].
  split; [exact H5|rewrite DemoShuffle_legacy_three_draws; reflexivity].
Defined.

(** ** The file system calls *)
Section FileSystemFacts.
Variable env : oracle.

Lemma writes_log_read c p r fs :
  is_write_call c = false -> writes (log c p r fs) = writes fs.
Proof. intros H. unfold writes, log. simpl. rewrite H. reflexivity. Qed.

Lemma writes_log_write c p r fs :
  is_write_call c = true ->
  writes (log c p r fs) = {| ev_call := c; ev_path := p; ev_err := r |} :: writes fs.
Proof. intros H. unfold writes, log. simpl. rewrite H. reflexivity. Qed.

Lemma IsNotExist_fault op p x :
  IsNotExist (PathError op p (Errno (errno_of_fault x))) = false.
Proof. destruct x; reflexivity. Qed.

Lemma Stat_spec p fs r fs' :
  Stat env p fs = (r, fs') ->
  files fs' = files fs /\ dirs fs' = dirs fs /\ writes fs' = writes fs /\
  match r with
  | inl info => exists_at p fs /\
                (forall nd, files fs !! p = Some nd -> Size info = len (data nd))
  | inr err => exists op e, err = PathError op p (Errno e) /\
               (IsNotExist err = true -> files fs !! p = None /\ p ∉ dirs fs)
  end.
Proof.
  unfold Stat. destruct (env (clock fs) SysStat p) as [x|].
  - intros [= <- <-]. repeat split. eexists _, _. split; [reflexivity|].
    rewrite IsNotExist_fault. discriminate.
  - destruct (files fs !! p) as [nd|] eqn:E.
    + intros [= <- <-]. repeat split.
      * left. eauto.
      * intros nd' [= <-]. reflexivity.
    + destruct (decide (p ∈ dirs fs)).
      * intros [= <- <-]. repeat split; [right; assumption|discriminate].
      * intros [= <- <-]. repeat split. eexists _, _. split; [reflexivity|].
        intros _. split; [reflexivity|assumption].
Qed.

Lemma MkdirAll_spec p fs r fs' :
  MkdirAll env p fs = (r, fs') ->
  files fs' = files fs /\ writes fs' = writes fs /\
  match r with
  | None => dirs fs' = {[p]} ∪ dirs fs
  | Some err => dirs fs' = dirs fs /\ exists e, err = PathError "mkdir" p (Errno e)
  end.
Proof.
  unfold MkdirAll. destruct (env (clock fs) SysMkdirAll p) as [x|].
  - intros [= <- <-]. repeat split. eauto.
  - destruct (files fs !! p).
    + intros [= <- <-]. repeat split. eauto.
    + intros [= <- <-]. repeat split.
Qed.

Lemma open_trunc_spec p fs r fs' :
  open_trunc env p fs = (r, fs') ->
  dirs fs' = dirs fs /\
  (forall q, q <> p -> files fs' !! q = files fs !! q) /\
  (exists e, writes fs' = e :: writes fs /\ ev_path e = p) /\
  match r with
  | None => exists t, files fs' !! p = Some {| data := []; mtime := t |}
  | Some err => files fs' = files fs /\ exists e, err = PathError "open" p (Errno e)
  end.
Proof.
  unfold open_trunc. destruct (env (clock fs) SysCreate p) as [x|].
  - intros [= <- <-]. repeat split; eauto.
  - destruct (decide (p ∈ dirs fs)).
    + intros [= <- <-]. repeat split; eauto.
    + intros [= <- <-]. simpl. repeat split.
      * intros q Hq. rewrite lookup_insert_ne by congruence. reflexivity.
      * eexists. split; [apply writes_log_write; reflexivity|reflexivity].
      * eexists. apply lookup_insert_eq.
Qed.

Lemma write_bytes_spec p bs fs r fs' :
  write_bytes env p bs fs = (r, fs') ->
  dirs fs' = dirs fs /\
  (forall q, q <> p -> files fs' !! q = files fs !! q) /\
  (exists e, writes fs' = e :: writes fs /\ ev_path e = p) /\
  match r with
  | None => exists t, files fs' !! p =
                      Some {| data := match files fs !! p with
                                      | Some nd => data nd
                                      | None => []
                                      end ++ bs; mtime := t |}
  | Some err => files fs' = files fs /\ exists e, err = PathError "write" p (Errno e)
  end.
Proof.
  unfold write_bytes. destruct (env (clock fs) SysWrite p) as [x|].
  - intros [= <- <-]. repeat split; eauto.
  - intros [= <- <-]. simpl. repeat split.
    + intros q Hq. rewrite lookup_insert_ne by congruence. reflexivity.
    + eexists. split; [apply writes_log_write; reflexivity|reflexivity].
    + eexists. apply lookup_insert_eq.
Qed.

Lemma WriteFile_spec p bs fs r fs' :
  WriteFile env p bs fs = (r, fs') ->
  dirs fs' = dirs fs /\
  (forall q, q <> p -> files fs' !! q = files fs !! q) /\
  (exists new, new_writes fs fs' new /\ Forall (fun e => ev_path e = p) new) /\
  match r with
  | None => exists t, files fs' !! p = Some {| data := bs; mtime := t |}
  | Some err => exists op e, err = PathError op p (Errno e)
  end.
Proof.
  unfold WriteFile. destruct (open_trunc env p fs) as [[err|] fs1] eqn:E1.
  - intros [= <- <-]. apply open_trunc_spec in E1.
    destruct E1 as (Hd & Hf & (e & Hw & He) & Hsame & e' & ->).
    repeat split; [exact Hd|exact Hf| |eauto].
    exists [e]. split; [exact Hw|]. constructor; [exact He|constructor].
  - intros E2. apply open_trunc_spec in E1. apply write_bytes_spec in E2.
    destruct E1 as (Hd1 & Hf1 & (e1 & Hw1 & He1) & (t1 & Hp1)).
    destruct E2 as (Hd2 & Hf2 & (e2 & Hw2 & He2) & Hr).
    repeat split.
    + congruence.
    + intros q Hq. rewrite Hf2, Hf1 by assumption. reflexivity.
    + exists [e2; e1]. split; [unfold new_writes; rewrite Hw2, Hw1; reflexivity|].
      repeat constructor; assumption.
    + destruct r as [err|].
      * destruct Hr as (_ & e & ->). eauto.
      * destruct Hr as (t & Hp). rewrite Hp1 in Hp. simpl in Hp. eauto.
Qed.
End FileSystemFacts.

(** ** The file pool *)
Section PoolFacts.
Context {R : RandSource}.
Variable env : oracle.
Variable F : Type.
Variable record : string -> F -> F.
Variable gen : nat -> Z -> F -> outcome (list byte * F).

(** What the loop leaves: files that were there are untouched, the
    directories are the same, and every write went to a path that held
    nothing. *)
Lemma pool_loop_preserves (todo : nat) :
  forall fuel dir size i f fs r f' fs',
    pool_loop env F record gen fuel dir size todo i f fs = Done (r, f', fs') ->
    (forall q nd, files fs !! q = Some nd -> files fs' !! q = Some nd) /\
    dirs fs' = dirs fs /\
    exists new, new_writes fs fs' new /\
                Forall (fun e => files fs !! ev_path e = None /\ ev_path e ∉ dirs fs) new.
Proof.
  induction todo as [|todo IH]; intros fuel dir size i f fs r f' fs' Hrun; simpl in Hrun.
  - injection Hrun as <- <- <-. repeat split; [auto|].
    exists []. split; [reflexivity|constructor].
  - destruct (Stat env (filePath dir size i) fs) as [[info|err] fs1] eqn:ES;
      apply Stat_spec in ES; destruct ES as (Hf1 & Hd1 & Hw1 & Hres).
    + apply IH in Hrun. destruct Hrun as (Hpres & Hd & new & Hnew & Hall).
      rewrite Hf1 in Hpres. rewrite Hd1 in Hd. repeat split; [exact Hpres|exact Hd|].
      exists new. unfold new_writes in *. rewrite Hw1 in Hnew. split; [exact Hnew|].
      rewrite Hf1, Hd1 in Hall. exact Hall.
    + destruct (IsNotExist err) eqn:EN; simpl in Hrun.
      * destruct Hres as (op & e & -> & Hnone). destruct (Hnone eq_refl) as [Hnofile Hnodir].
        destruct (gen fuel _ (record (filePath dir size i) f)) as [[bs f2]| |];
          try discriminate.
        destruct (WriteFile env (filePath dir size i) bs fs1) as [[err'|] fs2] eqn:EW;
          apply WriteFile_spec in EW;
          destruct EW as (Hd2 & Hf2 & (new2 & Hnew2 & Hall2) & Hr2).
        -- injection Hrun as <- <- <-. repeat split.
           ++ intros q nd Hq. rewrite Hf2; [rewrite Hf1; exact Hq|]. congruence.
           ++ congruence.
           ++ exists new2. unfold new_writes in *. rewrite Hnew2, Hw1.
              split; [reflexivity|].
              eapply Forall_impl; [exact Hall2|]. intros ev ->. split; assumption.
        -- apply IH in Hrun. destruct Hrun as (Hpres & Hd & new & Hnew & Hall).
           assert (Hgrow : forall q nd, files fs !! q = Some nd -> files fs2 !! q = Some nd).
           { intros q nd Hq. rewrite Hf2; [rewrite Hf1; exact Hq|]. congruence. }
           repeat split.
           ++ intros q nd Hq. apply Hpres, Hgrow, Hq.
           ++ congruence.
           ++ exists (new ++ new2). unfold new_writes in *.
              rewrite Hnew, Hnew2, Hw1, app_assoc. split; [reflexivity|].
              apply Forall_app. split.
              ** eapply Forall_impl; [exact Hall|]. intros ev [Hn1 Hn2]. split.
                 --- destruct (files fs !! ev_path ev) as [nd|] eqn:Eq; [|reflexivity].
                     apply Hgrow in Eq. congruence.
                 --- rewrite Hd2, Hd1 in Hn2. exact Hn2.
              ** eapply Forall_impl; [exact Hall2|]. intros ev ->. split; assumption.
      * injection Hrun as <- <- <-. rewrite Hf1, Hd1. repeat split; [auto|].
        exists []. unfold new_writes. rewrite Hw1. split; [reflexivity|constructor].
Qed.

(** After a loop that returned no error every path of the pool is there. *)
Lemma pool_loop_all_exist (todo : nat) :
  forall fuel dir size i f fs f' fs',
    pool_loop env F record gen fuel dir size todo i f fs = Done (None, f', fs') ->
    forall k, (k < todo)%nat -> exists_at (filePath dir size (i + N.of_nat k)) fs'.
Proof.
  induction todo as [|todo IH]; intros fuel dir size i f fs f' fs' Hrun k Hk; [lia|].
  simpl in Hrun.
  destruct (Stat env (filePath dir size i) fs) as [[info|err] fs1] eqn:ES;
    apply Stat_spec in ES; destruct ES as (Hf1 & Hd1 & Hw1 & Hres).
  - destruct k as [|k].
    + rewrite N.add_0_r. destruct Hres as [[[nd Hnd]|Hdir] _].
      * apply pool_loop_preserves in Hrun. destruct Hrun as (Hpres & _).
        left. exists nd. apply Hpres. rewrite Hf1. exact Hnd.
      * apply pool_loop_preserves in Hrun. destruct Hrun as (_ & Hd & _).
        right. rewrite Hd, Hd1. exact Hdir.
    + replace (i + N.of_nat (S k))%N with (i + 1 + N.of_nat k)%N by lia.
      eapply IH; [exact Hrun|lia].
  - destruct (IsNotExist err) eqn:EN; simpl in Hrun; [|discriminate].
    destruct (gen fuel _ (record (filePath dir size i) f)) as [[bs f2]| |];
      try discriminate.
    destruct (WriteFile env (filePath dir size i) bs fs1) as [[err'|] fs2] eqn:EW;
      [discriminate|].
    apply WriteFile_spec in EW. destruct EW as (_ & _ & _ & (t & Hp)).
    destruct k as [|k].
    + rewrite N.add_0_r. apply pool_loop_preserves in Hrun. destruct Hrun as (Hpres & _).
      left. eexists. apply Hpres. exact Hp.
    + replace (i + N.of_nat (S k))%N with (i + 1 + N.of_nat k)%N by lia.
      eapply IH; [exact Hrun|lia].
Qed.

(** When every path of the pool is there, the loop returns without a write
    and without a request for random bytes, whatever the fuel. *)
Lemma pool_loop_all_skipped (todo : nat) :
  forall fuel dir size i f fs,
    (forall k, (k < todo)%nat -> exists_at (filePath dir size (i + N.of_nat k)) fs) ->
    exists r f' fs',
      pool_loop env F record gen fuel dir size todo i f fs = Done (r, f', fs') /\
      files fs' = files fs /\ dirs fs' = dirs fs /\ writes fs' = writes fs.
Proof.
  induction todo as [|todo IH]; intros fuel dir size i f fs Hall; simpl.
  - eexists _, _, _. repeat split.
  - destruct (Stat env (filePath dir size i) fs) as [[info|err] fs1] eqn:ES;
      apply Stat_spec in ES; destruct ES as (Hf1 & Hd1 & Hw1 & Hres).
    + destruct (IH fuel dir size (i + 1)%N (record (filePath dir size i) f) fs1)
        as (r & f' & fs' & Hrun & Hf & Hd & Hw).
      { intros k Hk. specialize (Hall (S k) ltac:(lia)).
        replace (i + N.of_nat (S k))%N with (i + 1 + N.of_nat k)%N in Hall by lia.
        unfold exists_at in *. rewrite Hf1, Hd1. exact Hall. }
      exists r, f', fs'. split; [exact Hrun|]. repeat split; congruence.
    + destruct (IsNotExist err) eqn:EN; simpl.
      * exfalso. destruct Hres as (op & e & -> & Hnone).
        destruct (Hnone eq_refl) as [Hnofile Hnodir].
        specialize (Hall 0%nat ltac:(lia)). rewrite N.add_0_r in Hall.
        destruct Hall as [[nd Hnd]|Hdir]; [congruence|contradiction].
      * eexists _, _, _. split; [reflexivity|]. repeat split; assumption.
Qed.
End PoolFacts.

Section PoolCallFacts.
Context {R : RandSource}.

Lemma pool_preserves env F record gen fuel dir size count f fs r f' fs' :
  pool env F record gen fuel dir size count f fs = Done (r, f', fs') ->
  (forall q nd, files fs !! q = Some nd -> files fs' !! q = Some nd) /\
  exists new, new_writes fs fs' new /\
              Forall (fun e => files fs !! ev_path e = None /\ ev_path e ∉ dirs fs) new.
Proof.
  unfold pool. destruct (MkdirAll env dir fs) as [[err|] fs0] eqn:EM;
    apply MkdirAll_spec in EM; destruct EM as (Hf0 & Hw0 & Hd0).
  - intros [= <- <- <-]. rewrite Hf0. split; [auto|].
    exists []. unfold new_writes. rewrite Hw0. split; [reflexivity|constructor].
  - intros Hrun. apply pool_loop_preserves in Hrun.
    destruct Hrun as (Hpres & Hd & new & Hnew & Hall).
    rewrite Hf0 in Hpres. split; [exact Hpres|].
    exists new. unfold new_writes in *. rewrite Hw0 in Hnew. split; [exact Hnew|].
    eapply Forall_impl; [exact Hall|]. intros e [H1 H2]. rewrite Hf0 in H1.
    split; [exact H1|]. rewrite Hd0 in H2. intros Hin. apply H2.
    apply elem_of_union. right. exact Hin.
Qed.

Lemma pool_rerun env F record gen fuel dir size count f fs f1 fs1 :
  pool env F record gen fuel dir size count f fs = Done (None, f1, fs1) ->
  forall env2 (F2 : Type) record2 gen2 fuel2 (f2 : F2),
  exists r2 f2' fs2,
    pool env2 F2 record2 gen2 fuel2 dir size count f2 fs1 = Done (r2, f2', fs2) /\
    files fs2 = files fs1 /\ dirs fs2 = dirs fs1 /\ writes fs2 = writes fs1.
Proof.
  unfold pool. destruct (MkdirAll env dir fs) as [[err|] fs0] eqn:EM; [discriminate|].
  apply MkdirAll_spec in EM. destruct EM as (Hf0 & Hw0 & Hd0).
  intros Hrun env2 F2 record2 gen2 fuel2 f2.
  pose proof (pool_loop_all_exist _ _ _ _ _ _ _ _ _ _ _ _ _ Hrun) as Hall.
  apply pool_loop_preserves in Hrun. destruct Hrun as (_ & Hd & _).
  assert (Hdir : dir ∈ dirs fs1).
  { rewrite Hd, Hd0. apply elem_of_union. left. apply elem_of_singleton. reflexivity. }
  destruct (MkdirAll env2 dir fs1) as [[err|] fs2] eqn:EM2;
    apply MkdirAll_spec in EM2; destruct EM2 as (Hf2 & Hw2 & Hd2).
  - eexists _, _, _. split; [reflexivity|]. destruct Hd2 as [Hd2 _]. auto.
  - assert (Hd2' : dirs fs2 = dirs fs1).
    { rewrite Hd2. apply subseteq_union_1_L. apply singleton_subseteq_l. exact Hdir. }
    destruct (pool_loop_all_skipped env2 F2 record2 gen2 (N.to_nat count)
                fuel2 dir size 0%N f2 fs2) as (r & f' & fs' & Hrun' & Hf & Hd' & Hw).
    { intros k Hk. specialize (Hall k Hk). unfold exists_at in *.
      rewrite Hf2, Hd2'. exact Hall. }
    exists r, f', fs'. split; [exact Hrun'|]. repeat split; congruence.
Qed.
End PoolCallFacts.

(** C6: generating the pool skips what is there and is idempotent.  In both
    variants, whatever the outcome of a call: the files that existed keep
    their bytes and their modification time, and every write of the call went
    to a path where [os.Stat] found nothing.  After a call that returned no
    error, a second call for the same directory, size and count (on any
    factory of that directory, with any environment and fuel) returns having
    written nothing: files, modification times and directories are the
    same, and the list of write calls has not grown. *)
Theorem generateRandomFilePool_idempotent `{R : RandSource} `{D : Docker} :
  (forall env fuel size count (f : RandomImageFactory) fs r f1 fs1,
      generateRandomFilePool env fuel size count f fs = Done (r, f1, fs1) ->
      (forall q nd, files fs !! q = Some nd -> files fs1 !! q = Some nd) /\
      (exists new, new_writes fs fs1 new /\
                   Forall (fun e => files fs !! ev_path e = None /\ ev_path e ∉ dirs fs) new) /\
      (r = None ->
       forall env2 fuel2 (f2 : RandomImageFactory),
         imageDir f2 = imageDir f ->
         exists r2 f2' fs2,
           generateRandomFilePool env2 fuel2 size count f2 fs1 = Done (r2, f2', fs2) /\
           files fs2 = files fs1 /\ dirs fs2 = dirs fs1 /\ writes fs2 = writes fs1)) /\
  (forall env fuel (lf : Legacy.RandomImageFactory) fs r lf1 fs1,
      Legacy.generateRandomFilePool env fuel lf fs = Done (r, lf1, fs1) ->
      (forall q nd, files fs !! q = Some nd -> files fs1 !! q = Some nd) /\
      (exists new, new_writes fs fs1 new /\
                   Forall (fun e => files fs !! ev_path e = None /\ ev_path e ∉ dirs fs) new) /\
      (r = None ->
       forall env2 fuel2 (lf2 : Legacy.RandomImageFactory),
         Legacy.LayerSizeKB lf2 = Legacy.LayerSizeKB lf ->
         Legacy.LayerCount lf2 = Legacy.LayerCount lf ->
         exists r2 lf2' fs2,
           Legacy.generateRandomFilePool env2 fuel2 lf2 fs1 = Done (r2, lf2', fs2) /\
           files fs2 = files fs1 /\ dirs fs2 = dirs fs1 /\ writes fs2 = writes fs1)).
Proof.
  split.
  - intros env fuel size count f fs r f1 fs1 Hrun. unfold generateRandomFilePool in *.
    pose proof (pool_preserves _ _ _ _ _ _ _ _ _ _ _ _ _ Hrun) as [Hpres Hnew].
    split; [exact Hpres|]. split; [exact Hnew|].
    intros -> env2 fuel2 f2 Hdir. rewrite Hdir.
    eapply pool_rerun. exact Hrun.
  - intros env fuel lf fs r lf1 fs1 Hrun. unfold Legacy.generateRandomFilePool in *.
    pose proof (pool_preserves _ _ _ _ _ _ _ _ _ _ _ _ _ Hrun) as [Hpres Hnew].
    split; [exact Hpres|]. split; [exact Hnew|].
    intros -> env2 fuel2 lf2 Hsize Hcount. rewrite Hsize, Hcount.
    eapply pool_rerun. exact Hrun.
Qed.

Lemma DemoRuns_pool_run_eq :
  DemoRuns.pool_run = Done (None, DemoRuns.pool_factory_after, DemoRuns.pool_fs_after).
Proof.
  vm_cast_no_check
    (@eq_refl _ (@Done (option error * @RandomImageFactory Demo.source Demo.docker * FS)
                       (None, DemoRuns.pool_factory_after, DemoRuns.pool_fs_after))).
Qed.

Lemma generateRandomFilePool_idempotent_witness :
  generateRandomFilePool Demo.calm 2000 1 3 DemoRuns.pool_factory Demo.empty_fs
  = Done (None, DemoRuns.pool_factory_after, DemoRuns.pool_fs_after) /\
  ((forall q nd, files Demo.empty_fs !! q = Some nd ->
                 files DemoRuns.pool_fs_after !! q = Some nd) /\
   (exists new, new_writes Demo.empty_fs DemoRuns.pool_fs_after new /\
                Forall (fun e => files Demo.empty_fs !! ev_path e = None /\
                                 ev_path e ∉ dirs Demo.empty_fs) new) /\
   (@None error = None ->
    forall env2 fuel2 (f2 : RandomImageFactory),
      imageDir f2 = imageDir DemoRuns.pool_factory ->
      exists r2 f2' fs2,
        generateRandomFilePool (R := Demo.source) (D := Demo.docker)
                               env2 fuel2 1 3 f2 DemoRuns.pool_fs_after
        = Done (r2, f2', fs2) /\
        files fs2 = files DemoRuns.pool_fs_after /\
        dirs fs2 = dirs DemoRuns.pool_fs_after /\
        writes fs2 = writes DemoRuns.pool_fs_after)).
Proof.
  split; [exact DemoRuns_pool_run_eq|].
  exact (proj1 (@generateRandomFilePool_idempotent Demo.source Demo.docker)
               Demo.calm 2000%nat 1%N 3%N DemoRuns.pool_factory Demo.empty_fs None
               DemoRuns.pool_factory_after DemoRuns.pool_fs_after DemoRuns_pool_run_eq).
Defined.

(** ** Termination of the pool, and where the bytes of a new file come from *)
Section PoolRuns.
Context {R : RandSource}.
Variable env : oracle.
Variable F : Type.
Variable record : string -> F -> F.
Variable gen : nat -> Z -> F -> outcome (list byte * F).

(** [gen] returns or panics once it has enough fuel. *)
Hypothesis gen_total :
  forall n f, exists fuel0 o,
      o <> OutOfFuel /\ forall fuel, (fuel0 <= fuel)%nat -> gen fuel n f = o.

Lemma pool_loop_total (todo : nat) :
  forall dir size i f fs,
  exists fuel0 o,
    o <> OutOfFuel /\
    forall fuel, (fuel0 <= fuel)%nat ->
                 pool_loop env F record gen fuel dir size todo i f fs = o.
Proof.
  induction todo as [|todo IH]; intros dir size i f fs; simpl.
  - exists 0%nat. eexists. split; [|reflexivity]. discriminate.
  - destruct (Stat env (filePath dir size i) fs) as [[info|err] fs1].
    + apply IH.
    + destruct (negb (IsNotExist err)).
      * exists 0%nat. eexists. split; [|reflexivity]. discriminate.
      * destruct (gen_total (wrap64 (1024 * int_of_uint size))
                            (record (filePath dir size i) f))
          as (fuel1 & o1 & Ho1 & Hgen).
        destruct o1 as [[bs f2]|m|]; [| |congruence].
        -- destruct (WriteFile env (filePath dir size i) bs fs1) as [[err'|] fs2] eqn:EW.
           ++ exists fuel1. eexists. split; [|intros fuel Hf; rewrite (Hgen fuel Hf), EW;
                                               reflexivity]. discriminate.
           ++ destruct (IH dir size (i + 1)%N f2 fs2) as (fuel2 & o & Ho & Hrun).
              exists (Nat.max fuel1 fuel2), o. split; [exact Ho|].
              intros fuel Hf. rewrite (Hgen fuel) by lia. rewrite EW. apply Hrun. lia.
        -- exists fuel1. eexists. split; [|intros fuel Hf; rewrite (Hgen fuel Hf);
                                            reflexivity]. discriminate.
Qed.

Lemma pool_total dir size count f fs :
  exists fuel0 o,
    o <> OutOfFuel /\
    forall fuel, (fuel0 <= fuel)%nat ->
                 pool env F record gen fuel dir size count f fs = o.
Proof.
  unfold pool. destruct (MkdirAll env dir fs) as [[err|] fs1].
  - exists 0%nat. eexists. split; [|reflexivity]. discriminate.
  - apply pool_loop_total.
Qed.
End PoolRuns.

Section PoolNewFiles.
Context {R : RandSource}.
Variable env : oracle.
Variable F : Type.
Variable record : string -> F -> F.
Variable gen : nat -> Z -> F -> outcome (list byte * F).
Variable I : F -> Prop.
Hypothesis I_record : forall p f, I f -> I (record p f).
Hypothesis I_gen : forall fuel n f b f', I f -> gen fuel n f = Done (b, f') -> I f'.

(** A file that a successful loop created holds what one call of [gen]
    returned. *)
Lemma pool_loop_new_files (todo : nat) :
  forall fuel dir size i f fs f' fs',
    I f ->
    pool_loop env F record gen fuel dir size todo i f fs = Done (None, f', fs') ->
    forall q nd,
      files fs !! q = None -> files fs' !! q = Some nd ->
      exists f0 f0',
        I f0 /\ gen fuel (wrap64 (1024 * int_of_uint size)) f0 = Done (data nd, f0').
Proof.
  induction todo as [|todo IH]; intros fuel dir size i f fs f' fs' Hf Hrun q nd Hq Hq';
    simpl in Hrun.
  - injection Hrun as <- <-. congruence.
  - destruct (Stat env (filePath dir size i) fs) as [[info|err] fs1] eqn:ES;
      apply Stat_spec in ES; destruct ES as (Hf1 & Hd1 & Hw1 & Hres).
    + eapply IH; [|exact Hrun| |exact Hq'].
      * apply I_record, Hf.
      * rewrite Hf1. exact Hq.
    + destruct (IsNotExist err) eqn:EN; simpl in Hrun; [|discriminate].
      destruct (gen fuel _ (record (filePath dir size i) f)) as [[bs f2]| |] eqn:EG;
        try discriminate.
      destruct (WriteFile env (filePath dir size i) bs fs1) as [[err'|] fs2] eqn:EW;
        [discriminate|].
      apply WriteFile_spec in EW. destruct EW as (_ & Hf2 & _ & (t & Hp)).
      destruct (decide (q = filePath dir size i)) as [->|Hne].
      * pose proof (pool_loop_preserves _ _ _ _ _ _ _ _ _ _ _ _ _ _ Hrun) as (Hpres & _).
        apply Hpres in Hp. rewrite Hp in Hq'. injection Hq' as <-. simpl.
        exists (record (filePath dir size i) f), f2. split; [apply I_record, Hf|exact EG].
      * eapply IH; [|exact Hrun| |exact Hq'].
        -- eapply I_gen; [apply I_record, Hf|exact EG].
        -- rewrite Hf2, Hf1 by assumption. exact Hq.
Qed.

Lemma pool_new_files fuel dir size count f fs f' fs' :
  I f ->
  pool env F record gen fuel dir size count f fs = Done (None, f', fs') ->
  forall q nd,
    files fs !! q = None -> files fs' !! q = Some nd ->
    exists f0 f0',
      I f0 /\ gen fuel (wrap64 (1024 * int_of_uint size)) f0 = Done (data nd, f0').
Proof.
  unfold pool. intros Hf.
  destruct (MkdirAll env dir fs) as [[err|] fs1] eqn:EM; [discriminate|].
  apply MkdirAll_spec in EM. destruct EM as (Hf1 & _).
  intros Hrun q nd Hq Hq'.
  eapply pool_loop_new_files; [exact Hf|exact Hrun| |exact Hq'].
  rewrite Hf1. exact Hq.
Qed.
End PoolNewFiles.

Section GeneratorTotal.
Context {R : RandSource} {D : Docker}.
Hypothesis Hprod : productive.

Lemma randBytes_from_total n s :
  exists fuel0 o,
    o <> OutOfFuel /\ forall fuel, (fuel0 <= fuel)%nat -> randBytes_from fuel n s = o.
Proof.
  destruct (Z.ltb_spec n 0) as [Hn|Hn].
  - exists 0%nat. eexists. split; [|intros fuel _; unfold randBytes_from].
    2: { replace (n <? 0) with true by (symmetry; apply Z.ltb_lt; lia). reflexivity. }
    discriminate.
  - destruct (randBytes_from_terminates Hprod n s Hn) as (fuel0 & b & s' & H).
    exists fuel0, (Done (b, s')). split; [discriminate|].
    intros fuel Hf. eapply randBytes_from_fuel_mono; eassumption.
Qed.

Lemma randBytes_total n (f : RandomImageFactory) :
  exists fuel0 o,
    o <> OutOfFuel /\ forall fuel, (fuel0 <= fuel)%nat -> randBytes fuel n f = o.
Proof.
  destruct (randBytes_from_total n (src f)) as (fuel0 & o & Ho & H).
  exists fuel0. unfold randBytes.
  destruct o as [[b s]|m|]; [| |congruence].
  - exists (Done (b, set_src s f)). split; [discriminate|].
    intros fuel Hf. rewrite (H fuel Hf). reflexivity.
  - exists (Panic m). split; [discriminate|].
    intros fuel Hf. rewrite (H fuel Hf). reflexivity.
Qed.

Lemma Legacy_randBytes_total n (lf : Legacy.RandomImageFactory) :
  exists fuel0 o,
    o <> OutOfFuel /\ forall fuel, (fuel0 <= fuel)%nat -> Legacy.randBytes fuel n lf = o.
Proof.
  destruct (randBytes_from_total n (NewSource (Legacy.Seed lf))) as (fuel0 & o & Ho & H).
  exists fuel0. unfold Legacy.randBytes.
  destruct o as [[b s]|m|]; [| |congruence].
  - exists (Done (b, lf)). split; [discriminate|].
    intros fuel Hf. rewrite (H fuel Hf). reflexivity.
  - exists (Panic m). split; [discriminate|].
    intros fuel Hf. rewrite (H fuel Hf). reflexivity.
Qed.
End GeneratorTotal.

(** C10: in the struct-field variant [randBytes] seeds a fresh source from
    [Seed] at every call and leaves the factory as it was.  Hence two calls
    in a row for the same length return the same slice; the pool returns
    (or panics) when given enough fuel; and after a pool that returned no
    error all the files it created hold the same bytes [b], the ones
    [randBytes] returns for [1024 * LayerSizeKB]. *)
Theorem legacy_randBytes_repeats `{R : RandSource} `{D : Docker}
        (env : oracle) (lf : Legacy.RandomImageFactory) (fs : FS) :
  productive ->
  (forall fuel1 fuel2 n b1 b2 lf1 lf2,
      Legacy.randBytes fuel1 n lf = Done (b1, lf1) ->
      Legacy.randBytes fuel2 n lf1 = Done (b2, lf2) ->
      b1 = b2 /\ lf1 = lf /\ lf2 = lf) /\
  (exists fuel0 o,
      o <> OutOfFuel /\
      forall fuel, (fuel0 <= fuel)%nat -> Legacy.generateRandomFilePool env fuel lf fs = o) /\
  (forall fuel lf1 fs1,
      Legacy.generateRandomFilePool env fuel lf fs = Done (None, lf1, fs1) ->
      exists b : list byte,
        (forall q nd, files fs !! q = None -> files fs1 !! q = Some nd -> data nd = b) /\
        (forall fuel' b' lf',
            Legacy.randBytes fuel' (wrap64 (1024 * int_of_uint (Legacy.LayerSizeKB lf))) lf
            = Done (b', lf') -> b' = b)).
Proof.
  intros Hprod. split; [|split].
  - intros fuel1 fuel2 n b1 b2 lf1 lf2 H1 H2. unfold Legacy.randBytes in *.
    destruct (randBytes_from fuel1 n _) as [[x1 s1]| |] eqn:E1; try discriminate.
    injection H1 as <- <-.
    destruct (randBytes_from fuel2 n _) as [[x2 s2]| |] eqn:E2; try discriminate.
    injection H2 as <- <-.
    pose proof (randBytes_from_fuel_indep _ _ _ _ _ _ E1 E2) as Heq.
    split; [congruence|split; reflexivity].
  - unfold Legacy.generateRandomFilePool. apply pool_total.
    intros n f. apply Legacy_randBytes_total, Hprod.
  - intros fuel lf1 fs1 Hrun. unfold Legacy.generateRandomFilePool in Hrun.
    set (n := wrap64 (1024 * int_of_uint (Legacy.LayerSizeKB lf))) in *.
    assert (Hfiles : forall q nd, files fs !! q = None -> files fs1 !! q = Some nd ->
                     exists fuel0 s0, randBytes_from fuel0 n (NewSource (Legacy.Seed lf))
                                      = Done (data nd, s0)).
    { intros q nd Hq Hq'.
      assert (HIg : forall fuel0 n0 (f0 : Legacy.RandomImageFactory) b0 f0',
                 Legacy.Seed f0 = Legacy.Seed lf ->
                 Legacy.randBytes fuel0 n0 f0 = Done (b0, f0') ->
                 Legacy.Seed f0' = Legacy.Seed lf).
      { intros fuel0 n0 f0 b0 f0' H0 Hg. unfold Legacy.randBytes in Hg.
        destruct (randBytes_from fuel0 n0 _) as [[x s]| |]; try discriminate.
        injection Hg as <- <-. exact H0. }
      destruct (pool_new_files env Legacy.RandomImageFactory
                  (fun p f => Legacy.set_files (Legacy.allGeneratedFiles f ++ [p]) f)
                  Legacy.randBytes (fun f0 => Legacy.Seed f0 = Legacy.Seed lf)
                  (fun p f0 H0 => H0) HIg
                  _ _ _ _ _ _ _ _ eq_refl Hrun q nd Hq Hq') as (f0 & f0' & Hseed & Hg).
      fold n in Hg.
      unfold Legacy.randBytes in Hg. rewrite Hseed in Hg.
      destruct (randBytes_from fuel n _) as [[x s]| |] eqn:E; try discriminate.
      injection Hg as -> _. eauto. }
    destruct (Z.ltb_spec n 0) as [Hn|Hn].
    + exists []. split.
      * intros q nd Hq Hq'. destruct (Hfiles q nd Hq Hq') as (fuel0 & s0 & H0).
        unfold randBytes_from in H0.
        replace (n <? 0) with true in H0 by (symmetry; apply Z.ltb_lt; lia). discriminate.
      * intros fuel' b' lf' H. unfold Legacy.randBytes, randBytes_from in H.
        replace (n <? 0) with true in H by (symmetry; apply Z.ltb_lt; lia). discriminate.
    + destruct (randBytes_from_terminates Hprod n (NewSource (Legacy.Seed lf)) Hn)
        as (fuelb & b & sb & Hb).
      exists b. split.
      * intros q nd Hq Hq'. destruct (Hfiles q nd Hq Hq') as (fuel0 & s0 & H0).
        pose proof (randBytes_from_fuel_indep _ _ _ _ _ _ H0 Hb) as Heq. congruence.
      * intros fuel' b' lf' H. unfold Legacy.randBytes in H.
        destruct (randBytes_from fuel' n _) as [[x s]| |] eqn:E; try discriminate.
        injection H as <- <-.
        pose proof (randBytes_from_fuel_indep _ _ _ _ _ _ E Hb) as Heq. congruence.
Qed.

Lemma legacy_randBytes_repeats_witness :
  productive (R := Demo.source) /\
  ((forall fuel1 fuel2 n b1 b2 lf1 lf2,
       Legacy.randBytes (R := Demo.source) fuel1 n DemoBuild.legacy_factory = Done (b1, lf1) ->
       Legacy.randBytes (R := Demo.source) fuel2 n lf1 = Done (b2, lf2) ->
       b1 = b2 /\ lf1 = DemoBuild.legacy_factory /\ lf2 = DemoBuild.legacy_factory) /\
   (exists fuel0 o,
       o <> OutOfFuel /\
       forall fuel, (fuel0 <= fuel)%nat ->
                    Legacy.generateRandomFilePool (R := Demo.source) Demo.calm fuel
                                                  DemoBuild.legacy_factory Demo.empty_fs = o) /\
   (forall fuel lf1 fs1,
       Legacy.generateRandomFilePool (R := Demo.source) Demo.calm fuel
                                     DemoBuild.legacy_factory Demo.empty_fs
       = Done (None, lf1, fs1) ->
       exists b : list byte,
         (forall q nd, files Demo.empty_fs !! q = None -> files fs1 !! q = Some nd ->
                       data nd = b) /\
         (forall fuel' b' lf',
             Legacy.randBytes (R := Demo.source) fuel'
               (wrap64 (1024 * int_of_uint (Legacy.LayerSizeKB DemoBuild.legacy_factory)))
               DemoBuild.legacy_factory
             = Done (b', lf') -> b' = b))).
Proof.
  split; [exact Demo_source_productive|].
  exact (@legacy_randBytes_repeats Demo.source Demo.docker Demo.calm
           DemoBuild.legacy_factory Demo.empty_fs Demo_source_productive).
Defined.

(** C3, on the struct-field variant: with the build command's seed, layer
    size 1 and layer count 2 in an empty directory, the pool returns no error
    and the two files hold the same bytes, the first 1024 of the seed's
    stream: the generator was started again for file 1.  For the same seed
    and source the variant that owns its source writes those 1024 bytes to
    file 0 and the 1024 that follow to file 1, and the two differ. *)
Theorem legacy_pool_restarts_stream :
  Legacy.generateRandomFilePool (R := Demo.source) Demo.calm 2000
                                DemoBuild.legacy_factory Demo.empty_fs
  = Done (None, DemoBuild.legacy_factory_after, DemoBuild.legacy_fs_after) /\
  data <$> files DemoBuild.legacy_fs_after !! "generated-files/random_1KB_0.txt"%string
  = Some DemoBuild.first_kb /\
  data <$> files DemoBuild.legacy_fs_after !! "generated-files/random_1KB_1.txt"%string
  = Some DemoBuild.first_kb /\
  generateRandomFilePool Demo.calm 2000 1 2 DemoBuild.factory Demo.empty_fs
  = Done (None, DemoBuild.factory_after, DemoBuild.fs_after) /\
  data <$> files DemoBuild.fs_after !! "generated-files/4848484/random_1KB_0.txt"%string
  = Some DemoBuild.first_kb /\
  data <$> files DemoBuild.fs_after !! "generated-files/4848484/random_1KB_1.txt"%string
  = Some DemoBuild.second_kb /\
  DemoBuild.first_kb <> DemoBuild.second_kb.
Proof.
  split.
  { vm_cast_no_check
      (@eq_refl _ (@Done (option error * @Legacy.RandomImageFactory Demo.docker * FS)
                         (None, DemoBuild.legacy_factory_after, DemoBuild.legacy_fs_after))). }
  split; [vm_compute; reflexivity|].
  split; [vm_compute; reflexivity|].
  split.
  { vm_cast_no_check
      (@eq_refl _ (@Done (option error * @RandomImageFactory Demo.source Demo.docker * FS)
                         (None, DemoBuild.factory_after, DemoBuild.fs_after))). }
  split; [vm_compute; reflexivity|].
  split; [vm_compute; reflexivity|].
  intros H. apply (f_equal head) in H. vm_compute in H. discriminate.
Qed.

(** ** Strings and paths *)

Lemma string_app_cons (x : ascii) (a b : string) : String x a +:+ b = String x (a +:+ b).
Proof. reflexivity. Qed.

Lemma string_app_nil_l (b : string) : "" +:+ b = b.
Proof. reflexivity. Qed.

Lemma string_app_nil_r (a : string) : a +:+ "" = a.
Proof.
  induction a as [|x a IH]; [reflexivity|]. rewrite string_app_cons, IH. reflexivity.
Qed.

Lemma string_app_assoc (a b c : string) : (a +:+ b) +:+ c = a +:+ (b +:+ c).
Proof.
  induction a as [|x a IH]; [reflexivity|]. rewrite !string_app_cons, IH. reflexivity.
Qed.

Lemma all_chars_app P (a b : string) :
  all_chars P (a +:+ b) <-> all_chars P a /\ all_chars P b.
Proof.
  induction a as [|x a IH].
  - rewrite string_app_nil_l. simpl. tauto.
  - rewrite string_app_cons. simpl. rewrite IH. tauto.
Qed.

Lemma all_chars_split_on P sep (s : string) :
  all_chars P s -> Forall (all_chars P) (split_on sep s).
Proof.
  induction s as [|c s IH]; simpl; intros H.
  - repeat constructor.
  - destruct H as [Hc Hs]. specialize (IH Hs).
    destruct (Ascii.eqb c sep).
    + constructor; [exact I|exact IH].
    + destruct (split_on sep s) as [|w ws]; [repeat constructor; assumption|].
      inversion IH; subst. constructor; [split; assumption|assumption].
Qed.

Lemma all_chars_clean_elems P rooted (elems : list string) :
  forall stack,
    Forall (all_chars P) stack -> Forall (all_chars P) elems ->
    Forall (all_chars P) (clean_elems rooted stack elems).
Proof.
  induction elems as [|e rest IH]; intros stack Hst Hel; simpl.
  - apply Forall_rev. exact Hst.
  - inversion Hel as [|? ? He Hrest]; subst.
    destruct (String.eqb e "" || String.eqb e "."); [apply IH; assumption|].
    destruct (String.eqb e "..").
    + destruct stack as [|top stack'].
      * destruct rooted; apply IH; try assumption; repeat constructor; assumption.
      * inversion Hst; subst.
        destruct (String.eqb top ".."); apply IH; try assumption.
        constructor; assumption.
    + apply IH; [constructor; assumption|assumption].
Qed.

Lemma all_chars_join_with P sep (l : list string) :
  all_chars P sep -> Forall (all_chars P) l -> all_chars P (join_with sep l).
Proof.
  intros Hsep. induction l as [|x rest IH]; intros H; simpl; [exact I|].
  inversion H as [|? ? Hx Hrest]; subst.
  destruct rest as [|y rest']; [exact Hx|].
  rewrite !all_chars_app. repeat split; [exact Hx|exact Hsep|apply IH, Hrest].
Qed.

Lemma all_chars_Clean P (p : string) :
  P "/"%char -> P "."%char -> all_chars P p -> all_chars P (Clean p).
Proof.
  intros Hslash Hdot Hp. unfold Clean.
  assert (Hout : all_chars P (join_with "/" (clean_elems (is_rooted p) [] (split_on "/" p)))).
  { apply all_chars_join_with; [simpl; tauto|].
    apply all_chars_clean_elems; [constructor|apply all_chars_split_on, Hp]. }
  destruct (is_rooted p).
  - apply all_chars_app. split; [simpl; tauto|exact Hout].
  - destruct (String.eqb _ ""); [simpl; tauto|exact Hout].
Qed.

Lemma all_chars_path_Join P (elem : list string) :
  P "/"%char -> P "."%char -> Forall (all_chars P) elem -> all_chars P (path_Join elem).
Proof.
  intros Hslash Hdot Hel. unfold path_Join.
  assert (Hf : Forall (all_chars P) (List.filter (fun e => negb (String.eqb e "")) elem)).
  { apply List.Forall_forall. intros x Hx. apply List.filter_In in Hx.
    rewrite List.Forall_forall in Hel. apply Hel, Hx. }
  destruct (List.filter _ elem) as [|e es] eqn:E; [exact I|].
  apply all_chars_Clean; [assumption..|].
  apply all_chars_join_with; [simpl; tauto|exact Hf].
Qed.

Lemma newline_free_uint (d : Decimal.uint) : newline_free (NilEmpty.string_of_uint d).
Proof.
  induction d; simpl; try exact I; (split; [discriminate|exact IHd]).
Qed.

Lemma newline_free_itoa (z : Z) : newline_free (itoa z).
Proof.
  unfold itoa, NilZero.string_of_int, NilZero.string_of_uint.
  destruct (Z.to_int z) as [d|d].
  - destruct d; try (simpl; split; [discriminate|]; try exact I; apply newline_free_uint).
  - split; [discriminate|].
    destruct d; try (simpl; split; [discriminate|]; try exact I; apply newline_free_uint).
Qed.

Lemma newline_free_filePath (dir : string) (size i : N) :
  newline_free dir -> newline_free (filePath dir size i).
Proof.
  intros Hdir. unfold filePath. apply all_chars_path_Join; try discriminate.
  constructor; [exact Hdir|]. constructor; [|constructor].
  cbn [Sprintf Ascii.eqb Bool.eqb format_verb plain orb]. simpl.
  repeat (split; [discriminate|]).
  apply all_chars_app. split; [apply newline_free_itoa|].
  simpl. repeat (split; [discriminate|]).
  apply all_chars_app. split; [apply newline_free_itoa|].
  simpl. repeat (split; [discriminate|]). exact I.
Qed.

Lemma newline_free_pool_path (p : string) : is_pool_path p -> newline_free p.
Proof.
  intros (size & i & [[seed ->]| ->]); apply newline_free_filePath.
  - apply all_chars_path_Join; try discriminate.
    constructor; [unfold baseImageDir; simpl; repeat (split; [discriminate|]); exact I|].
    constructor; [|constructor].
    simpl. rewrite all_chars_app. split; [apply newline_free_itoa|exact I].
  - unfold Legacy.imageDir. simpl. repeat (split; [discriminate|]). exact I.
Qed.

(** ** The manifest *)

Lemma lines_line (l rest : string) :
  newline_free l -> lines (l +:+ nl +:+ rest) = l :: lines rest.
Proof.
  induction l as [|c l IH]; intros Hl; simpl.
  - reflexivity.
  - destruct Hl as [Hc Hl]. rewrite (IH Hl).
    destruct (Ascii.eqb_spec c newline) as [->|_]; [contradiction|reflexivity].
Qed.

Lemma directive_text (p : string) :
  Sprintf ("ADD %s /opt" +:+ nl) [OStr p] = directive_line p +:+ nl.
Proof.
  unfold directive_line. rewrite !string_app_assoc. reflexivity.
Qed.

Lemma dockerfile_text_fold (paths : list string) :
  forall acc,
    fold_left (fun dockerFile p => dockerFile +:+ Sprintf ("ADD %s /opt" +:+ nl) [OStr p])
              paths acc
    = acc +:+ fold_right (fun p rest => directive_line p +:+ nl +:+ rest) "" paths.
Proof.
  induction paths as [|p paths IH]; intros acc; cbn [fold_left fold_right].
  - rewrite string_app_nil_r. reflexivity.
  - rewrite IH, directive_text, !string_app_assoc. reflexivity.
Qed.

Lemma lines_directives (paths : list string) :
  Forall newline_free paths ->
  lines (fold_right (fun p rest => directive_line p +:+ nl +:+ rest) "" paths)
  = map directive_line paths.
Proof.
  induction 1 as [|p paths Hp Hall IH]; simpl; [reflexivity|].
  rewrite lines_line, IH; [reflexivity|].
  unfold directive_line, newline_free. rewrite !all_chars_app. simpl.
  repeat split; try discriminate. exact Hp.
Qed.

Lemma dockerfile_lines (paths : list string) :
  Forall newline_free paths ->
  lines (dockerfile_text paths) = header_line :: map directive_line paths.
Proof.
  intros H. unfold dockerfile_text. rewrite dockerfile_text_fold, string_app_assoc.
  rewrite (lines_line "FROM scratch").
  - rewrite lines_directives by exact H. reflexivity.
  - unfold newline_free. simpl. repeat split; discriminate.
Qed.

(** ** Traces of the file system calls *)
Section TraceFacts.
Variable env : oracle.

Lemma errno_of_fault_not_ENOENT (x : fault) : errno_of_fault x <> ENOENT.
Proof. destruct x; discriminate. Qed.

Lemma Stat_trace p fs r fs' :
  Stat env p fs = (r, fs') ->
  exists e, trace fs' = e :: trace fs /\ ev_path e = p /\ ev_call e = SysStat /\
            match r with
            | inl _ => ev_err e = None
            | inr err => exists en, ev_err e = Some en /\
                                    err = PathError "stat" p (Errno en) /\
                                    (IsNotExist err = true <-> en = ENOENT)
            end.
Proof.
  unfold Stat. destruct (env (clock fs) SysStat p) as [x|].
  - intros [= <- <-]. eexists. repeat split. eexists. repeat split.
    + rewrite IsNotExist_fault. discriminate.
    + intros H. exfalso. exact (errno_of_fault_not_ENOENT x H).
  - destruct (files fs !! p).
    + intros [= <- <-]. eexists. repeat split.
    + destruct (decide (p ∈ dirs fs)); intros [= <- <-]; eexists; repeat split.
      eexists. repeat split.
Qed.

Lemma MkdirAll_trace p fs r fs' :
  MkdirAll env p fs = (r, fs') ->
  exists e, trace fs' = e :: trace fs /\ ev_path e = p /\ ev_call e = SysMkdirAll /\
            match r with
            | None => ev_err e = None
            | Some err => exists en, ev_err e = Some en /\ err = PathError "mkdir" p (Errno en)
            end.
Proof.
  unfold MkdirAll. destruct (env (clock fs) SysMkdirAll p) as [x|].
  - intros [= <- <-]. eexists. repeat split. eauto.
  - destruct (files fs !! p); intros [= <- <-]; eexists; repeat split. eauto.
Qed.

Lemma open_trunc_trace p fs r fs' :
  open_trunc env p fs = (r, fs') ->
  exists e, trace fs' = e :: trace fs /\ ev_path e = p /\ ev_call e = SysCreate /\
            match r with
            | None => ev_err e = None
            | Some err => exists en, ev_err e = Some en /\ err = PathError "open" p (Errno en)
            end.
Proof.
  unfold open_trunc. destruct (env (clock fs) SysCreate p) as [x|].
  - intros [= <- <-]. eexists. repeat split. eauto.
  - destruct (decide (p ∈ dirs fs)); intros [= <- <-]; eexists; repeat split. eauto.
Qed.

Lemma write_bytes_trace p bs fs r fs' :
  write_bytes env p bs fs = (r, fs') ->
  exists e, trace fs' = e :: trace fs /\ ev_path e = p /\ ev_call e = SysWrite /\
            match r with
            | None => ev_err e = None
            | Some err => exists en, ev_err e = Some en /\ err = PathError "write" p (Errno en)
            end.
Proof.
  unfold write_bytes. destruct (env (clock fs) SysWrite p) as [x|].
  - intros [= <- <-]. eexists. repeat split. eauto.
  - intros [= <- <-]. eexists. repeat split.
Qed.

Lemma WriteFile_trace p bs fs r fs' :
  WriteFile env p bs fs = (r, fs') ->
  exists new, trace fs' = new ++ trace fs /\
              match r with
              | None => Forall succeeded new
              | Some err =>
                exists e rest, new = e :: rest /\ Forall succeeded rest /\
                               ~ succeeded e /\ ev_path e = p /\
                               is_write_call (ev_call e) = true /\ path_error_of e err
              end.
Proof.
  unfold WriteFile. destruct (open_trunc env p fs) as [[err|] fs1] eqn:E1;
    apply open_trunc_trace in E1; destruct E1 as (e1 & Ht1 & Hp1 & Hc1 & Hr1).
  - intros [= <- <-]. exists [e1]. split; [exact Ht1|].
    destruct Hr1 as (en & He & ->).
    exists e1, []. repeat split; [constructor| |exact Hp1|rewrite Hc1; reflexivity|].
    + unfold succeeded. congruence.
    + exists "open"%string, en. rewrite Hp1. split; [exact He|reflexivity].
  - intros E2. apply write_bytes_trace in E2. destruct E2 as (e2 & Ht2 & Hp2 & Hc2 & Hr2).
    exists [e2; e1]. split; [rewrite Ht2, Ht1; reflexivity|].
    destruct r as [err|].
    + destruct Hr2 as (en & He & ->). exists e2, [e1].
      repeat split; [repeat constructor; exact Hr1| |exact Hp2|rewrite Hc2; reflexivity|].
      * unfold succeeded. congruence.
      * exists "write"%string, en. rewrite Hp2. split; [exact He|reflexivity].
    + repeat constructor; assumption.
Qed.

Lemma ReadFile_spec p fs r fs' :
  ReadFile env p fs = (r, fs') ->
  files fs' = files fs /\ dirs fs' = dirs fs /\
  exists new, trace fs' = new ++ trace fs /\
              match r with
              | inl bs => Forall succeeded new /\
                          exists nd, files fs !! p = Some nd /\ bs = data nd
              | inr err =>
                exists e rest, new = e :: rest /\ Forall succeeded rest /\
                               ~ succeeded e /\ ev_path e = p /\ path_error_of e err
              end.
Proof.
  unfold ReadFile. destruct (env (clock fs) SysOpen p) as [x|].
  - intros [= <- <-]. repeat split. eexists [_]. split; [reflexivity|].
    eexists _, []. repeat split; [constructor|discriminate|].
    eexists _, _. split; reflexivity.
  - destruct (files fs !! p) as [nd|] eqn:E.
    + destruct (env (clock (log SysOpen p None fs)) SysRead p) as [x|].
      * intros [= <- <-]. repeat split. eexists [_; _]. split; [reflexivity|].
        eexists _, [_]. repeat split; [repeat constructor|discriminate|].
        eexists _, _. split; reflexivity.
      * intros [= <- <-]. repeat split. eexists [_; _]. split; [reflexivity|].
        split; [repeat constructor|]. eauto.
    + destruct (decide (p ∈ dirs fs)).
      * intros [= <- <-]. repeat split. eexists [_; _]. split; [reflexivity|].
        eexists _, [_]. repeat split; [repeat constructor|discriminate|].
        eexists _, _. split; reflexivity.
      * intros [= <- <-]. repeat split. eexists [_]. split; [reflexivity|].
        eexists _, []. repeat split; [constructor|discriminate|].
        eexists _, _. split; reflexivity.
Qed.
End TraceFacts.

(** ** The archive writer *)

Ltac list_assoc :=
  repeat (rewrite <- app_comm_cons || rewrite <- app_assoc); reflexivity.

Section ArchiveFacts.
Variable env : oracle.
Variable header_block : tar.Header -> list byte.

Lemma nothing_removed_refl fs : nothing_removed fs fs.
Proof. intros q H. exact H. Qed.

Lemma nothing_removed_trans fs1 fs2 fs3 :
  nothing_removed fs1 fs2 -> nothing_removed fs2 fs3 -> nothing_removed fs1 fs3.
Proof. intros H1 H2 q H. apply H2, H1, H. Qed.

Lemma nothing_removed_files fs fs' : files fs' = files fs -> nothing_removed fs fs'.
Proof. intros H q Hq. rewrite H. exact Hq. Qed.

Lemma write_bytes_keeps p bs fs r fs' :
  write_bytes env p bs fs = (r, fs') -> nothing_removed fs fs'.
Proof.
  intros H. apply write_bytes_spec in H. destruct H as (_ & Hother & _ & Hr).
  intros q Hq. destruct (decide (q = p)) as [->|Hne].
  - destruct r as [err|].
    + destruct Hr as [Hsame _]. rewrite Hsame. exact Hq.
    + destruct Hr as [t Ht]. rewrite Ht. eauto.
  - rewrite Hother by exact Hne. exact Hq.
Qed.

Lemma open_trunc_keeps p fs r fs' :
  open_trunc env p fs = (r, fs') -> nothing_removed fs fs'.
Proof.
  intros H. apply open_trunc_spec in H. destruct H as (_ & Hother & _ & Hr).
  intros q Hq. destruct (decide (q = p)) as [->|Hne].
  - destruct r as [err|].
    + destruct Hr as [Hsame _]. rewrite Hsame. exact Hq.
    + destruct Hr as [t Ht]. rewrite Ht. eauto.
  - rewrite Hother by exact Hne. exact Hq.
Qed.

Lemma WriteFile_keeps p bs fs r fs' :
  WriteFile env p bs fs = (r, fs') -> nothing_removed fs fs'.
Proof.
  unfold WriteFile. destruct (open_trunc env p fs) as [[err|] fs1] eqn:E1.
  - intros [= <- <-]. eapply open_trunc_keeps, E1.
  - intros E2. eapply nothing_removed_trans;
      [eapply open_trunc_keeps, E1|eapply write_bytes_keeps, E2].
Qed.

Lemma append_body_last (b : list byte) (es : list tar.entry) (e : tar.entry) :
  tar.append_body b (es ++ [e]) = es ++ [{| tar.hdr := tar.hdr e; tar.body := tar.body e ++ b |}].
Proof.
  induction es as [|x es IH]; [reflexivity|].
  simpl. rewrite IH. destruct es; reflexivity.
Qed.

Lemma WriteHeader_spec h tw fs r tw' fs' :
  tar.nb tw = 0 ->
  tar.WriteHeader env header_block h tw fs = (r, tw', fs') ->
  nothing_removed fs fs' /\
  (forall q, q <> tar.w tw -> files fs' !! q = files fs !! q) /\
  exists e, trace fs' = e :: trace fs /\ ev_path e = tar.w tw /\
            match r with
            | None =>
              succeeded e /\
              tw' = {| tar.w := tar.w tw;
                       tar.entries := tar.entries tw ++ [{| tar.hdr := h; tar.body := [] |}];
                       tar.nb := tar.Size h; tar.pad := (- tar.Size h) mod 512 |}
            | Some err => ~ succeeded e /\ path_error_of e err /\ tw' = tw
            end.
Proof.
  intros Hnb. unfold tar.WriteHeader. rewrite Hnb. simpl.
  destruct (write_bytes env (tar.w tw) _ fs) as [[err|] fs1] eqn:E;
    intros [= <- <- <-];
    pose proof (write_bytes_keeps _ _ _ _ _ E) as Hkeep;
    pose proof (write_bytes_spec _ _ _ _ _ _ E) as (_ & Hother & _);
    apply write_bytes_trace in E; destruct E as (e & Ht & Hp & _ & Hr);
    (split; [exact Hkeep|]); (split; [exact Hother|]); exists e;
    (split; [exact Ht|]); (split; [exact Hp|]).
  - destruct Hr as (en & He & ->). split; [unfold succeeded; congruence|].
    split; [|reflexivity]. exists "write"%string, en. rewrite Hp. split; [exact He|reflexivity].
  - split; [exact Hr|reflexivity].
Qed.

Lemma Write_spec bs tw fs r tw' fs' :
  tar.nb tw = len bs ->
  tar.Write env bs tw fs = (r, tw', fs') ->
  nothing_removed fs fs' /\
  (forall q, q <> tar.w tw -> files fs' !! q = files fs !! q) /\
  exists new, trace fs' = new ++ trace fs /\
              match r with
              | None =>
                Forall succeeded new /\
                tw' = {| tar.w := tar.w tw; tar.entries := tar.append_body bs (tar.entries tw);
                         tar.nb := 0; tar.pad := tar.pad tw |}
              | Some err => exists e, new = [e] /\ ~ succeeded e /\ path_error_of e err /\ tw' = tw
              end.
Proof.
  intros Hnb. unfold tar.Write. rewrite Hnb, Z.ltb_irrefl.
  destruct (0 <? len bs).
  - destruct (write_bytes env (tar.w tw) bs fs) as [[err|] fs1] eqn:E;
      intros [= <- <- <-];
      pose proof (write_bytes_keeps _ _ _ _ _ E) as Hkeep;
      pose proof (write_bytes_spec _ _ _ _ _ _ E) as (_ & Hother & _);
      apply write_bytes_trace in E; destruct E as (e & Ht & Hp & _ & Hr);
      (split; [exact Hkeep|]); (split; [exact Hother|]); exists [e];
      (split; [exact Ht|]).
    + destruct Hr as (en & He & ->). exists e. split; [reflexivity|].
      split; [unfold succeeded; congruence|]. split; [|reflexivity].
      exists "write"%string, en. rewrite Hp. split; [exact He|reflexivity].
    + split; [repeat constructor; exact Hr|]. rewrite Z.sub_diag. reflexivity.
  - intros [= <- <- <-]. split; [apply nothing_removed_refl|]. split; [reflexivity|].
    exists []. split; [reflexivity|]. split; [constructor|]. rewrite Z.sub_diag. reflexivity.
Qed.

Lemma Close_spec tw fs r tw' fs' :
  tar.Close env tw fs = (r, tw', fs') ->
  nothing_removed fs fs' /\
  (forall q, q <> tar.w tw -> files fs' !! q = files fs !! q) /\
  tar.entries tw' = tar.entries tw /\
  exists closing, trace fs' = closing ++ trace fs /\ closing_calls (tar.w tw) closing.
Proof.
  unfold tar.Close. destruct (0 <? tar.nb tw).
  - intros [= <- <- <-]. split; [apply nothing_removed_refl|]. split; [reflexivity|].
    split; [reflexivity|]. exists []. split; [reflexivity|]. left. reflexivity.
  - destruct (write_bytes env (tar.w tw) _ fs) as [[err|] fs1] eqn:E;
      intros [= <- <- <-];
      pose proof (write_bytes_keeps _ _ _ _ _ E) as Hkeep;
      pose proof (write_bytes_spec _ _ _ _ _ _ E) as (_ & Hother & _);
      apply write_bytes_trace in E; destruct E as (e & Ht & Hp & Hc & Hr);
      (split; [exact Hkeep|]); (split; [exact Hother|]); (split; [reflexivity|]);
      exists [e]; (split; [exact Ht|]); right; exists e; auto.
Qed.

Section Loop.
Variable statErr readErr : string -> error -> error.

(** The loop of [createArchive]: the first failure is fatal and is reported
    through one of the errors of the loop; without a failure the writer has
    one more entry per path, in order, each complete. *)
Lemma createArchive_loop_spec (paths : list string) :
  forall tw fs r tw' fs',
    tar.nb tw = 0 ->
    createArchive_loop env header_block statErr readErr paths tw fs = (r, tw', fs') ->
    tar.w tw' = tar.w tw /\
    nothing_removed fs fs' /\
    (forall q, q <> tar.w tw -> files fs' !! q = files fs !! q) /\
    exists new,
      trace fs' = new ++ trace fs /\
      match r with
      | None =>
        Forall succeeded new /\ tar.nb tw' = 0 /\
        exists es, tar.entries tw' = tar.entries tw ++ es /\
                   entry_names es = paths /\ Forall entry_ok es /\
                   Forall (fun e => tar.Name (tar.hdr e) <> tar.w tw ->
                                    exists nd, files fs !! tar.Name (tar.hdr e) = Some nd /\
                                               tar.body e = data nd) es
      | Some err =>
        exists e rest cause,
          new = e :: rest /\ Forall succeeded rest /\ ~ succeeded e /\
          path_error_of e cause /\ archive_error statErr readErr paths cause err
      end.
Proof.
  induction paths as [|p paths IH]; intros tw fs r tw' fs' Hnb Hrun; simpl in Hrun.
  - injection Hrun as <- <- <-. split; [reflexivity|]. split; [apply nothing_removed_refl|].
    split; [reflexivity|]. exists []. split; [reflexivity|].
    split; [constructor|]. split; [exact Hnb|]. exists [].
    rewrite app_nil_r. repeat split; constructor.
  - destruct (Stat env p fs) as [[info|err] fs1] eqn:ES.
    + pose proof (Stat_spec _ _ _ _ _ ES) as (Hf1 & _ & _ & [_ Hsize]).
      apply Stat_trace in ES. destruct ES as (e1 & Ht1 & Hp1 & _ & He1).
      destruct (ReadFile env p fs1) as [[bs|err] fs2] eqn:ER;
        apply ReadFile_spec in ER; destruct ER as (Hf2 & _ & new2 & Ht2 & Hr2).
      * destruct Hr2 as (Hok2 & nd & Hnd & ->).
        assert (Hsz : Size info = len (data nd)).
        { apply Hsize. rewrite <- Hf1. exact Hnd. }
        destruct (tar.WriteHeader env header_block _ tw fs2) as [[[err|] tw3] fs3] eqn:EH;
          apply WriteHeader_spec in EH; try exact Hnb;
          destruct EH as (Hk3 & Ho3 & e3 & Ht3 & Hp3 & Hr3).
        -- injection Hrun as <- <- <-. destruct Hr3 as (Hbad & Hpe & ->).
           split; [reflexivity|].
           split; [eapply nothing_removed_trans; [|exact Hk3];
                   apply nothing_removed_files; congruence|].
           split; [intros q Hq; rewrite Ho3 by exact Hq; congruence|].
           exists (e3 :: new2 ++ [e1]). split.
           { rewrite Ht3, Ht2, Ht1. list_assoc. }
           exists e3, (new2 ++ [e1]), err. split; [reflexivity|].
           split; [apply Forall_app; split; [exact Hok2|repeat constructor; exact He1]|].
           split; [exact Hbad|]. split; [exact Hpe|]. right. left. reflexivity.
        -- destruct Hr3 as (Hok3 & ->).
           destruct (tar.Write env (data nd) _ fs3) as [[[err|] tw4] fs4] eqn:EW;
             apply Write_spec in EW; try (simpl; exact Hsz);
             destruct EW as (Hk4 & Ho4 & new4 & Ht4 & Hr4); simpl in Ho4.
           ++ injection Hrun as <- <- <-. destruct Hr4 as (e4 & -> & Hbad & Hpe & ->).
              split; [reflexivity|].
              split; [eapply nothing_removed_trans; [|exact Hk4];
                      eapply nothing_removed_trans; [|exact Hk3];
                      apply nothing_removed_files; congruence|].
              split; [intros q Hq; rewrite Ho4, Ho3 by exact Hq; congruence|].
              exists (e4 :: e3 :: new2 ++ [e1]). split.
              { rewrite Ht4, Ht3, Ht2, Ht1. list_assoc. }
              exists e4, (e3 :: new2 ++ [e1]), err. split; [reflexivity|].
              split; [constructor; [exact Hok3|];
                      apply Forall_app; split; [exact Hok2|repeat constructor; exact He1]|].
              split; [exact Hbad|]. split; [exact Hpe|]. right. right. reflexivity.
           ++ destruct Hr4 as (Hok4 & ->). simpl in Hrun.
              rewrite append_body_last in Hrun. simpl in Hrun.
              apply IH in Hrun; [|reflexivity]. simpl in Hrun.
              destruct Hrun as (Hw & Hk & Ho & new & Ht & Hr).
              split; [exact Hw|].
              split; [eapply nothing_removed_trans; [|exact Hk];
                      eapply nothing_removed_trans; [|exact Hk4];
                      eapply nothing_removed_trans; [|exact Hk3];
                      apply nothing_removed_files; congruence|].
              split; [intros q Hq; rewrite Ho, Ho4, Ho3 by exact Hq; congruence|].
              exists (new ++ new4 ++ e3 :: new2 ++ [e1]). split.
              { rewrite Ht, Ht4, Ht3, Ht2, Ht1. list_assoc. }
              assert (Hpre : Forall succeeded (new4 ++ e3 :: new2 ++ [e1])).
              { apply Forall_app. split; [exact Hok4|]. constructor; [exact Hok3|].
                apply Forall_app. split; [exact Hok2|repeat constructor; exact He1]. }
              destruct r as [err|].
              ** destruct Hr as (e & rest & cause & -> & Hrest & Hbad & Hpe & Harch).
                 exists e, (rest ++ new4 ++ e3 :: new2 ++ [e1]), cause.
                 split; [reflexivity|].
                 split; [apply Forall_app; split; assumption|].
                 split; [exact Hbad|]. split; [exact Hpe|].
                 destruct Harch as [(p' & Hin & Hp')|Hrest']; [left|right; exact Hrest'].
                 exists p'. split; [right; exact Hin|exact Hp'].
              ** destruct Hr as (Hok & Hnb' & es & Hes & Hnames & Hall & Hbodies).
                 split; [apply Forall_app; split; assumption|]. split; [exact Hnb'|].
                 eexists (_ :: es). split; [rewrite Hes; list_assoc|].
                 split; [simpl; rewrite Hnames; reflexivity|].
                 split.
                 { constructor; [|exact Hall]. split; [simpl; exact Hsz|reflexivity]. }
                 constructor.
                 { simpl. intros _. exists nd. split; [|reflexivity].
                   rewrite <- Hf1. exact Hnd. }
                 eapply Forall_impl; [exact Hbodies|]. intros x Hx Hne.
                 destruct (Hx Hne) as (nd' & Hnd' & Hb). exists nd'. split; [|exact Hb].
                 rewrite Ho4, Ho3 in Hnd' by exact Hne. congruence.
      * injection Hrun as <- <- <-.
        destruct Hr2 as (e2 & rest2 & -> & Hok2 & Hbad & Hp2 & Hpe).
        split; [reflexivity|]. split; [apply nothing_removed_files; congruence|].
        split; [intros; congruence|].
        exists ((e2 :: rest2) ++ [e1]). split; [rewrite Ht2, Ht1; list_assoc|].
        exists e2, (rest2 ++ [e1]), err. split; [reflexivity|].
        split; [apply Forall_app; split; [exact Hok2|repeat constructor; exact He1]|].
        split; [exact Hbad|]. split; [exact Hpe|]. left. exists p. split; [left; reflexivity|].
        right. reflexivity.
    + injection Hrun as <- <- <-.
      pose proof (Stat_spec _ _ _ _ _ ES) as (Hf1 & _).
      apply Stat_trace in ES. destruct ES as (e1 & Ht1 & Hp1 & _ & (en & He1 & -> & _)).
      split; [reflexivity|]. split; [apply nothing_removed_files; congruence|].
      split; [intros; congruence|].
      exists [e1]. split; [exact Ht1|].
      exists e1, [], (PathError "stat" p (Errno en)). split; [reflexivity|].
      split; [constructor|]. split; [unfold succeeded; congruence|].
      split; [exists "stat"%string, en; rewrite Hp1; split; [exact He1|reflexivity]|].
      left. exists p. split; [left; reflexivity|]. left. reflexivity.
Qed.
End Loop.
End ArchiveFacts.

Section CreateArchiveFacts.
Variable env : oracle.
Variable header_block : tar.Header -> list byte.
Variable statErr readErr : string -> error -> error.

(** [createArchive]: the archive is created first; then the loop; the
    deferred close writes the trailer after the loop ended, whatever its
    result, and its own result is dropped. *)
Lemma createArchive_with_spec name paths fs r tw fs' :
  createArchive_with env header_block statErr readErr name paths fs = (r, tw, fs') ->
  nothing_removed fs fs' /\
  exists closing new,
    trace fs' = closing ++ new ++ trace fs /\
    match r with
    | None =>
      closing_calls name closing /\ Forall succeeded new /\
      entry_names (tar.entries tw) = paths /\ Forall entry_ok (tar.entries tw) /\
      Forall (fun e => tar.Name (tar.hdr e) <> name ->
                       exists nd, files fs !! tar.Name (tar.hdr e) = Some nd /\
                                  tar.body e = data nd) (tar.entries tw)
    | Some err =>
      closing_calls name closing /\
      exists e rest cause,
        new = e :: rest /\ Forall succeeded rest /\ ~ succeeded e /\
        path_error_of e cause /\
        (err = Errorf "failed to create tar archive %q: %w" [OStr name; OErr cause] \/
         archive_error statErr readErr paths cause err)
    end.
Proof.
  unfold createArchive_with, Create.
  destruct (open_trunc env name fs) as [[err|] fs1] eqn:EC.
  - intros [= <- <- <-]. split; [eapply open_trunc_keeps, EC|].
    apply open_trunc_trace in EC. destruct EC as (e & Ht & Hp & _ & (en & He & ->)).
    exists [], [e]. split; [exact Ht|]. split; [left; reflexivity|].
    exists e, [], (PathError "open" name (Errno en)). split; [reflexivity|].
    split; [constructor|]. split; [unfold succeeded; congruence|].
    split; [|left; reflexivity].
    exists "open"%string, en. rewrite Hp. split; [exact He|reflexivity].
  - pose proof (open_trunc_keeps _ _ _ _ _ EC) as Hk1.
    pose proof (open_trunc_spec _ _ _ _ _ EC) as (_ & Ho1 & _).
    apply open_trunc_trace in EC. destruct EC as (e1 & Ht1 & Hp1 & _ & He1).
    destruct (createArchive_loop env header_block statErr readErr paths
                                 (tar.NewWriter name) fs1) as [[r2 tw2] fs2] eqn:EL.
    apply createArchive_loop_spec in EL; [|reflexivity]. simpl in EL.
    destruct EL as (Hw2 & Hk2 & Ho2 & new2 & Ht2 & Hr2).
    destruct (tar.Close env tw2 fs2) as [[r3 tw3] fs3] eqn:ECl.
    apply Close_spec in ECl. destruct ECl as (Hk3 & _ & Hent3 & closing & Ht3 & Hcl).
    rewrite Hw2 in Hcl.
    intros [= <- <- <-].
    split; [eapply nothing_removed_trans; [exact Hk1|];
            eapply nothing_removed_trans; [exact Hk2|exact Hk3]|].
    exists closing, (new2 ++ [e1]). split; [rewrite Ht3, Ht2, Ht1; list_assoc|].
    destruct r2 as [err|].
    + split; [exact Hcl|].
      destruct Hr2 as (e & rest & cause & -> & Hrest & Hbad & Hpe & Harch).
      exists e, (rest ++ [e1]), cause. split; [reflexivity|].
      split; [apply Forall_app; split; [exact Hrest|repeat constructor; exact He1]|].
      split; [exact Hbad|]. split; [exact Hpe|]. right. exact Harch.
    + split; [exact Hcl|].
      destruct Hr2 as (Hok & _ & es & Hes & Hnames & Hall & Hbodies). simpl in Hes.
      rewrite Hent3, Hes.
      split; [apply Forall_app; split; [exact Hok|repeat constructor; exact He1]|].
      split; [exact Hnames|]. split; [exact Hall|].
      eapply Forall_impl; [exact Hbodies|]. intros x Hx Hne.
      destruct (Hx Hne) as (nd & Hnd & Hb). exists nd. split; [|exact Hb].
      rewrite <- Ho1 by exact Hne. exact Hnd.
Qed.
End CreateArchiveFacts.

(** ** The paths a pool records, and its failures *)

Opaque filePath.

Section PoolPaths.
Context {R : RandSource}.
Variable env : oracle.
Variable F : Type.
Variable record : string -> F -> F.
Variable gen : nat -> Z -> F -> outcome (list byte * F).
Variable get : F -> list string.
Hypothesis get_record : forall p f, get (record p f) = get f ++ [p].
Hypothesis get_gen : forall fuel n f b f', gen fuel n f = Done (b, f') -> get f' = get f.

Lemma pool_loop_paths (todo : nat) :
  forall fuel dir size i f fs f' fs',
    pool_loop env F record gen fuel dir size todo i f fs = Done (None, f', fs') ->
    get f' = get f ++ map (fun k => filePath dir size (i + N.of_nat k)) (seq 0 todo).
Proof.
  induction todo as [|todo IH]; intros fuel dir size i f fs f' fs' Hrun; simpl in Hrun.
  - injection Hrun as <- <-. simpl. rewrite app_nil_r. reflexivity.
  - assert (Hgoal : forall f1, get f1 = get f ++ [filePath dir size i] ->
                    get f' = get f1 ++
                             map (fun k => filePath dir size (i + 1 + N.of_nat k)) (seq 0 todo) ->
                    get f' = get f ++
                             map (fun k => filePath dir size (i + N.of_nat k)) (seq 0 (S todo))).
    { intros f1 H1 H2. rewrite H2, H1, <- app_assoc.
      assert (Hmap : map (fun k => filePath dir size (i + 1 + N.of_nat k)) (seq 0 todo)
                     = map (fun k => filePath dir size (i + N.of_nat k)) (seq 1 todo)).
      { rewrite <- seq_shift, map_map. apply map_ext. intros k.
        replace (i + 1 + N.of_nat k)%N with (i + N.of_nat (S k))%N by lia. reflexivity. }
      rewrite Hmap. cbn [seq map]. rewrite N.add_0_r. reflexivity. }
    destruct (Stat env (filePath dir size i) fs) as [[info|err] fs1].
    + eapply Hgoal; [apply get_record|]. eapply IH. exact Hrun.
    + destruct (negb (IsNotExist err)); [discriminate|].
      destruct (gen fuel _ (record (filePath dir size i) f)) as [[bs f2]| |] eqn:EG;
        try discriminate.
      destruct (WriteFile env (filePath dir size i) bs fs1) as [[err'|] fs2];
        [discriminate|].
      eapply (Hgoal f2); [rewrite (get_gen _ _ _ _ _ EG); apply get_record|].
      eapply IH. exact Hrun.
Qed.

Lemma pool_paths_spec fuel dir size count f fs f' fs' :
  pool env F record gen fuel dir size count f fs = Done (None, f', fs') ->
  get f' = get f ++ pool_paths dir size count.
Proof.
  unfold pool. destruct (MkdirAll env dir fs) as [[err|] fs1]; [discriminate|].
  intros Hrun. apply pool_loop_paths in Hrun. exact Hrun.
Qed.

Lemma Errorf_wraps_1 (msg : string) (err : error) :
  wrapped_operand msg [OErr err] = Some err ->
  Unwrap (Errorf msg [OErr err]) = Some err.
Proof. intros H. unfold Errorf. rewrite H. reflexivity. Qed.

(** In the pool the first failure, other than [os.Stat] answering "not
    found", is fatal. *)
Lemma pool_loop_fatal (todo : nat) :
  forall fuel dir size i f fs r f' fs',
    pool_loop env F record gen fuel dir size todo i f fs = Done (r, f', fs') ->
    nothing_removed fs fs' /\
    exists new, trace fs' = new ++ trace fs /\ fatal succeeded_or_not_found r new.
Proof.
  induction todo as [|todo IH]; intros fuel dir size i f fs r f' fs' Hrun; simpl in Hrun.
  - injection Hrun as <- <- <-. split; [apply nothing_removed_refl|].
    exists []. split; [reflexivity|]. constructor.
  - destruct (Stat env (filePath dir size i) fs) as [[info|err] fs1] eqn:ES.
    + pose proof (Stat_spec _ _ _ _ _ ES) as (Hf1 & _).
      apply Stat_trace in ES. destruct ES as (e1 & Ht1 & Hp1 & Hc1 & He1).
      apply IH in Hrun. destruct Hrun as (Hk & new & Ht & Hfat).
      split; [eapply nothing_removed_trans; [apply nothing_removed_files, Hf1|exact Hk]|].
      exists (new ++ [e1]). split; [rewrite Ht, Ht1; list_assoc|].
      assert (Hok1 : succeeded_or_not_found e1) by (left; exact He1).
      destruct r as [err|]; simpl in *.
      * destruct Hfat as (e & rest & -> & Hrest & Hbad & Hrep).
        exists e, (rest ++ [e1]). split; [reflexivity|].
        split; [apply Forall_app; split; [exact Hrest|constructor; [exact Hok1|constructor]]|].
        split; assumption.
      * apply Forall_app. split; [exact Hfat|constructor; [exact Hok1|constructor]].
    + pose proof (Stat_spec _ _ _ _ _ ES) as (Hf1 & _).
      apply Stat_trace in ES.
      destruct ES as (e1 & Ht1 & Hp1 & Hc1 & (en & He1 & -> & Hiff)).
      destruct (IsNotExist (PathError "stat" (filePath dir size i) (Errno en))) eqn:EN;
        simpl in Hrun.
      * assert (Hok1 : succeeded_or_not_found e1).
        { right. split; [exact Hc1|]. rewrite He1. f_equal. apply Hiff. reflexivity. }
        destruct (gen fuel _ (record (filePath dir size i) f)) as [[bs f2]| |];
          try discriminate.
        destruct (WriteFile env (filePath dir size i) bs fs1) as [[err'|] fs2] eqn:EW;
          pose proof (WriteFile_keeps _ _ _ _ _ _ EW) as Hk2;
          apply WriteFile_trace in EW; destruct EW as (new2 & Ht2 & Hr2).
        -- injection Hrun as <- <- <-.
           split; [eapply nothing_removed_trans; [apply nothing_removed_files, Hf1|exact Hk2]|].
           destruct Hr2 as (e & rest & -> & Hrest & Hbad & Hp & Hcall & Hpe).
           exists ((e :: rest) ++ [e1]). split; [rewrite Ht2, Ht1; list_assoc|].
           exists e, (rest ++ [e1]). split; [reflexivity|].
           split; [apply Forall_app; split;
                   [eapply Forall_impl; [exact Hrest|]; intros x Hx; left; exact Hx
                   |constructor; [exact Hok1|constructor]]|].
           split.
           { intros [Hs|[Hc Hnf]]; [exact (Hbad Hs)|].
             rewrite Hc in Hcall. discriminate. }
           exists err'. split; [reflexivity|exact Hpe].
        -- apply IH in Hrun. destruct Hrun as (Hk & new & Ht & Hfat).
           split; [eapply nothing_removed_trans; [apply nothing_removed_files, Hf1|];
                   eapply nothing_removed_trans; [exact Hk2|exact Hk]|].
           exists (new ++ new2 ++ [e1]). split; [rewrite Ht, Ht2, Ht1; list_assoc|].
           assert (Hpre : Forall succeeded_or_not_found (new2 ++ [e1])).
           { apply Forall_app. split; [|constructor; [exact Hok1|constructor]].
             eapply Forall_impl; [exact Hr2|]. intros x Hx. left. exact Hx. }
           destruct r as [err|]; simpl in *.
           ++ destruct Hfat as (e & rest & -> & Hrest & Hbad & Hrep).
              exists e, (rest ++ new2 ++ [e1]). split; [reflexivity|].
              split; [apply Forall_app; split; assumption|]. split; assumption.
           ++ apply Forall_app. split; assumption.
      * injection Hrun as <- <- <-. split; [apply nothing_removed_files, Hf1|].
        exists [e1]. split; [exact Ht1|].
        exists e1, []. split; [reflexivity|]. split; [constructor|].
        split.
        { intros [Hs|[_ Hnf]]; [unfold succeeded in Hs; congruence|].
          rewrite He1 in Hnf. injection Hnf as ->.
          cbn in EN. discriminate. }
        exists (PathError "stat" (filePath dir size i) (Errno en)).
        split; [reflexivity|].
        exists "stat"%string, en. rewrite Hp1. split; [exact He1|reflexivity].
Qed.
End PoolPaths.

Transparent filePath.

Section OperationFacts.
Context {R : RandSource}.
Variable env : oracle.

Lemma pool_fatal F record gen fuel dir size count f fs r f' fs' :
  pool env F record gen fuel dir size count f fs = Done (r, f', fs') ->
  nothing_removed fs fs' /\
  exists new, trace fs' = new ++ trace fs /\ fatal succeeded_or_not_found r new.
Proof.
  unfold pool. destruct (MkdirAll env dir fs) as [[err|] fs1] eqn:EM;
    pose proof (MkdirAll_spec _ _ _ _ _ EM) as (Hf1 & _);
    apply MkdirAll_trace in EM; destruct EM as (e1 & Ht1 & Hp1 & Hc1 & He1).
  - intros [= <- <- <-]. split; [apply nothing_removed_files, Hf1|].
    destruct He1 as (en & He1 & ->).
    exists [e1]. split; [exact Ht1|]. exists e1, []. split; [reflexivity|].
    split; [constructor|]. split.
    { intros [Hs|[Hc _]]; [unfold succeeded in Hs; congruence|congruence]. }
    exists (PathError "mkdir" dir (Errno en)). split; [reflexivity|].
    exists "mkdir"%string, en. rewrite Hp1. split; [exact He1|reflexivity].
  - intros Hrun. apply pool_loop_fatal in Hrun. destruct Hrun as (Hk & new & Ht & Hfat).
    split; [eapply nothing_removed_trans; [apply nothing_removed_files, Hf1|exact Hk]|].
    exists (new ++ [e1]). split; [rewrite Ht, Ht1; list_assoc|].
    assert (Hok1 : succeeded_or_not_found e1) by (left; exact He1).
    destruct r as [err|]; cbn [fatal] in *.
    + destruct Hfat as (e & rest & -> & Hrest & Hbad & Hrep).
      exists e, (rest ++ [e1]). split; [reflexivity|].
      split; [apply Forall_app; split; [exact Hrest|constructor; [exact Hok1|constructor]]|].
      split; assumption.
    + apply Forall_app. split; [exact Hfat|constructor; [exact Hok1|constructor]].
Qed.

Lemma generateDockerfile_fatal paths fs name r fs' :
  generateDockerfile env paths fs = ((name, r), fs') ->
  nothing_removed fs fs' /\
  (r = None -> name = "./dockerfile.generated"%string) /\
  exists new, trace fs' = new ++ trace fs /\ fatal succeeded r new.
Proof.
  unfold generateDockerfile.
  destruct (WriteFile env "./dockerfile.generated" _ fs) as [[err|] fs1] eqn:EW;
    pose proof (WriteFile_keeps _ _ _ _ _ _ EW) as Hk;
    apply WriteFile_trace in EW; destruct EW as (new & Ht & Hr);
    intros [= <- <- <-]; (split; [exact Hk|]).
  - split; [discriminate|]. exists new. split; [exact Ht|].
    destruct Hr as (e & rest & -> & Hrest & Hbad & _ & _ & Hpe).
    exists e, rest. split; [reflexivity|]. split; [exact Hrest|]. split; [exact Hbad|].
    exists err. split; [reflexivity|exact Hpe].
  - split; [reflexivity|]. exists new. split; [exact Ht|exact Hr].
Qed.

Lemma shuffle_loop_done_perm (todo : nat) :
  forall i l s l' s', shuffle_loop todo i l s = Done (l', s') -> l' ≡ₚ l.
Proof.
  induction todo as [|todo IH]; intros i l s l' s' Hrun; simpl in Hrun.
  - injection Hrun as <- <-. reflexivity.
  - destruct (Intn (Z.of_nat i + 1) s) as [j s1].
    destruct (j <? 0); [discriminate|].
    destruct (l !! i) as [x|] eqn:Hx; [|discriminate].
    destruct (l !! Z.to_nat j) as [y|] eqn:Hy; [|discriminate].
    apply IH in Hrun. rewrite Hrun.
    pose proof (swap_perm l i (Z.to_nat j)) as Hsw. unfold swap in Hsw.
    rewrite Hx, Hy in Hsw. exact Hsw.
Qed.
End OperationFacts.

Section ImageFacts.
Context {R : RandSource} {D : Docker}.
Variable env : oracle.
Variable header_block : tar.Header -> list byte.

Lemma createArchive_fatal name paths fs r tw fs' :
  createArchive env header_block name paths fs = (r, tw, fs') ->
  nothing_removed fs fs' /\
  exists closing new,
    trace fs' = closing ++ new ++ trace fs /\ closing_calls name closing /\
    fatal succeeded r new.
Proof.
  unfold createArchive. intros H. apply createArchive_with_spec in H.
  destruct H as (Hk & closing & new & Ht & Hr). split; [exact Hk|].
  exists closing, new. split; [exact Ht|].
  destruct r as [err|].
  - destruct Hr as (Hcl & e & rest & cause & -> & Hrest & Hbad & Hpe & Herr).
    split; [exact Hcl|]. exists e, rest. split; [reflexivity|].
    split; [exact Hrest|]. split; [exact Hbad|]. exists cause. split; [|exact Hpe].
    destruct Herr as [->|[(p & _ & [->| ->])|[->| ->]]]; reflexivity.
  - destruct Hr as (Hcl & Hok & _). split; [exact Hcl|exact Hok].
Qed.

(** The stages of a run of [GenerateImage] that returned no error. *)
Lemma GenerateImage_success fuel pwd size count tags f fs r :
  GenerateImage env header_block fuel pwd size count tags f fs = Done r ->
  run_err r = None ->
  exists f0 f1 fs1 f2 fs2 tw fs3,
    imageDir f0 = imageDir f /\ allGeneratedFiles f0 = allGeneratedFiles f /\
    generateRandomFilePool env fuel size count f0 fs = Done (None, f1, fs1) /\
    shuffleGeneratedFilePaths f1 = Done f2 /\
    generateDockerfile env (allGeneratedFiles f2) fs1
    = (("./dockerfile.generated"%string, None), fs2) /\
    createArchive env header_block (path_Join [pwd; "context.tar"%string])
                  (allGeneratedFiles f2 ++ ["./dockerfile.generated"%string]) fs2
    = (None, tw, fs3) /\
    run_archive r = Some tw /\
    allGeneratedFiles (run_factory r) = allGeneratedFiles f2.
Proof.
  unfold GenerateImage.
  set (f0 := match logger f with
             | None => set_logger (Some {| prefix := ""; flag := 3 |}) f
             | Some _ => f
             end).
  assert (Hdir : imageDir f0 = imageDir f) by (unfold f0; destruct (logger f); reflexivity).
  assert (Hfiles : allGeneratedFiles f0 = allGeneratedFiles f)
    by (unfold f0; destruct (logger f); reflexivity).
  destruct (generateRandomFilePool env fuel size count f0 fs)
    as [[[[err|] f1] fs1]| |] eqn:EP; try discriminate.
  { intros [= <-]. discriminate. }
  destruct (shuffleGeneratedFilePaths f1) as [f2| |] eqn:ES; try discriminate.
  destruct (generateDockerfile env (allGeneratedFiles f2) fs1) as [[name [err|]] fs2] eqn:ED.
  { intros [= <-]. discriminate. }
  pose proof (generateDockerfile_fatal _ _ _ _ _ _ ED) as (_ & Hname & _).
  rewrite (Hname eq_refl) in *.
  destruct (createArchive env header_block _ _ fs2) as [[[err|] tw] fs3] eqn:EA.
  { intros [= <-]. discriminate. }
  intros Hrun Herr.
  exists f0, f1, fs1, f2, fs2, tw, fs3.
  split; [exact Hdir|]. split; [exact Hfiles|]. split; [first [exact EP|reflexivity]|].
  split; [first [exact ES|reflexivity]|]. split; [first [exact ED|reflexivity]|].
  split; [first [exact EA|reflexivity]|].
  unfold getDockerClient in Hrun.
  destruct (dockerClient f2) as [cli|].
  - destruct (Open env _ fs3) as [[ctx|err] fs4]; [|injection Hrun as <-; discriminate].
    destruct (ImageBuild cli ctx _ tags); injection Hrun as <-; [|discriminate].
    split; reflexivity.
  - destruct NewEnvClient as [cli|err]; [|injection Hrun as <-; discriminate].
    destruct (Open env _ fs3) as [[ctx|err] fs4]; [|injection Hrun as <-; discriminate].
    destruct (ImageBuild cli ctx _ tags); injection Hrun as <-; [|discriminate].
    split; reflexivity.
Qed.

Lemma Legacy_GenerateImage_success fuel pwd lf g fs r :
  Legacy.GenerateImage env header_block fuel pwd lf g fs = Done r ->
  Legacy.run_err r = None ->
  exists lf1 fs1 lf2 g2 fs2 tw fs3,
    Legacy.generateRandomFilePool env fuel lf fs = Done (None, lf1, fs1) /\
    Legacy.shuffleGeneratedFilePaths lf1 g = Done (lf2, g2) /\
    generateDockerfile env (Legacy.allGeneratedFiles lf2) fs1
    = (("./dockerfile.generated"%string, None), fs2) /\
    Legacy.createArchive env header_block (path_Join [pwd; "context.tar"%string])
                  (Legacy.allGeneratedFiles lf2 ++ ["./dockerfile.generated"%string]) fs2
    = (None, tw, fs3) /\
    Legacy.run_archive r = Some tw /\
    Legacy.allGeneratedFiles (Legacy.run_factory r) = Legacy.allGeneratedFiles lf2.
Proof.
  unfold Legacy.GenerateImage.
  destruct (Legacy.generateRandomFilePool env fuel lf fs)
    as [[[[err|] lf1] fs1]| |] eqn:EP; try discriminate.
  { intros [= <-]. discriminate. }
  destruct (Legacy.shuffleGeneratedFilePaths lf1 g) as [[lf2 g2]| |] eqn:ES;
    try discriminate.
  destruct (generateDockerfile env (Legacy.allGeneratedFiles lf2) fs1)
    as [[name [err|]] fs2] eqn:ED.
  { intros [= <-]. discriminate. }
  pose proof (generateDockerfile_fatal _ _ _ _ _ _ ED) as (_ & Hname & _).
  rewrite (Hname eq_refl) in *.
  destruct (Legacy.createArchive env header_block _ _ fs2) as [[[err|] tw] fs3] eqn:EA.
  { intros [= <-]. discriminate. }
  intros Hrun Herr.
  exists lf1, fs1, lf2, g2, fs2, tw, fs3.
  split; [first [exact EP|reflexivity]|]. split; [first [exact ES|reflexivity]|].
  split; [first [exact ED|reflexivity]|]. split; [first [exact EA|reflexivity]|].
  unfold Legacy.getDockerClient in Hrun.
  destruct (Legacy.dockerClient lf2) as [cli|].
  - destruct (Open env _ fs3) as [[ctx|err] fs4]; [|injection Hrun as <-; discriminate].
    destruct (ImageBuild cli ctx _ _); injection Hrun as <-; [|discriminate].
    split; reflexivity.
  - destruct NewClientWithOpts as [cli|err]; [|injection Hrun as <-; discriminate].
    destruct (Open env _ fs3) as [[ctx|err] fs4]; [|injection Hrun as <-; discriminate].
    destruct (ImageBuild cli ctx _ _); injection Hrun as <-; [|discriminate].
    split; reflexivity.
Qed.
End ImageFacts.

(** C8: a run of [GenerateImage] that returned no error, on a factory that
    had recorded no path yet (as [NewRandomImageFactory] and the build command
    make it), leaves an archive of exactly [layerCount + 1] entries.  Their
    names are the recorded paths, a permutation of the pool's paths, in the
    shuffled order, followed by the manifest last; each entry has the mode
    0600 and a size field equal to the length of the bytes written for it. *)
Theorem archive_entries `{R : RandSource} `{D : Docker}
        (env : oracle) (header_block : tar.Header -> list byte)
        (fuel : nat) (pwd : string) :
  (forall size count tags (f : RandomImageFactory) fs r,
      allGeneratedFiles f = [] ->
      GenerateImage env header_block fuel pwd size count tags f fs = Done r ->
      run_err r = None ->
      exists tw,
        run_archive r = Some tw /\
        length (tar.entries tw) = (N.to_nat count + 1)%nat /\
        entry_names (tar.entries tw)
        = allGeneratedFiles (run_factory r) ++ ["./dockerfile.generated"%string] /\
        allGeneratedFiles (run_factory r) ≡ₚ pool_paths (imageDir f) size count /\
        Forall entry_ok (tar.entries tw)) /\
  (forall (lf : Legacy.RandomImageFactory) g fs r,
      Legacy.allGeneratedFiles lf = [] ->
      Legacy.GenerateImage env header_block fuel pwd lf g fs = Done r ->
      Legacy.run_err r = None ->
      exists tw,
        Legacy.run_archive r = Some tw /\
        length (tar.entries tw) = (N.to_nat (Legacy.LayerCount lf) + 1)%nat /\
        entry_names (tar.entries tw)
        = Legacy.allGeneratedFiles (Legacy.run_factory r) ++ ["./dockerfile.generated"%string] /\
        Legacy.allGeneratedFiles (Legacy.run_factory r)
        ≡ₚ pool_paths Legacy.imageDir (Legacy.LayerSizeKB lf) (Legacy.LayerCount lf) /\
        Forall entry_ok (tar.entries tw)).
Proof.
  split.
  - intros size count tags f fs r Hfresh Hrun Herr.
    destruct (GenerateImage_success _ _ _ _ _ _ _ _ _ _ Hrun Herr)
      as (f0 & f1 & fs1 & f2 & fs2 & tw & fs3 & Hdir & Hfiles & HP & HS & HD & HA & Harch & Hlist).
    exists tw. split; [exact Harch|].
    unfold generateRandomFilePool in HP.
    apply (pool_paths_spec env RandomImageFactory _ _ allGeneratedFiles) in HP.
    2: { intros p f'. reflexivity. }
    2: { intros fuel' n f' b f'' Hg. unfold randBytes in Hg.
         destruct (randBytes_from fuel' n (src f')) as [[x s]| |]; try discriminate.
         injection Hg as <- <-. reflexivity. }
    rewrite Hfiles, Hfresh, Hdir in HP. simpl in HP.
    assert (Hperm : allGeneratedFiles f2 ≡ₚ pool_paths (imageDir f) size count).
    { unfold shuffleGeneratedFilePaths in HS.
      destruct (shuffle (allGeneratedFiles f1) (src f1)) as [[l s]| |] eqn:E; try discriminate.
      injection HS as <-. simpl. apply shuffle_loop_done_perm in E. rewrite E, HP.
      reflexivity. }
    unfold createArchive in HA. apply createArchive_with_spec in HA.
    destruct HA as (_ & closing & new & _ & _ & _ & Hnames & Hok & _).
    rewrite Hlist.
    split.
    { rewrite <- (length_map (fun e => tar.Name (tar.hdr e))).
      fold (entry_names (tar.entries tw)). rewrite Hnames, length_app, Hperm.
      unfold pool_paths. rewrite length_map, length_seq. reflexivity. }
    split; [exact Hnames|]. split; [exact Hperm|exact Hok].
  - intros lf g fs r Hfresh Hrun Herr.
    destruct (Legacy_GenerateImage_success _ _ _ _ _ _ _ _ Hrun Herr)
      as (lf1 & fs1 & lf2 & g2 & fs2 & tw & fs3 & HP & HS & HD & HA & Harch & Hlist).
    exists tw. split; [exact Harch|].
    unfold Legacy.generateRandomFilePool in HP.
    apply (pool_paths_spec env Legacy.RandomImageFactory _ _ Legacy.allGeneratedFiles) in HP.
    2: { intros p f'. reflexivity. }
    2: { intros fuel' n f' b f'' Hg. unfold Legacy.randBytes in Hg.
         destruct (randBytes_from fuel' n _) as [[x s]| |]; try discriminate.
         injection Hg as <- <-. reflexivity. }
    rewrite Hfresh in HP. simpl in HP.
    assert (Hperm : Legacy.allGeneratedFiles lf2
                    ≡ₚ pool_paths Legacy.imageDir (Legacy.LayerSizeKB lf) (Legacy.LayerCount lf)).
    { unfold Legacy.shuffleGeneratedFilePaths in HS.
      destruct (shuffle (Legacy.allGeneratedFiles lf1) g) as [[l s]| |] eqn:E;
        try discriminate.
      injection HS as <- <-. simpl. apply shuffle_loop_done_perm in E. rewrite E, HP.
      reflexivity. }
    unfold Legacy.createArchive in HA. apply createArchive_with_spec in HA.
    destruct HA as (_ & closing & new & _ & _ & _ & Hnames & Hok & _).
    rewrite Hlist.
    split.
    { rewrite <- (length_map (fun e => tar.Name (tar.hdr e))).
      fold (entry_names (tar.entries tw)). rewrite Hnames, length_app, Hperm.
      unfold pool_paths. rewrite length_map, length_seq. reflexivity. }
    split; [exact Hnames|]. split; [exact Hperm|exact Hok].
Qed.

Lemma DemoImage_image_run_eq : DemoImage.image_run = Done DemoImage.image_result.
Proof.
  vm_cast_no_check
    (@eq_refl _ (@Done (@run Demo.source Demo.docker) DemoImage.image_result)).
Qed.

Lemma archive_entries_witness :
  allGeneratedFiles DemoBuild.factory = [] /\
  GenerateImage Demo.calm Demo.header_block 2000 DemoImage.pwd 1 2 DemoImage.tags
                DemoBuild.factory Demo.empty_fs = Done DemoImage.image_result /\
  run_err DemoImage.image_result = None /\
  exists tw,
    run_archive DemoImage.image_result = Some tw /\
    length (tar.entries tw) = (N.to_nat 2 + 1)%nat /\
    entry_names (tar.entries tw)
    = allGeneratedFiles (run_factory DemoImage.image_result)
      ++ ["./dockerfile.generated"%string] /\
    allGeneratedFiles (run_factory DemoImage.image_result)
    ≡ₚ pool_paths (imageDir DemoBuild.factory) 1 2 /\
    Forall entry_ok (tar.entries tw).
Proof.
  split; [reflexivity|]. split; [exact DemoImage_image_run_eq|]. split; [reflexivity|].
  exact (proj1 (@archive_entries Demo.source Demo.docker Demo.calm Demo.header_block
                                 2000%nat DemoImage.pwd)
               1%N 2%N DemoImage.tags DemoBuild.factory Demo.empty_fs DemoImage.image_result
               eq_refl DemoImage_image_run_eq eq_refl).
Defined.

(** C9, as the code has it: the first failing call is fatal.  For the pool
    of both variants, the manifest, and [createArchive] of the variant that
    owns its source: the calls an operation makes are allowed ones ([os.Stat]
    answering "not found" is one, in the pool) up to its return; when it
    returns an error, the newest of its calls is a failed one, nothing was
    called after it (no retry), and the error wraps the [*PathError] of that
    call, which names the operation, the path and the error number.  No file
    is removed.  [createArchive] makes one more call after its loop, the
    trailer write of the deferred [tw.Close()], whose result it drops. *)
Theorem first_failure_is_fatal `{R : RandSource} `{D : Docker}
        (env : oracle) (header_block : tar.Header -> list byte) :
  (forall fuel size count (f : RandomImageFactory) fs r f' fs',
      generateRandomFilePool env fuel size count f fs = Done (r, f', fs') ->
      nothing_removed fs fs' /\
      exists new, trace fs' = new ++ trace fs /\ fatal succeeded_or_not_found r new) /\
  (forall fuel (lf : Legacy.RandomImageFactory) fs r lf' fs',
      Legacy.generateRandomFilePool env fuel lf fs = Done (r, lf', fs') ->
      nothing_removed fs fs' /\
      exists new, trace fs' = new ++ trace fs /\ fatal succeeded_or_not_found r new) /\
  (forall paths fs name r fs',
      generateDockerfile env paths fs = ((name, r), fs') ->
      nothing_removed fs fs' /\
      exists new, trace fs' = new ++ trace fs /\ fatal succeeded r new) /\
  (forall name paths fs r tw fs',
      createArchive env header_block name paths fs = (r, tw, fs') ->
      nothing_removed fs fs' /\
      exists closing new,
        trace fs' = closing ++ new ++ trace fs /\ closing_calls name closing /\
        fatal succeeded r new).
Proof.
  split; [|split; [|split]].
  - intros fuel size count f fs r f' fs' H. unfold generateRandomFilePool in H.
    eapply pool_fatal. exact H.
  - intros fuel lf fs r lf' fs' H. unfold Legacy.generateRandomFilePool in H.
    eapply pool_fatal. exact H.
  - intros paths fs name r fs' H. apply generateDockerfile_fatal in H.
    destruct H as (Hk & _ & Hnew). split; assumption.
  - intros name paths fs r tw fs' H. eapply createArchive_fatal. exact H.
Qed.

Lemma DemoImage_denied_archive_eq :
  DemoImage.denied_archive
  = (DemoImage.denied_err, DemoImage.denied_writer, DemoImage.denied_fs).
Proof.
  vm_cast_no_check
    (@eq_refl _ (DemoImage.denied_err, DemoImage.denied_writer, DemoImage.denied_fs)).
Qed.

Lemma first_failure_is_fatal_witness :
  createArchive DemoImage.denied_at_stat Demo.header_block "/home/u/context.tar"
                ["layer.txt"%string] Demo.empty_fs
  = (DemoImage.denied_err, DemoImage.denied_writer, DemoImage.denied_fs) /\
  is_Some DemoImage.denied_err /\
  (nothing_removed Demo.empty_fs DemoImage.denied_fs /\
   exists closing new,
     trace DemoImage.denied_fs = closing ++ new ++ trace Demo.empty_fs /\
     closing_calls "/home/u/context.tar" closing /\
     fatal succeeded DemoImage.denied_err new).
Proof.
  split; [exact DemoImage_denied_archive_eq|]. split; [eexists; reflexivity|].
  exact (proj2 (proj2 (proj2 (@first_failure_is_fatal Demo.source Demo.docker
                                DemoImage.denied_at_stat Demo.header_block)))
               "/home/u/context.tar"%string ["layer.txt"%string] Demo.empty_fs
               DemoImage.denied_err DemoImage.denied_writer DemoImage.denied_fs
               DemoImage_denied_archive_eq).
Defined.

Lemma DemoImage_trailer_run_eq : DemoImage.trailer_run = Done DemoImage.trailer_result.
Proof.
  vm_cast_no_check
    (@eq_refl _ (@Done (@run Demo.source Demo.docker) DemoImage.trailer_result)).
Qed.

(** C9 as stated fails when the disk is full at the write of the archive
    trailer: the write fails with [ENOSPC], and [GenerateImage] returns no
    error. *)
Lemma trailer_failure_is_dropped :
  GenerateImage DemoImage.disk_full_at_trailer Demo.header_block 2000 DemoImage.pwd 1 2
                DemoImage.tags DemoBuild.factory Demo.empty_fs
  = Done DemoImage.trailer_result /\
  run_err DemoImage.trailer_result = None /\
  In DemoImage.trailer_call (trace (run_fs DemoImage.trailer_result)).
Proof.
  split; [exact DemoImage_trailer_run_eq|]. split; [reflexivity|].
  vm_compute. right. left. reflexivity.
Qed.

(** In the struct-field variant the error [createArchive] builds when
    [os.Stat] fails has the error as the operand of [%q] and nothing for
    [%w]: it wraps nothing. *)
Remark legacy_createArchive_stat_error :
  fst (fst (Legacy.createArchive Demo.calm Demo.header_block
                                 "/home/u/context.tar" ["missing.txt"%string] Demo.empty_fs))
  = Some (errorString
            ("failed to read file info "
               +:+ Quote "stat missing.txt: no such file or directory"
               +:+ ": %!w(MISSING)")) /\
  fst (fst (createArchive Demo.calm Demo.header_block
                          "/home/u/context.tar" ["missing.txt"%string] Demo.empty_fs))
  = Some (wrapError
            ("failed to read file info " +:+ Quote "missing.txt"
               +:+ ": stat missing.txt: no such file or directory")
            (PathError "stat" "missing.txt" (Errno ENOENT))).
Proof.
  split; vm_compute; reflexivity.
Qed.

(** * Further properties of the package *)

(** ** Decimal names and path elements *)

Lemma string_app_inj_l (a x y : string) : a +:+ x = a +:+ y -> x = y.
Proof.
  induction a as [|c a IH]; [trivial|].
  rewrite !string_app_cons. intros [= H]. exact (IH H).
Qed.

Lemma string_length_app (a b : string) :
  String.length (a +:+ b) = (String.length a + String.length b)%nat.
Proof.
  induction a as [|c a IH]; [reflexivity|].
  rewrite string_app_cons. simpl. rewrite IH. reflexivity.
Qed.

Lemma string_app_inj_r (c : string) : forall x y, x +:+ c = y +:+ c -> x = y.
Proof.
  induction x as [|a x IH]; intros [|b y] H.
  - reflexivity.
  - apply (f_equal String.length) in H.
    rewrite string_app_nil_l, string_app_cons in H. simpl in H.
    rewrite string_length_app in H. lia.
  - apply (f_equal String.length) in H.
    rewrite string_app_nil_l, string_app_cons in H. simpl in H.
    rewrite string_length_app in H. lia.
  - rewrite !string_app_cons in H. injection H as -> H. f_equal. exact (IH _ H).
Qed.

Lemma to_int_not_nil (z : Z) : Z.to_int z <> Decimal.Pos Decimal.Nil /\
                               Z.to_int z <> Decimal.Neg Decimal.Nil.
Proof.
  destruct z as [|p|p]; simpl; split; try discriminate;
    intros [= H]; exact (DecimalPos.Unsigned.to_uint_nonnil p H).
Qed.

(** [%d] can be read back: two integers with the same decimal text are equal. *)
Lemma itoa_inj (a b : Z) : itoa a = itoa b -> a = b.
Proof.
  unfold itoa. intros H. apply (f_equal NilZero.int_of_string) in H.
  destruct (to_int_not_nil a) as [Ha1 Ha2]. destruct (to_int_not_nil b) as [Hb1 Hb2].
  rewrite !NilZero.isi in H by assumption. injection H as H.
  rewrite <- (DecimalZ.of_to a), <- (DecimalZ.of_to b), H. reflexivity.
Qed.

Lemma uint_chars P (d : Decimal.uint) :
  (forall c, In c (list_ascii_of_string "0123456789") -> P c) ->
  all_chars P (NilEmpty.string_of_uint d).
Proof.
  intros HP. induction d; simpl; try exact I;
    (split; [apply HP; simpl; tauto|exact IHd]).
Qed.

(** The decimal text of an integer: not empty, made of digits and a sign. *)
Lemma itoa_chars P (z : Z) :
  (forall c, In c (list_ascii_of_string "-0123456789") -> P c) ->
  all_chars P (itoa z) /\ itoa z <> ""%string.
Proof.
  intros HP.
  assert (HP' : forall c, In c (list_ascii_of_string "0123456789") -> P c).
  { intros c Hc. apply HP. right. exact Hc. }
  unfold itoa, NilZero.string_of_int, NilZero.string_of_uint.
  destruct (Z.to_int z) as [d|d].
  - destruct d; simpl; (split; [|discriminate]);
      try (split; [apply HP; simpl; tauto|]); try exact I; apply uint_chars, HP'.
  - split; [|discriminate]. split; [apply HP; simpl; tauto|].
    destruct d; simpl; try (split; [apply HP; simpl; tauto|]); try exact I;
      apply uint_chars, HP'.
Qed.

(** ** Splitting and cleaning paths *)

Lemma split_on_not_nil sep (s : string) : split_on sep s <> [].
Proof.
  destruct s as [|c s]; simpl; [discriminate|].
  destruct (Ascii.eqb c sep); [discriminate|].
  destruct (split_on sep s); discriminate.
Qed.

Lemma split_slash_free (s : string) : slash_free s -> split_on "/" s = [s].
Proof.
  induction s as [|c s IH]; simpl; [reflexivity|]. intros [Hc Hs].
  destruct (Ascii.eqb_spec c "/") as [->|_]; [contradiction|].
  rewrite (IH Hs). reflexivity.
Qed.

Lemma split_parts_slash_free (s : string) : Forall slash_free (split_on "/" s).
Proof.
  induction s as [|c s IH]; simpl; [repeat constructor|].
  destruct (Ascii.eqb_spec c "/") as [->|Hc].
  - constructor; [exact I|exact IH].
  - destruct (split_on "/" s) as [|w ws]; [repeat constructor; assumption|].
    inversion IH; subst. constructor; [split; assumption|assumption].
Qed.

Lemma split_app (a b : string) :
  split_on "/" (a +:+ "/" +:+ b) = split_on "/" a ++ split_on "/" b.
Proof.
  induction a as [|c a IH].
  - reflexivity.
  - rewrite string_app_cons. simpl. rewrite IH.
    destruct (Ascii.eqb c "/"); [reflexivity|].
    pose proof (split_on_not_nil "/" a) as Hne.
    destruct (split_on "/" a) as [|w ws]; [contradiction|reflexivity].
Qed.

Lemma split_join (es : list string) :
  es <> [] -> Forall slash_free es -> split_on "/" (join_with "/" es) = es.
Proof.
  induction es as [|x es IH]; intros Hne Hall; [contradiction|].
  inversion Hall as [|? ? Hx Hes]; subst.
  destruct es as [|y es].
  - simpl. apply split_slash_free, Hx.
  - change (join_with "/" (x :: y :: es)) with (x +:+ "/" +:+ join_with "/" (y :: es)).
    rewrite split_app, (split_slash_free x Hx), IH; [reflexivity|discriminate|exact Hes].
Qed.

Lemma kept_element_eqb (e : string) :
  kept_element e ->
  (String.eqb e "" || String.eqb e ".")%bool = false /\ String.eqb e ".." = false.
Proof.
  intros (_ & H1 & H2 & H3).
  destruct (String.eqb_spec e "") as [->|_]; [contradiction|].
  destruct (String.eqb_spec e ".") as [->|_]; [contradiction|].
  destruct (String.eqb_spec e "..") as [->|_]; [contradiction|].
  split; reflexivity.
Qed.

(** Elements that are kept go through [path.Clean] unchanged. *)
Lemma clean_elems_kept rooted (es : list string) :
  forall stack, Forall kept_element es -> clean_elems rooted stack es = rev stack ++ es.
Proof.
  induction es as [|e es IH]; intros stack Hall; simpl.
  - rewrite app_nil_r. reflexivity.
  - inversion Hall as [|? ? He Hes]; subst.
    destruct (kept_element_eqb e He) as [-> ->].
    rewrite IH by exact Hes. simpl. rewrite <- app_assoc. reflexivity.
Qed.

(** A kept element at the end of a path is still its last element after
    cleaning. *)
Lemma clean_elems_last rooted (name : string) (xs : list string) :
  kept_element name ->
  forall stack,
    Forall slash_free stack -> Forall slash_free xs ->
    exists ys, clean_elems rooted stack (xs ++ [name]) = ys ++ [name] /\
               Forall slash_free ys.
Proof.
  intros Hname. induction xs as [|x xs IH]; intros stack Hst Hxs.
  - simpl. destruct (kept_element_eqb name Hname) as [-> ->]. simpl.
    exists (rev stack). split; [reflexivity|]. apply Forall_rev, Hst.
  - inversion Hxs as [|? ? Hx Hxs']; subst. simpl.
    destruct (String.eqb x "" || String.eqb x "."); [apply IH; assumption|].
    destruct (String.eqb x "..").
    + destruct stack as [|top stack'].
      * destruct rooted; apply IH; try assumption; repeat constructor; assumption.
      * inversion Hst; subst.
        destruct (String.eqb top ".."); apply IH; try assumption.
        constructor; assumption.
    + apply IH; [constructor; assumption|assumption].
Qed.

Lemma join_with_not_empty (ys : list string) (name : string) :
  name <> ""%string -> join_with "/" (ys ++ [name]) <> ""%string.
Proof.
  intros Hname. destruct ys as [|y ys]; simpl; [exact Hname|].
  destruct (ys ++ [name]) eqn:E; [destruct ys; discriminate|].
  destruct y; [rewrite string_app_nil_l|rewrite string_app_cons]; discriminate.
Qed.

Lemma Clean_last (p name : string) (xs : list string) :
  split_on "/" p = xs ++ [name] -> kept_element name ->
  last (split_on "/" (Clean p)) = Some name.
Proof.
  intros Hsplit Hname. unfold Clean. rewrite Hsplit.
  assert (Hxs : Forall slash_free xs).
  { pose proof (split_parts_slash_free p) as H. rewrite Hsplit in H.
    apply Forall_app in H. apply H. }
  destruct (clean_elems_last (is_rooted p) name xs Hname [] ltac:(constructor) Hxs)
    as (ys & -> & Hys).
  assert (Hall : Forall slash_free (ys ++ [name])).
  { apply Forall_app. split; [exact Hys|]. constructor; [apply Hname|constructor]. }
  assert (Hout : split_on "/" (join_with "/" (ys ++ [name])) = ys ++ [name]).
  { apply split_join; [destruct ys; discriminate|exact Hall]. }
  pose proof (join_with_not_empty ys name ltac:(apply Hname)) as Hne.
  destruct (is_rooted p).
  - rewrite string_app_cons, string_app_nil_l. simpl. rewrite Hout.
    rewrite app_comm_cons. apply last_snoc.
  - destruct (String.eqb_spec (join_with "/" (ys ++ [name])) "") as [E|_];
      [contradiction|].
    rewrite Hout. apply last_snoc.
Qed.

(** [path.Join(dir, name)] ends in [name], whatever [dir] is. *)
Lemma path_Join_last (dir name : string) :
  kept_element name -> last (split_on "/" (path_Join [dir; name])) = Some name.
Proof.
  intros Hname. pose proof Hname as (Hsf & Hne & _).
  unfold path_Join. simpl List.filter.
  destruct (String.eqb_spec name "") as [->|_]; [contradiction|].
  destruct (String.eqb_spec dir "") as [->|Hdir]; simpl negb; cbv iota.
  - simpl join_with. apply (Clean_last name name []); [|exact Hname].
    apply split_slash_free, Hsf.
  - change (join_with "/" [dir; name]) with (dir +:+ "/" +:+ name).
    apply (Clean_last _ name (split_on "/" dir)); [|exact Hname].
    rewrite split_app, (split_slash_free name Hsf). reflexivity.
Qed.

Lemma join_with_first (c : ascii) (e : string) (es : list string) :
  exists rest, join_with "/" (String c e :: es) = String c rest.
Proof.
  destruct es as [|y es]; simpl; [eauto|]. rewrite string_app_cons. eauto.
Qed.

Lemma Clean_kept (es : list string) :
  es <> [] -> Forall kept_element es -> Clean (join_with "/" es) = join_with "/" es.
Proof.
  intros Hne Hall.
  assert (Hsf : Forall slash_free es).
  { eapply Forall_impl; [exact Hall|]. intros e He. apply He. }
  unfold Clean. rewrite (split_join es Hne Hsf).
  rewrite (clean_elems_kept _ es [] Hall). simpl rev. rewrite app_nil_l.
  destruct es as [|e es]; [contradiction|]. inversion Hall as [|? ? He _]; subst.
  destruct He as (Hsl & Hnemp & _).
  destruct e as [|c e]; [contradiction|]. destruct Hsl as [Hc _].
  destruct (join_with_first c e es) as [rest ->]. simpl.
  destruct (Ascii.eqb_spec c "/") as [->|_]; [contradiction|reflexivity].
Qed.

(** A leading [./] is dropped. *)
Lemma Clean_dot (es : list string) :
  es <> [] -> Forall kept_element es ->
  Clean ("./" +:+ join_with "/" es) = join_with "/" es.
Proof.
  intros Hne Hall.
  assert (Hsf : Forall slash_free es).
  { eapply Forall_impl; [exact Hall|]. intros e He. apply He. }
  unfold Clean.
  replace ("./" +:+ join_with "/" es) with ("." +:+ "/" +:+ join_with "/" es)
    by reflexivity.
  rewrite split_app, (split_join es Hne Hsf). simpl.
  rewrite (clean_elems_kept _ es [] Hall). simpl rev. rewrite app_nil_l.
  destruct es as [|e es]; [contradiction|]. inversion Hall as [|? ? He _]; subst.
  destruct He as (Hsl & Hnemp & _).
  destruct e as [|c e]; [contradiction|].
  destruct (join_with_first c e es) as [rest ->]. reflexivity.
Qed.

(** ** The names of the pool *)

Lemma path_Join2 (a b : string) :
  a <> ""%string -> b <> ""%string -> path_Join [a; b] = Clean (a +:+ "/" +:+ b).
Proof.
  intros Ha Hb. unfold path_Join. simpl List.filter.
  destruct (String.eqb_spec a "") as [->|_]; [contradiction|].
  destruct (String.eqb_spec b "") as [->|_]; [contradiction|].
  reflexivity.
Qed.

Lemma Sprintf_pool_name (size i : N) :
  Sprintf "random_%dKB_%d.txt" [OInt (Z.of_N size); OInt (Z.of_N i)] = pool_name size i.
Proof. reflexivity. Qed.

Lemma itoa_kept (z : Z) : kept_element (itoa z).
Proof.
  destruct (itoa_chars (fun c => c <> "/"%char /\ c <> "."%char) z) as [Hall Hne].
  { intros c Hc. simpl in Hc.
    repeat (destruct Hc as [<-|Hc]; [split; discriminate|]). destruct Hc. }
  split; [|split; [exact Hne|]].
  - clear Hne. induction (itoa z) as [|c s IH]; [exact I|].
    destruct Hall as [[Hc _] Hs]. split; [exact Hc|exact (IH Hs)].
  - split; intros E; rewrite E in Hall; simpl in Hall; destruct Hall as [[_ H] _];
      apply H; reflexivity.
Qed.

Lemma pool_name_kept (size i : N) : kept_element (pool_name size i).
Proof.
  unfold pool_name. split; [|split; [|split]]; try discriminate.
  unfold slash_free. rewrite !all_chars_app. simpl.
  repeat split; try discriminate; apply itoa_kept.
Qed.

(** A decimal text followed by a letter: the text can be read off. *)
Lemma digits_then_letter (x y r r' : string) (k : ascii) :
  all_chars (fun c => c <> k) x -> all_chars (fun c => c <> k) y ->
  x +:+ String k r = y +:+ String k r' -> x = y /\ r = r'.
Proof.
  revert y. induction x as [|a x IH]; intros [|b y] Hx Hy H.
  - rewrite !string_app_nil_l in H. injection H as ->. split; reflexivity.
  - rewrite string_app_nil_l, string_app_cons in H. injection H as -> _.
    destruct Hy as [Hb _]. contradiction.
  - rewrite string_app_nil_l, string_app_cons in H. injection H as -> _.
    destruct Hx as [Ha _]. contradiction.
  - rewrite !string_app_cons in H. injection H as -> H.
    destruct Hx as [_ Hx]. destruct Hy as [_ Hy].
    destruct (IH y Hx Hy H) as [-> ->]. split; reflexivity.
Qed.

Lemma itoa_no_letter (k : ascii) (z : Z) :
  ~ In k (list_ascii_of_string "-0123456789") -> all_chars (fun c => c <> k) (itoa z).
Proof.
  intros Hk. apply itoa_chars. intros c Hc ->. exact (Hk Hc).
Qed.

Lemma pool_name_inj (size i size' i' : N) :
  pool_name size i = pool_name size' i' -> size = size' /\ i = i'.
Proof.
  unfold pool_name. intros H. apply string_app_inj_l in H.
  assert (HK : ~ In "K"%char (list_ascii_of_string "-0123456789")).
  { simpl. intros Hin. repeat (destruct Hin as [Hin|Hin]; [discriminate|]). exact Hin. }
  assert (Hdot : ~ In "."%char (list_ascii_of_string "-0123456789")).
  { simpl. intros Hin. repeat (destruct Hin as [Hin|Hin]; [discriminate|]). exact Hin. }
  change ("KB_" +:+ ?x) with (String "K" ("B_" +:+ x)) in H.
  apply digits_then_letter in H; try (apply itoa_no_letter; exact HK).
  destruct H as [Hs H]. apply string_app_inj_l in H.
  change ".txt"%string with (String "." "txt") in H.
  apply digits_then_letter in H; try (apply itoa_no_letter; exact Hdot).
  destruct H as [Hi _].
  apply itoa_inj in Hs. apply itoa_inj in Hi. split; lia.
Qed.

Lemma filePath_last (dir : string) (size i : N) :
  last (split_on "/" (filePath dir size i)) = Some (pool_name size i).
Proof.
  unfold filePath. rewrite Sprintf_pool_name. apply path_Join_last, pool_name_kept.
Qed.

Lemma filePath_inj (dir : string) (size i size' i' : N) :
  filePath dir size i = filePath dir size' i' -> size = size' /\ i = i'.
Proof.
  intros H. apply pool_name_inj.
  pose proof (filePath_last dir size i) as H1. rewrite H, filePath_last in H1.
  congruence.
Qed.

(** X1: the paths of a pool are pairwise distinct, whatever the directory:
    [path.Join(dir, "random_<size>KB_<i>.txt")] determines the layer size and
    the index, so the [count] paths of a pool have no duplicate and pools of
    different layer sizes in one directory never share a file. *)
Theorem pool_paths_distinct (dir : string) (size count : N) :
  (forall i size' i', filePath dir size i = filePath dir size' i' -> size = size' /\ i = i') /\
  NoDup (pool_paths dir size count) /\
  length (pool_paths dir size count) = N.to_nat count.
Proof.
  split; [intros i size' i'; apply filePath_inj|]. split.
  - unfold pool_paths.
    change (NoDup ((fun k : nat => filePath dir size (N.of_nat k)) <$> seq 0 (N.to_nat count))).
    apply NoDup_fmap_2; [|apply NoDup_seq].
    intros a b H. apply filePath_inj in H. lia.
  - unfold pool_paths. rewrite length_map, length_seq. reflexivity.
Qed.

Lemma pool_paths_distinct_witness :
  filePath "generated-files" 1 0 = filePath "generated-files" 1 0 /\
  (1 = 1 /\ 0 = 0)%N.
Proof.
  split; [reflexivity|].
  exact (proj1 (pool_paths_distinct "generated-files" 1 2) 0%N 1%N 0%N eq_refl).
Defined.

(** ** The factory of a seed *)

Lemma fold_WithLogger (ls : list Logger) `{R : RandSource} `{D : Docker} :
  forall f : RandomImageFactory,
    let f' := fold_left (fun f opt => opt f) (map WithLogger ls) f in
    imageDir f' = imageDir f /\ src f' = src f /\ dockerClient f' = dockerClient f /\
    allGeneratedFiles f' = allGeneratedFiles f /\
    logger f' = match last ls with Some l => Some l | None => logger f end.
Proof.
  induction ls as [|l ls IH]; intros f; simpl.
  - repeat split.
  - destruct (IH (WithLogger l f)) as (H1 & H2 & H3 & H4 & H5).
    rewrite H1, H2, H3, H4, H5. repeat split.
    destruct ls as [|l' ls']; [reflexivity|]. simpl.
    destruct (last (l' :: ls')) eqn:E; [reflexivity|].
    apply last_None in E. discriminate.
Qed.

Lemma seed_dir (seed : Z) :
  path_Join [baseImageDir; Sprintf "%d" [OInt seed]] = "generated-files/" +:+ itoa seed.
Proof.
  pose proof (itoa_kept seed) as Hk.
  assert (HS : Sprintf "%d" [OInt seed] = itoa seed).
  { simpl. apply string_app_nil_r. }
  rewrite HS, path_Join2; [|discriminate|apply Hk].
  apply (Clean_dot ["generated-files"%string; itoa seed]); [discriminate|].
  constructor; [|constructor; [exact Hk|constructor]].
  split; [|split; [|split]]; try discriminate. simpl. repeat split; discriminate.
Qed.

Lemma factory_dir `{R : RandSource} `{D : Docker} (seed : Z) (ls : list Logger) :
  imageDir (NewRandomImageFactory seed (map WithLogger ls)) = "generated-files/" +:+ itoa seed.
Proof.
  unfold NewRandomImageFactory.
  destruct (fold_WithLogger ls {| imageDir := path_Join [baseImageDir; Sprintf "%d" [OInt seed]];
                                  src := NewSource seed; dockerClient := None;
                                  allGeneratedFiles := []; logger := None |})
    as (H & _). rewrite H. apply seed_dir.
Qed.

(** X2: [NewRandomImageFactory(seed, WithLogger(l1), ..)] has the directory
    [generated-files/<seed>], the source seeded with [seed], no recorded path
    and no client; the options only set the logger, the last one winning.
    Different seeds give different directories. *)
Theorem NewRandomImageFactory_fields `{R : RandSource} `{D : Docker}
        (seed : Z) (ls : list Logger) :
  let f := NewRandomImageFactory seed (map WithLogger ls) in
  imageDir f = "generated-files/" +:+ itoa seed /\
  src f = NewSource seed /\
  allGeneratedFiles f = [] /\
  dockerClient f = None /\
  logger f = last ls /\
  (forall seed' ls',
      imageDir (NewRandomImageFactory seed' (map WithLogger ls')) = imageDir f ->
      seed' = seed).
Proof.
  pose proof (fun s l => factory_dir s l) as Hdir.
  intros f.
  assert (Hinj : forall seed' ls',
             imageDir (NewRandomImageFactory seed' (map WithLogger ls')) = imageDir f ->
             seed' = seed).
  { intros seed' ls' H. unfold f in H. rewrite !Hdir in H.
    apply string_app_inj_l in H. apply itoa_inj, H. }
  split; [apply Hdir|].
  unfold f, NewRandomImageFactory.
  destruct (fold_WithLogger ls {| imageDir := path_Join [baseImageDir; Sprintf "%d" [OInt seed]];
                                  src := NewSource seed; dockerClient := None;
                                  allGeneratedFiles := []; logger := None |})
    as (_ & H2 & H3 & H4 & H5).
  split; [exact H2|]. split; [exact H4|]. split; [exact H3|].
  split; [rewrite H5; simpl; destruct (last ls); reflexivity|].
  exact Hinj.
Qed.

Lemma NewRandomImageFactory_fields_witness :
  imageDir (NewRandomImageFactory (R := Demo.source) (D := Demo.docker) 7
                                  (map WithLogger [{| prefix := "x"; flag := 0 |}]))
  = imageDir (NewRandomImageFactory (R := Demo.source) (D := Demo.docker) 7
                                    (map WithLogger [])) /\
  7 = 7.
Proof.
  split; [reflexivity|].
  exact (proj2 (proj2 (proj2 (proj2 (proj2
           (@NewRandomImageFactory_fields Demo.source Demo.docker 7 [])))))
           7 [{| prefix := "x"; flag := 0 |}] eq_refl).
Defined.

(** X3: the path of the [i]-th file.  With the factory of a seed it is
    [generated-files/<seed>/random_<size>KB_<i>.txt]; in the struct-field
    variant it is [generated-files/random_<size>KB_<i>.txt], the same for
    every seed. *)
Theorem filePath_shape (seed : Z) (size i : N) :
  filePath (path_Join [baseImageDir; Sprintf "%d" [OInt seed]]) size i
  = "generated-files/" +:+ itoa seed +:+ "/" +:+ pool_name size i /\
  filePath Legacy.imageDir size i = "generated-files/" +:+ pool_name size i.
Proof.
  pose proof (pool_name_kept size i) as Hn. pose proof (itoa_kept seed) as Hs.
  assert (Hg : kept_element "generated-files").
  { split; [|split; [|split]]; try discriminate. simpl. repeat split; discriminate. }
  unfold filePath. rewrite Sprintf_pool_name. split.
  - rewrite seed_dir, path_Join2; [| |apply Hn].
    + apply (Clean_kept ["generated-files"%string; itoa seed; pool_name size i]);
        [discriminate|].
      constructor; [exact Hg|constructor; [exact Hs|constructor; [exact Hn|constructor]]].
    + discriminate.
  - rewrite path_Join2; [|discriminate|apply Hn].
    apply (Clean_dot ["generated-files"%string; pool_name size i]); [discriminate|].
    constructor; [exact Hg|constructor; [exact Hn|constructor]].
Qed.

(** ** What the pool writes *)

Lemma wrap64_small (z : Z) : - 2 ^ 63 <= z < 2 ^ 63 -> wrap64 z = z.
Proof. intros H. unfold wrap64. rewrite Z.mod_small by lia. lia. Qed.

Lemma layer_bytes_small (size : N) :
  (size < 2 ^ 53)%N -> layer_bytes size = 1024 * Z.of_N size.
Proof.
  intros H. unfold layer_bytes, int_of_uint.
  assert (H' : 0 <= Z.of_N size < 2 ^ 53).
  { split; [lia|]. change (2 ^ 53) with (Z.of_N (2 ^ 53)). lia. }
  rewrite (wrap64_small (Z.of_N size)) by lia. apply wrap64_small. lia.
Qed.

(** X4: the files a pool creates.  After a pool that returned no error,
    every file that was not there before holds [1024*int(layerSizeKB)] bytes
    (computed in 64 bits), all of them letters; for a layer size below
    [2^53] KB that is [1024 * layerSizeKB] bytes.  In both variants. *)
Theorem pool_file_contents `{R : RandSource} `{D : Docker} (env : oracle) (fuel : nat) :
  (forall size count (f : RandomImageFactory) fs f' fs',
      generateRandomFilePool env fuel size count f fs = Done (None, f', fs') ->
      forall q nd,
        files fs !! q = None -> files fs' !! q = Some nd ->
        len (data nd) = layer_bytes size /\ Forall is_alpha (data nd) /\
        ((size < 2 ^ 53)%N -> len (data nd) = 1024 * Z.of_N size)) /\
  (forall (lf : Legacy.RandomImageFactory) fs lf' fs',
      Legacy.generateRandomFilePool env fuel lf fs = Done (None, lf', fs') ->
      forall q nd,
        files fs !! q = None -> files fs' !! q = Some nd ->
        len (data nd) = layer_bytes (Legacy.LayerSizeKB lf) /\ Forall is_alpha (data nd) /\
        ((Legacy.LayerSizeKB lf < 2 ^ 53)%N ->
         len (data nd) = 1024 * Z.of_N (Legacy.LayerSizeKB lf))).
Proof.
  split.
  - intros size count f fs f' fs' Hrun q nd Hq Hq'.
    unfold generateRandomFilePool in Hrun.
    destruct (pool_new_files env RandomImageFactory
                (fun p f => set_files (allGeneratedFiles f ++ [p]) f)
                randBytes (fun _ => True) (fun _ _ _ => I) (fun _ _ _ _ _ _ _ => I)
                _ _ _ _ _ _ _ _ I Hrun q nd Hq Hq') as (f0 & f0' & _ & Hg).
    unfold randBytes in Hg.
    destruct (randBytes_from fuel _ (src f0)) as [[b s]| |] eqn:E; try discriminate.
    injection Hg as -> _. apply randBytes_from_sound in E. destruct E as [Hlen Hall].
    split; [exact Hlen|]. split.
    + eapply Forall_impl; [exact Hall|]. intros x Hx. apply is_letter_alpha, Hx.
    + intros Hs. rewrite Hlen. apply layer_bytes_small, Hs.
  - intros lf fs lf' fs' Hrun q nd Hq Hq'.
    unfold Legacy.generateRandomFilePool in Hrun.
    destruct (pool_new_files env Legacy.RandomImageFactory
                (fun p f => Legacy.set_files (Legacy.allGeneratedFiles f ++ [p]) f)
                Legacy.randBytes (fun _ => True) (fun _ _ _ => I) (fun _ _ _ _ _ _ _ => I)
                _ _ _ _ _ _ _ _ I Hrun q nd Hq Hq') as (f0 & f0' & _ & Hg).
    unfold Legacy.randBytes in Hg.
    destruct (randBytes_from fuel _ (NewSource (Legacy.Seed f0))) as [[b s]| |] eqn:E;
      try discriminate.
    injection Hg as -> _. apply randBytes_from_sound in E. destruct E as [Hlen Hall].
    split; [exact Hlen|]. split.
    + eapply Forall_impl; [exact Hall|]. intros x Hx. apply is_letter_alpha, Hx.
    + intros Hs. rewrite Hlen. apply layer_bytes_small, Hs.
Qed.

Lemma pool_file_contents_witness :
  generateRandomFilePool Demo.calm 2000 1 3 DemoRuns.pool_factory Demo.empty_fs
  = Done (None, DemoRuns.pool_factory_after, DemoRuns.pool_fs_after) /\
  forall q nd,
    files Demo.empty_fs !! q = None -> files DemoRuns.pool_fs_after !! q = Some nd ->
    len (data nd) = layer_bytes 1 /\ Forall is_alpha (data nd) /\
    ((1 < 2 ^ 53)%N -> len (data nd) = 1024 * Z.of_N 1).
Proof.
  split; [exact DemoRuns_pool_run_eq|].
  exact (proj1 (@pool_file_contents Demo.source Demo.docker Demo.calm 2000%nat)
               1%N 3%N DemoRuns.pool_factory Demo.empty_fs
               DemoRuns.pool_factory_after DemoRuns.pool_fs_after DemoRuns_pool_run_eq).
Defined.

Opaque filePath.

Section PoolOverflow.
Context {R : RandSource}.
Variable env : oracle.
Variable F : Type.
Variable record : string -> F -> F.
Variable gen : nat -> Z -> F -> outcome (list byte * F).
Variable size : N.
Hypothesis gen_panics :
  forall fuel f, gen fuel (wrap64 (1024 * int_of_uint size)) f
                 = Panic "makeslice: len out of range".

Lemma pool_loop_overflow (todo : nat) :
  forall fuel dir i f fs,
    match pool_loop env F record gen fuel dir size todo i f fs with
    | Done (_, _, fs') => files fs' = files fs
    | Panic m => m = "makeslice: len out of range"%string
    | OutOfFuel => False
    end.
Proof.
  induction todo as [|todo IH]; intros fuel dir i f fs; simpl.
  - reflexivity.
  - destruct (Stat env (filePath dir size i) fs) as [[info|err] fs1] eqn:ES;
      apply Stat_spec in ES; destruct ES as (Hf1 & _).
    + specialize (IH fuel dir (i + 1)%N (record (filePath dir size i) f) fs1).
      destruct (pool_loop _ _ _ _ _ _ _ _ _ _ fs1) as [[[r f'] fs']|m|];
        [congruence|exact IH|exact IH].
    + destruct (negb (IsNotExist err)); [exact Hf1|].
      rewrite gen_panics. reflexivity.
Qed.

Lemma pool_overflow fuel dir count f fs :
  match pool env F record gen fuel dir size count f fs with
  | Done (_, _, fs') => files fs' = files fs
  | Panic m => m = "makeslice: len out of range"%string
  | OutOfFuel => False
  end.
Proof.
  unfold pool. destruct (MkdirAll env dir fs) as [[err|] fs1] eqn:EM;
    apply MkdirAll_spec in EM; destruct EM as (Hf1 & _).
  - exact Hf1.
  - pose proof (pool_loop_overflow (N.to_nat count) fuel dir 0%N f fs1) as H.
    destruct (pool_loop _ _ _ _ _ _ _ _ _ _ fs1) as [[[r f'] fs']|m|];
      [congruence|exact H|exact H].
Qed.

Lemma pool_overflow_first fuel dir count f fs :
  no_fault env -> (0 < count)%N ->
  files fs !! dir = None ->
  ~ exists_at (filePath dir size 0) fs -> filePath dir size 0 <> dir ->
  pool env F record gen fuel dir size count f fs = Panic "makeslice: len out of range".
Proof.
  intros Hcalm Hc Hdir Hp Hne. unfold pool, MkdirAll. rewrite Hcalm, Hdir.
  destruct (N.to_nat count) as [|todo] eqn:E; [lia|]. simpl.
  unfold Stat. rewrite Hcalm. cbn [files dirs add_dir log].
  destruct (files fs !! filePath dir size 0) as [nd|] eqn:E1.
  { exfalso. apply Hp. left. eauto. }
  destruct (decide (filePath dir size 0 ∈ {[dir]} ∪ dirs fs)) as [Hin|_].
  { exfalso. apply elem_of_union in Hin. destruct Hin as [Hin|Hin].
    - apply elem_of_singleton in Hin. contradiction.
    - apply Hp. right. exact Hin. }
  cbn [IsNotExist negb]. rewrite gen_panics. reflexivity.
Qed.
End PoolOverflow.

Transparent filePath.

Lemma randBytes_from_negative `{R : RandSource} fuel n s :
  n < 0 -> randBytes_from fuel n s = Panic "makeslice: len out of range".
Proof.
  intros H. unfold randBytes_from.
  replace (n <? 0) with true by (symmetry; apply Z.ltb_lt; exact H). reflexivity.
Qed.

Lemma seed_file_not_dir (seed : Z) (size i : N) :
  filePath ("generated-files/" +:+ itoa seed) size i <> "generated-files/" +:+ itoa seed.
Proof.
  intros H. pose proof (filePath_last ("generated-files/" +:+ itoa seed) size i) as HL.
  rewrite H in HL.
  pose proof (itoa_kept seed) as Hk.
  assert (Hs : "generated-files/" +:+ itoa seed = path_Join ["generated-files"%string; itoa seed]).
  { rewrite path_Join2; [|discriminate|apply Hk]. symmetry.
    apply (Clean_kept ["generated-files"%string; itoa seed]); [discriminate|].
    constructor; [|constructor; [exact Hk|constructor]].
    split; [|split; [|split]]; try discriminate. simpl. repeat split; discriminate. }
  rewrite Hs, (path_Join_last "generated-files" (itoa seed) Hk) in HL.
  injection HL as HL.
  pose proof (itoa_no_letter "r" seed) as Hr.
  rewrite HL in Hr. unfold pool_name in Hr. simpl in Hr.
  destruct Hr as [Hr _].
  - simpl. intros Hin. repeat (destruct Hin as [Hin|Hin]; [discriminate|]). exact Hin.
  - apply Hr. reflexivity.
Qed.

(** X5: a layer size whose byte count [1024*int(layerSizeKB)] is negative
    in 64 bits (such as [2^53] KB).  The pool never creates a file then, and
    never loops: it returns with the files as they were, or panics in
    [make].  With the factory of a seed it panics as soon as no call fails,
    at least one file is asked for and the first file is not there. *)
Theorem pool_overflow_panics `{R : RandSource} `{D : Docker} (size : N) :
  layer_bytes size < 0 ->
  (forall env fuel count (f : RandomImageFactory) fs,
      match generateRandomFilePool env fuel size count f fs with
      | Done (_, _, fs') => files fs' = files fs
      | Panic m => m = "makeslice: len out of range"%string
      | OutOfFuel => False
      end) /\
  (forall env fuel count seed ls fs,
      let f := NewRandomImageFactory seed (map WithLogger ls) in
      no_fault env -> (0 < count)%N ->
      files fs !! imageDir f = None ->
      ~ exists_at (filePath (imageDir f) size 0) fs ->
      generateRandomFilePool env fuel size count f fs
      = Panic "makeslice: len out of range").
Proof.
  intros Hneg.
  assert (Hgen : forall fuel (f : RandomImageFactory),
             randBytes fuel (wrap64 (1024 * int_of_uint size)) f
             = Panic "makeslice: len out of range").
  { intros fuel f. unfold randBytes. rewrite randBytes_from_negative by exact Hneg.
    reflexivity. }
  split.
  - intros env fuel count f fs. unfold generateRandomFilePool.
    apply pool_overflow. exact Hgen.
  - intros env fuel count seed ls fs f Hcalm Hc Hdir Hp.
    unfold generateRandomFilePool.
    apply pool_overflow_first; try assumption.
    unfold f. rewrite factory_dir. apply seed_file_not_dir.
Qed.

Lemma pool_overflow_panics_witness :
  layer_bytes 9007199254740992 < 0 /\
  (forall env fuel count (f : RandomImageFactory) fs,
      match generateRandomFilePool (R := Demo.source) (D := Demo.docker)
                                   env fuel 9007199254740992 count f fs with
      | Done (_, _, fs') => files fs' = files fs
      | Panic m => m = "makeslice: len out of range"%string
      | OutOfFuel => False
      end) /\
  (forall env fuel count seed ls fs,
      let f := NewRandomImageFactory (R := Demo.source) (D := Demo.docker)
                                     seed (map WithLogger ls) in
      no_fault env -> (0 < count)%N ->
      files fs !! imageDir f = None ->
      ~ exists_at (filePath (imageDir f) 9007199254740992 0) fs ->
      generateRandomFilePool env fuel 9007199254740992 count f fs
      = Panic "makeslice: len out of range").
Proof.
  split; [reflexivity|].
  exact (@pool_overflow_panics Demo.source Demo.docker 9007199254740992%N eq_refl).
Defined.

(** ** The stream of the seed *)

Section DrawCount.
Context {R : RandSource}.

Lemma advance_S (k : nat) (s : Src) : advance (S k) s = advance k (snd (Int63 s)).
Proof. reflexivity. Qed.

Lemma advance_add (j k : nat) (s : Src) : advance (j + k) s = advance k (advance j s).
Proof.
  revert s. induction j as [|j IH]; intros s; [reflexivity|].
  simpl. apply IH.
Qed.

Lemma letterIdxMax_eq : letterIdxMax = 10.
Proof. reflexivity. Qed.

Lemma randBytes_loop_draws (fuel : nat) :
  forall i cache remain b s b' s',
    0 <= remain <= letterIdxMax ->
    randBytes_loop fuel i cache remain b s = Done (b', s') ->
    exists k : nat, s' = advance k s /\ i + 1 <= remain + letterIdxMax * Z.of_nat k.
Proof.
  rewrite letterIdxMax_eq.
  induction fuel as [|fuel IH]; intros i cache remain b s b' s' Hr Hrun.
  - simpl in Hrun. destruct (i <? 0) eqn:Ei; [|discriminate].
    injection Hrun as <- <-. exists 0%nat. apply Z.ltb_lt in Ei.
    split; [reflexivity|lia].
  - destruct (Z.ltb_spec i 0) as [Ei|Ei].
    + rewrite randBytes_loop_done in Hrun by exact Ei.
      injection Hrun as <- <-. exists 0%nat.
      split; [reflexivity|lia].
    + rewrite randBytes_loop_S in Hrun by exact Ei. unfold loop_step in Hrun.
      rewrite letterIdxMax_eq in Hrun.
      destruct (remain =? 0) eqn:E0.
      * apply Z.eqb_eq in E0. subst remain.
        destruct (Int63 s) as [c s1] eqn:EI.
        destruct (Z.land c letterIdxMask <? len letterBytes);
          (apply IH in Hrun; [|lia]);
          destruct Hrun as (k & -> & Hk); exists (S k);
          (split; [rewrite advance_S, EI; reflexivity|lia]).
      * apply Z.eqb_neq in E0.
        destruct (Z.land cache letterIdxMask <? len letterBytes);
          (apply IH in Hrun; [|lia]);
          destruct Hrun as (k & -> & Hk); exists k;
          (split; [reflexivity|lia]).
Qed.

Lemma randBytes_from_draws fuel n s b s' :
  randBytes_from fuel n s = Done (b, s') ->
  exists k : nat, s' = advance k s /\ (1 <= k)%nat /\ n <= 10 * Z.of_nat k.
Proof.
  unfold randBytes_from. destruct (n <? 0); [discriminate|].
  destruct (Int63 s) as [c s1] eqn:EI. intros Hrun.
  apply randBytes_loop_draws in Hrun; [|rewrite letterIdxMax_eq; lia].
  destruct Hrun as (k & -> & Hk). exists (S k).
  split; [rewrite advance_S, EI; reflexivity|]. rewrite letterIdxMax_eq in Hk.
  split; lia.
Qed.
End DrawCount.

(** X6: what [randBytes] takes from the source.  A call that returns [n]
    bytes leaves the factory's source advanced by some number [k] of
    [Int63] draws with [k >= 1] and [n <= 10 * k]: at most ten letters come
    out of one draw, and one draw is made even for [n = 0].  Nothing else of
    the factory changes. *)
Theorem randBytes_draws `{R : RandSource} `{D : Docker}
        (fuel : nat) (n : Z) (f f' : RandomImageFactory) (b : list byte) :
  randBytes fuel n f = Done (b, f') ->
  exists k : nat,
    src f' = advance k (src f) /\ (1 <= k)%nat /\ n <= 10 * Z.of_nat k /\
    imageDir f' = imageDir f /\ allGeneratedFiles f' = allGeneratedFiles f /\
    dockerClient f' = dockerClient f /\ logger f' = logger f.
Proof.
  unfold randBytes. destruct (randBytes_from fuel n (src f)) as [[b0 s]| |] eqn:E;
    try discriminate.
  intros [= <- <-]. apply randBytes_from_draws in E. destruct E as (k & -> & Hk1 & Hk2).
  exists k. repeat split; assumption.
Qed.

Lemma DemoMore_first_request_eq :
  randBytes (R := Demo.source) (D := Demo.docker) 2000 1024 DemoBuild.factory
  = Done (DemoBuild.first_kb, DemoMore.factory_after_first_request).
Proof.
  vm_cast_no_check
    (@eq_refl _ (@Done (list byte * @RandomImageFactory Demo.source Demo.docker)
                       (DemoBuild.first_kb, DemoMore.factory_after_first_request))).
Qed.

Lemma randBytes_draws_witness :
  randBytes (R := Demo.source) (D := Demo.docker) 2000 1024 DemoBuild.factory
  = Done (DemoBuild.first_kb, DemoMore.factory_after_first_request) /\
  exists k : nat,
    src DemoMore.factory_after_first_request = advance k (src DemoBuild.factory) /\
    (1 <= k)%nat /\ 1024 <= 10 * Z.of_nat k /\
    imageDir DemoMore.factory_after_first_request = imageDir DemoBuild.factory /\
    allGeneratedFiles DemoMore.factory_after_first_request
    = allGeneratedFiles DemoBuild.factory /\
    dockerClient DemoMore.factory_after_first_request = dockerClient DemoBuild.factory /\
    logger DemoMore.factory_after_first_request = logger DemoBuild.factory.
Proof.
  split; [exact DemoMore_first_request_eq|].
  exact (@randBytes_draws Demo.source Demo.docker 2000%nat 1024 DemoBuild.factory
           DemoMore.factory_after_first_request DemoBuild.first_kb
           DemoMore_first_request_eq).
Defined.

Opaque filePath.

Section PoolStream.
Context {R : RandSource} {D : Docker}.
Variable env : oracle.

Lemma stream_pool_loop (todo : nat) :
  forall fuel dir size i (f : RandomImageFactory) fs f' fs',
    pool_loop env RandomImageFactory
              (fun p f => set_files (allGeneratedFiles f ++ [p]) f)
              randBytes fuel dir size todo i f fs = Done (None, f', fs') ->
    (forall k, (k < todo)%nat -> ~ exists_at (filePath dir size (i + N.of_nat k)) fs) ->
    exists chunks,
      stream_chunks fuel (layer_bytes size) todo (src f) = Done (chunks, src f') /\
      length chunks = todo /\
      forall k b, chunks !! k = Some b ->
                  data <$> files fs' !! filePath dir size (i + N.of_nat k) = Some b.
Proof.
  induction todo as [|todo IH]; intros fuel dir size i f fs f' fs' Hrun Hfresh;
    simpl in Hrun.
  - injection Hrun as <- <-. exists []. split; [reflexivity|]. split; [reflexivity|].
    intros k b Hk. rewrite lookup_nil in Hk. discriminate.
  - destruct (Stat env (filePath dir size i) fs) as [[info|err] fs1] eqn:ES;
      apply Stat_spec in ES; destruct ES as (Hf1 & Hd1 & _ & Hres).
    + exfalso. apply (Hfresh 0%nat); [lia|].
      replace (i + N.of_nat 0)%N with i by lia. apply Hres.
    + destruct (IsNotExist err) eqn:EN; simpl in Hrun; [|discriminate].
      unfold randBytes at 1 in Hrun. cbn [src set_files] in Hrun.
      fold (layer_bytes size) in Hrun.
      destruct (randBytes_from fuel (layer_bytes size) (src f)) as [[bs s1]| |] eqn:EG;
        try discriminate.
      destruct (WriteFile env (filePath dir size i) bs fs1) as [[err'|] fs2] eqn:EW;
        [discriminate|].
      apply WriteFile_spec in EW. destruct EW as (Hd2 & Hf2 & _ & (t & Hp)).
      pose proof (pool_loop_preserves _ _ _ _ _ _ _ _ _ _ _ _ _ _ Hrun) as (Hpres & _).
      apply IH in Hrun.
      * destruct Hrun as (chunks & Hch & Hlen & Hfiles). cbn [src set_src] in Hch.
        exists (bs :: chunks). split; [simpl; rewrite EG, Hch; reflexivity|].
        split; [simpl; rewrite Hlen; reflexivity|].
        intros [|k] b Hk.
        -- injection Hk as <-. replace (i + N.of_nat 0)%N with i by lia.
           rewrite (Hpres _ _ Hp). reflexivity.
        -- simpl in Hk. apply Hfiles in Hk.
           replace (i + N.of_nat (S k))%N with (i + 1 + N.of_nat k)%N by lia. exact Hk.
      * intros k Hk Hex.
        assert (Hne : filePath dir size (i + 1 + N.of_nat k) <> filePath dir size i).
        { intros E. apply filePath_inj in E. lia. }
        apply (Hfresh (S k)); [lia|].
        replace (i + N.of_nat (S k))%N with (i + 1 + N.of_nat k)%N by lia.
        destruct Hex as [Hex|Hex]; [left|right].
        -- rewrite <- Hf1, <- (Hf2 _ Hne). exact Hex.
        -- rewrite <- Hd1, <- Hd2. exact Hex.
Qed.
End PoolStream.

Transparent filePath.

(** X7: with the factory's own source the pool cuts the files out of one
    stream.  For a factory of [NewRandomImageFactory(seed)], used before or
    not: when none of the pool's paths is there, a pool that returns no
    error has written to the [k]-th path the [k]-th slice of
    [1024*int(layerSizeKB)] bytes of the factory's stream, each slice
    starting where the one before ended, and the source is left after the
    last slice. *)
Theorem pool_threads_stream `{R : RandSource} `{D : Docker}
        (env : oracle) (fuel : nat) (seed : Z) (size count : N)
        (f f' : RandomImageFactory) (fs fs' : FS) :
  imageDir f = imageDir (NewRandomImageFactory seed []) ->
  (forall p, In p (pool_paths (imageDir f) size count) -> ~ exists_at p fs) ->
  generateRandomFilePool env fuel size count f fs = Done (None, f', fs') ->
  exists chunks,
    stream_chunks fuel (layer_bytes size) (N.to_nat count) (src f) = Done (chunks, src f') /\
    length chunks = N.to_nat count /\
    forall k b, chunks !! k = Some b ->
                data <$> files fs' !! filePath (imageDir f) size (N.of_nat k) = Some b.
Proof.
  intros Hdir Hfresh Hrun. unfold generateRandomFilePool, pool in Hrun.
  rewrite (factory_dir seed []) in Hdir.
  destruct (MkdirAll env (imageDir f) fs) as [[err|] fs1] eqn:EM; [discriminate|].
  apply MkdirAll_spec in EM. destruct EM as (Hf1 & _ & Hd1).
  apply stream_pool_loop in Hrun; [exact Hrun|].
  intros k Hk Hex. replace (0 + N.of_nat k)%N with (N.of_nat k) in Hex by lia.
  assert (Hin : In (filePath (imageDir f) size (N.of_nat k))
                   (pool_paths (imageDir f) size count)).
  { unfold pool_paths. apply in_map_iff. exists k. split; [reflexivity|].
    apply in_seq. lia. }
  apply (Hfresh _ Hin). destruct Hex as [Hex|Hex]; [left; rewrite <- Hf1; exact Hex|].
  rewrite Hd1 in Hex. apply elem_of_union in Hex. destruct Hex as [Hex|Hex]; [|right; exact Hex].
  apply elem_of_singleton in Hex. exfalso. rewrite Hdir in Hex.
  exact (seed_file_not_dir seed size (N.of_nat k) Hex).
Qed.

Lemma empty_fs_fresh (p : string) : ~ exists_at p Demo.empty_fs.
Proof.
  intros [H|H].
  - simpl in H. rewrite lookup_empty in H. destruct H as [x H]. discriminate.
  - simpl in H. apply elem_of_empty in H. exact H.
Qed.

Lemma pool_threads_stream_witness :
  imageDir DemoRuns.pool_factory
  = imageDir (NewRandomImageFactory (R := Demo.source) (D := Demo.docker) 1 []) /\
  (forall p, In p (pool_paths (imageDir DemoRuns.pool_factory) 1 3) ->
             ~ exists_at p Demo.empty_fs) /\
  generateRandomFilePool Demo.calm 2000 1 3 DemoRuns.pool_factory Demo.empty_fs
  = Done (None, DemoRuns.pool_factory_after, DemoRuns.pool_fs_after) /\
  exists chunks,
    stream_chunks (R := Demo.source) 2000 (layer_bytes 1) (N.to_nat 3)
                  (src DemoRuns.pool_factory)
    = Done (chunks, src DemoRuns.pool_factory_after) /\
    length chunks = N.to_nat 3 /\
    forall k b, chunks !! k = Some b ->
                data <$> files DemoRuns.pool_fs_after
                           !! filePath (imageDir DemoRuns.pool_factory) 1 (N.of_nat k)
                = Some b.
Proof.
  split; [reflexivity|]. split; [intros p _; apply empty_fs_fresh|].
  split; [exact DemoRuns_pool_run_eq|].
  exact (@pool_threads_stream Demo.source Demo.docker Demo.calm 2000%nat 1 1%N 3%N
           DemoRuns.pool_factory DemoRuns.pool_factory_after
           Demo.empty_fs DemoRuns.pool_fs_after
           eq_refl (fun p _ => empty_fs_fresh p) DemoRuns_pool_run_eq).
Defined.

(** ** Whole runs of [GenerateImage] *)

Opaque filePath.

Section PoolInvariant.
Context {R : RandSource}.
Variable env : oracle.
Variable F : Type.
Variable record : string -> F -> F.
Variable gen : nat -> Z -> F -> outcome (list byte * F).
Variable I : F -> Prop.
Hypothesis I_record : forall p f, I f -> I (record p f).
Hypothesis I_gen : forall fuel n f b f', I f -> gen fuel n f = Done (b, f') -> I f'.

Lemma pool_loop_inv (todo : nat) :
  forall fuel dir size i f fs r f' fs',
    I f -> pool_loop env F record gen fuel dir size todo i f fs = Done (r, f', fs') -> I f'.
Proof.
  induction todo as [|todo IH]; intros fuel dir size i f fs r f' fs' Hf Hrun;
    simpl in Hrun.
  - injection Hrun as <- <- <-. exact Hf.
  - destruct (Stat env (filePath dir size i) fs) as [[info|err] fs1].
    + eapply IH; [|exact Hrun]. apply I_record, Hf.
    + destruct (negb (IsNotExist err)).
      { injection Hrun as <- <- <-. apply I_record, Hf. }
      destruct (gen fuel _ (record (filePath dir size i) f)) as [[bs f2]| |] eqn:EG;
        try discriminate.
      assert (Hf2 : I f2) by (eapply I_gen; [apply I_record, Hf|exact EG]).
      destruct (WriteFile env (filePath dir size i) bs fs1) as [[err'|] fs2].
      { injection Hrun as <- <- <-. exact Hf2. }
      eapply IH; [exact Hf2|exact Hrun].
Qed.

Lemma pool_inv fuel dir size count f fs r f' fs' :
  I f -> pool env F record gen fuel dir size count f fs = Done (r, f', fs') -> I f'.
Proof.
  unfold pool. intros Hf. destruct (MkdirAll env dir fs) as [[err|] fs1].
  - intros [= <- <- <-]. exact Hf.
  - apply pool_loop_inv, Hf.
Qed.
End PoolInvariant.

Section PoolReturns.
Context {R : RandSource}.
Variable env : oracle.
Variable F : Type.
Variable record : string -> F -> F.
Variable gen : nat -> Z -> F -> outcome (list byte * F).
Variable n : Z.
Hypothesis gen_returns :
  forall f, exists fuel0 b f',
      forall fuel, (fuel0 <= fuel)%nat -> gen fuel n f = Done (b, f').

Lemma pool_loop_returns (todo : nat) :
  forall dir size i f fs,
    wrap64 (1024 * int_of_uint size) = n ->
    exists fuel0 r f' fs',
      forall fuel, (fuel0 <= fuel)%nat ->
                   pool_loop env F record gen fuel dir size todo i f fs = Done (r, f', fs').
Proof.
  induction todo as [|todo IH]; intros dir size i f fs Hn; simpl.
  - exists 0%nat, None, f, fs. reflexivity.
  - destruct (Stat env (filePath dir size i) fs) as [[info|err] fs1].
    + apply IH, Hn.
    + destruct (negb (IsNotExist err)).
      * exists 0%nat. eexists _, _, _. reflexivity.
      * rewrite Hn.
        destruct (gen_returns (record (filePath dir size i) f)) as (fuel1 & bs & f2 & Hgen).
        destruct (WriteFile env (filePath dir size i) bs fs1) as [[err'|] fs2] eqn:EW.
        -- exists fuel1. eexists _, _, _. intros fuel Hf. rewrite (Hgen fuel Hf), EW.
           reflexivity.
        -- destruct (IH dir size (i + 1)%N f2 fs2 Hn) as (fuel2 & r & f' & fs' & Hrun).
           exists (Nat.max fuel1 fuel2), r, f', fs'. intros fuel Hf.
           rewrite (Hgen fuel) by lia. rewrite EW. apply Hrun. lia.
Qed.

Lemma pool_returns dir size count f fs :
  wrap64 (1024 * int_of_uint size) = n ->
  exists fuel0 r f' fs',
    forall fuel, (fuel0 <= fuel)%nat ->
                 pool env F record gen fuel dir size count f fs = Done (r, f', fs').
Proof.
  intros Hn. unfold pool. destruct (MkdirAll env dir fs) as [[err|] fs1].
  - exists 0%nat. eexists _, _, _. reflexivity.
  - apply pool_loop_returns, Hn.
Qed.
End PoolReturns.

Transparent filePath.

Section Frames.
Variable env : oracle.
Variable header_block : tar.Header -> list byte.
Variable statErr readErr : string -> error -> error.

Lemma createArchive_with_frame name paths fs r tw fs' :
  createArchive_with env header_block statErr readErr name paths fs = (r, tw, fs') ->
  forall q, q <> name -> files fs' !! q = files fs !! q.
Proof.
  unfold createArchive_with, Create.
  destruct (open_trunc env name fs) as [[err|] fs1] eqn:EC;
    apply open_trunc_spec in EC; destruct EC as (_ & Ho1 & _).
  - intros [= <- <- <-]. exact Ho1.
  - destruct (createArchive_loop env header_block statErr readErr paths
                                 (tar.NewWriter name) fs1) as [[r2 tw2] fs2] eqn:EL.
    apply createArchive_loop_spec in EL; [|reflexivity]. simpl in EL.
    destruct EL as (Hw2 & _ & Ho2 & _).
    destruct (tar.Close env tw2 fs2) as [[r3 tw3] fs3] eqn:ECl.
    apply Close_spec in ECl. destruct ECl as (_ & Ho3 & _).
    rewrite Hw2 in Ho3.
    intros [= <- <- <-] q Hq. rewrite Ho3, Ho2, Ho1 by exact Hq. reflexivity.
Qed.

Lemma createArchive_with_created name paths fs tw fs' :
  createArchive_with env header_block statErr readErr name paths fs = (None, tw, fs') ->
  is_Some (files fs' !! name).
Proof.
  unfold createArchive_with, Create.
  destruct (open_trunc env name fs) as [[err|] fs1] eqn:EC; [discriminate|].
  apply open_trunc_spec in EC. destruct EC as (_ & _ & _ & (t & Hp)).
  destruct (createArchive_loop env header_block statErr readErr paths
                               (tar.NewWriter name) fs1) as [[r2 tw2] fs2] eqn:EL.
  apply createArchive_loop_spec in EL; [|reflexivity].
  destruct EL as (_ & Hk2 & _).
  destruct (tar.Close env tw2 fs2) as [[r3 tw3] fs3] eqn:ECl.
  apply Close_spec in ECl. destruct ECl as (Hk3 & _).
  intros [= _ _ <-]. apply Hk3, Hk2. rewrite Hp. eauto.
Qed.

Lemma Open_spec p fs r fs' :
  Open env p fs = (r, fs') ->
  files fs' = files fs /\ dirs fs' = dirs fs /\
  match r with
  | inl ctx => forall nd, files fs !! p = Some nd -> ctx = data nd
  | inr _ => True
  end.
Proof.
  unfold Open. destruct (env (clock fs) SysOpen p) as [x|].
  - intros [= <- <-]. repeat split.
  - destruct (files fs !! p) as [nd|] eqn:E.
    + intros [= <- <-]. repeat split. intros nd' [= <-]. reflexivity.
    + destruct (decide (p ∈ dirs fs)); intros [= <- <-]; repeat split; discriminate.
Qed.

Lemma generateDockerfile_frame paths fs name r fs' :
  generateDockerfile env paths fs = ((name, r), fs') ->
  (forall q, q <> "./dockerfile.generated"%string -> files fs' !! q = files fs !! q) /\
  (r = None ->
   name = "./dockerfile.generated"%string /\
   exists t, files fs' !! "./dockerfile.generated"%string
             = Some {| data := list_byte_of_string (dockerfile_text paths); mtime := t |}).
Proof.
  unfold generateDockerfile.
  destruct (WriteFile env "./dockerfile.generated" _ fs) as [[err|] fs1] eqn:EW;
    apply WriteFile_spec in EW; destruct EW as (_ & Hf & _ & Hr);
    intros [= <- <- <-]; (split; [exact Hf|]).
  - discriminate.
  - intros _. split; [reflexivity|exact Hr].
Qed.
End Frames.

Lemma tarFile_last (pwd : string) :
  last (split_on "/" (path_Join [pwd; "context.tar"%string])) = Some "context.tar"%string.
Proof.
  apply path_Join_last. split; [|split; [|split]]; try discriminate.
  simpl. repeat split; discriminate.
Qed.

Lemma tarFile_not_dockerfile (pwd : string) :
  "./dockerfile.generated"%string <> path_Join [pwd; "context.tar"%string].
Proof.
  intros H. pose proof (tarFile_last pwd) as HL. rewrite <- H in HL. discriminate.
Qed.

Lemma tarFile_not_pool (pwd dir : string) (size i : N) :
  filePath dir size i <> path_Join [pwd; "context.tar"%string].
Proof.
  intros H. pose proof (tarFile_last pwd) as HL. rewrite <- H, filePath_last in HL.
  injection HL as HL. unfold pool_name in HL. discriminate.
Qed.

Section RunStages.
Context {R : RandSource} {D : Docker}.
Variable env : oracle.
Variable header_block : tar.Header -> list byte.

(** All the stages of a run of [GenerateImage] that returned no error. *)
Lemma GenerateImage_stages fuel pwd size count tags f fs r :
  GenerateImage env header_block fuel pwd size count tags f fs = Done r ->
  run_err r = None ->
  exists f0 f1 fs1 f2 fs2 tw fs3 cli f3 ctx fs4 resp,
    (imageDir f0 = imageDir f /\ allGeneratedFiles f0 = allGeneratedFiles f /\
     src f0 = src f /\ dockerClient f0 = dockerClient f) /\
    generateRandomFilePool env fuel size count f0 fs = Done (None, f1, fs1) /\
    shuffleGeneratedFilePaths f1 = Done f2 /\
    generateDockerfile env (allGeneratedFiles f2) fs1
    = (("./dockerfile.generated"%string, None), fs2) /\
    createArchive env header_block (path_Join [pwd; "context.tar"%string])
                  (allGeneratedFiles f2 ++ ["./dockerfile.generated"%string]) fs2
    = (None, tw, fs3) /\
    getDockerClient f2 = (inl cli, f3) /\
    Open env (path_Join [pwd; "context.tar"%string]) fs3 = (inl ctx, fs4) /\
    ImageBuild cli ctx "./dockerfile.generated" tags = inl resp /\
    r = {| run_err := None; run_factory := f3; run_fs := fs4; run_archive := Some tw |}.
Proof.
  unfold GenerateImage.
  set (f0 := match logger f with
             | None => set_logger (Some {| prefix := ""; flag := 3 |}) f
             | Some _ => f
             end).
  assert (H0 : imageDir f0 = imageDir f /\ allGeneratedFiles f0 = allGeneratedFiles f /\
               src f0 = src f /\ dockerClient f0 = dockerClient f)
    by (unfold f0; destruct (logger f); repeat split).
  destruct (generateRandomFilePool env fuel size count f0 fs)
    as [[[[err|] f1] fs1]| |] eqn:EP; try discriminate.
  { intros [= <-]. discriminate. }
  destruct (shuffleGeneratedFilePaths f1) as [f2| |] eqn:ES; try discriminate.
  destruct (generateDockerfile env (allGeneratedFiles f2) fs1) as [[name [err|]] fs2] eqn:ED.
  { intros [= <-]. discriminate. }
  pose proof (generateDockerfile_fatal _ _ _ _ _ _ ED) as (_ & Hname & _).
  rewrite (Hname eq_refl) in *.
  destruct (createArchive env header_block _ _ fs2) as [[[err|] tw] fs3] eqn:EA.
  { intros [= <-]. discriminate. }
  destruct (getDockerClient f2) as [[cli|err] f3] eqn:EG.
  2: { intros [= <-]. discriminate. }
  destruct (Open env _ fs3) as [[ctx|err] fs4] eqn:EO.
  2: { intros [= <-]. discriminate. }
  destruct (ImageBuild cli ctx _ tags) as [resp|err] eqn:EB.
  2: { intros [= <-]. discriminate. }
  intros [= <-] _.
  exists f0, f1, fs1, f2, fs2, tw, fs3, cli, f3, ctx, fs4, resp.
  split; [exact H0|]. repeat (split; [first [assumption|reflexivity]|]). reflexivity.
Qed.

Lemma Legacy_GenerateImage_stages fuel pwd lf g fs r :
  Legacy.GenerateImage env header_block fuel pwd lf g fs = Done r ->
  Legacy.run_err r = None ->
  exists lf1 fs1 lf2 g2 fs2 tw fs3 cli lf3 ctx fs4 resp,
    Legacy.generateRandomFilePool env fuel lf fs = Done (None, lf1, fs1) /\
    Legacy.shuffleGeneratedFilePaths lf1 g = Done (lf2, g2) /\
    generateDockerfile env (Legacy.allGeneratedFiles lf2) fs1
    = (("./dockerfile.generated"%string, None), fs2) /\
    Legacy.createArchive env header_block (path_Join [pwd; "context.tar"%string])
                  (Legacy.allGeneratedFiles lf2 ++ ["./dockerfile.generated"%string]) fs2
    = (None, tw, fs3) /\
    Legacy.getDockerClient lf2 = (inl cli, lf3) /\
    Open env (path_Join [pwd; "context.tar"%string]) fs3 = (inl ctx, fs4) /\
    ImageBuild cli ctx "./dockerfile.generated" (Legacy.Tags lf3) = inl resp /\
    r = {| Legacy.run_err := None; Legacy.run_factory := lf3; Legacy.run_fs := fs4;
           Legacy.run_global := g2; Legacy.run_archive := Some tw |}.
Proof.
  unfold Legacy.GenerateImage.
  destruct (Legacy.generateRandomFilePool env fuel lf fs)
    as [[[[err|] lf1] fs1]| |] eqn:EP; try discriminate.
  { intros [= <-]. discriminate. }
  destruct (Legacy.shuffleGeneratedFilePaths lf1 g) as [[lf2 g2]| |] eqn:ES;
    try discriminate.
  destruct (generateDockerfile env (Legacy.allGeneratedFiles lf2) fs1)
    as [[name [err|]] fs2] eqn:ED.
  { intros [= <-]. discriminate. }
  pose proof (generateDockerfile_fatal _ _ _ _ _ _ ED) as (_ & Hname & _).
  rewrite (Hname eq_refl) in *.
  destruct (Legacy.createArchive env header_block _ _ fs2) as [[[err|] tw] fs3] eqn:EA.
  { intros [= <-]. discriminate. }
  destruct (Legacy.getDockerClient lf2) as [[cli|err] lf3] eqn:EG.
  2: { intros [= <-]. discriminate. }
  destruct (Open env _ fs3) as [[ctx|err] fs4] eqn:EO.
  2: { intros [= <-]. discriminate. }
  destruct (ImageBuild cli ctx _ (Legacy.Tags lf3)) as [resp|err] eqn:EB.
  2: { intros [= <-]. discriminate. }
  intros [= <-] _.
  exists lf1, fs1, lf2, g2, fs2, tw, fs3, cli, lf3, ctx, fs4, resp.
  repeat (split; [first [assumption|reflexivity]|]). reflexivity.
Qed.

(** What the pool and the shuffle leave of a factory. *)
Lemma pool_factory_fields fuel size count f fs r f' fs' :
  generateRandomFilePool env fuel size count f fs = Done (r, f', fs') ->
  imageDir f' = imageDir f /\ dockerClient f' = dockerClient f /\ logger f' = logger f.
Proof.
  unfold generateRandomFilePool. intros Hrun.
  apply (pool_inv env RandomImageFactory _ _
           (fun x => imageDir x = imageDir f /\ dockerClient x = dockerClient f /\
                     logger x = logger f)) in Hrun.
  - exact Hrun.
  - intros p x Hx. exact Hx.
  - intros fuel' n x b x' Hx Hg. unfold randBytes in Hg.
    destruct (randBytes_from fuel' n (src x)) as [[b0 s]| |]; try discriminate.
    injection Hg as <- <-. exact Hx.
  - repeat split.
Qed.

Lemma pool_factory_paths fuel size count f fs f' fs' :
  generateRandomFilePool env fuel size count f fs = Done (None, f', fs') ->
  allGeneratedFiles f' = allGeneratedFiles f ++ pool_paths (imageDir f) size count.
Proof.
  unfold generateRandomFilePool. intros HP.
  apply (pool_paths_spec env RandomImageFactory _ _ allGeneratedFiles) in HP;
    [exact HP| |].
  - intros p f0. reflexivity.
  - intros fuel' n f0 b f0' Hg. unfold randBytes in Hg.
    destruct (randBytes_from fuel' n (src f0)) as [[x s]| |]; try discriminate.
    injection Hg as <- <-. reflexivity.
Qed.

Lemma Legacy_pool_factory_fields fuel lf fs r lf' fs' :
  Legacy.generateRandomFilePool env fuel lf fs = Done (r, lf', fs') ->
  Legacy.LayerSizeKB lf' = Legacy.LayerSizeKB lf /\
  Legacy.LayerCount lf' = Legacy.LayerCount lf /\
  Legacy.Seed lf' = Legacy.Seed lf /\ Legacy.Tags lf' = Legacy.Tags lf /\
  Legacy.dockerClient lf' = Legacy.dockerClient lf.
Proof.
  unfold Legacy.generateRandomFilePool. intros Hrun.
  apply (pool_inv env Legacy.RandomImageFactory _ _
           (fun x => Legacy.LayerSizeKB x = Legacy.LayerSizeKB lf /\
                     Legacy.LayerCount x = Legacy.LayerCount lf /\
                     Legacy.Seed x = Legacy.Seed lf /\ Legacy.Tags x = Legacy.Tags lf /\
                     Legacy.dockerClient x = Legacy.dockerClient lf)) in Hrun.
  - exact Hrun.
  - intros p x Hx. exact Hx.
  - intros fuel' n x b x' Hx Hg. unfold Legacy.randBytes in Hg.
    destruct (randBytes_from fuel' n _) as [[b0 s]| |]; try discriminate.
    injection Hg as <- <-. exact Hx.
  - repeat split.
Qed.

Lemma Legacy_pool_factory_paths fuel lf fs lf' fs' :
  Legacy.generateRandomFilePool env fuel lf fs = Done (None, lf', fs') ->
  Legacy.allGeneratedFiles lf'
  = Legacy.allGeneratedFiles lf
    ++ pool_paths Legacy.imageDir (Legacy.LayerSizeKB lf) (Legacy.LayerCount lf).
Proof.
  unfold Legacy.generateRandomFilePool. intros HP.
  apply (pool_paths_spec env Legacy.RandomImageFactory _ _ Legacy.allGeneratedFiles) in HP;
    [exact HP| |].
  - intros p f0. reflexivity.
  - intros fuel' n f0 b f0' Hg. unfold Legacy.randBytes in Hg.
    destruct (randBytes_from fuel' n _) as [[x s]| |]; try discriminate.
    injection Hg as <- <-. reflexivity.
Qed.

Lemma shuffle_factory_fields (f f' : RandomImageFactory) :
  shuffleGeneratedFilePaths f = Done f' ->
  imageDir f' = imageDir f /\ dockerClient f' = dockerClient f /\
  allGeneratedFiles f' ≡ₚ allGeneratedFiles f.
Proof.
  unfold shuffleGeneratedFilePaths.
  destruct (shuffle (allGeneratedFiles f) (src f)) as [[l s]| |] eqn:E; try discriminate.
  intros [= <-]. apply shuffle_loop_done_perm in E. repeat split. exact E.
Qed.

Lemma Legacy_shuffle_factory_fields (lf lf' : Legacy.RandomImageFactory) g g' :
  Legacy.shuffleGeneratedFilePaths lf g = Done (lf', g') ->
  Legacy.Tags lf' = Legacy.Tags lf /\ Legacy.dockerClient lf' = Legacy.dockerClient lf /\
  Legacy.allGeneratedFiles lf' ≡ₚ Legacy.allGeneratedFiles lf.
Proof.
  unfold Legacy.shuffleGeneratedFilePaths.
  destruct (shuffle (Legacy.allGeneratedFiles lf) g) as [[l s]| |] eqn:E; try discriminate.
  intros [= <- <-]. apply shuffle_loop_done_perm in E. repeat split. exact E.
Qed.

Lemma getDockerClient_spec (f f' : RandomImageFactory) cli :
  getDockerClient f = (inl cli, f') ->
  dockerClient f' = Some cli /\ imageDir f' = imageDir f /\
  allGeneratedFiles f' = allGeneratedFiles f /\ src f' = src f /\
  match dockerClient f with
  | Some c => cli = c
  | None => NewEnvClient = inl cli
  end.
Proof.
  unfold getDockerClient. destruct (dockerClient f) as [c|] eqn:E.
  - intros [= <- <-]. repeat split. exact E.
  - destruct NewEnvClient as [c|err]; [|discriminate].
    intros [= <- <-]. repeat split.
Qed.

Lemma Legacy_getDockerClient_spec (lf lf' : Legacy.RandomImageFactory) cli :
  Legacy.getDockerClient lf = (inl cli, lf') ->
  Legacy.dockerClient lf' = Some cli /\ Legacy.Tags lf' = Legacy.Tags lf /\
  Legacy.allGeneratedFiles lf' = Legacy.allGeneratedFiles lf /\
  match Legacy.dockerClient lf with
  | Some c => cli = c
  | None => NewClientWithOpts = inl cli
  end.
Proof.
  unfold Legacy.getDockerClient. destruct (Legacy.dockerClient lf) as [c|] eqn:E.
  - intros [= <- <-]. repeat split. exact E.
  - destruct NewClientWithOpts as [c|err]; [|discriminate].
    intros [= <- <-]. repeat split.
Qed.
End RunStages.

Lemma entry_names_length (es : list tar.entry) : length (entry_names es) = length es.
Proof. unfold entry_names. apply length_map. Qed.

(** X8: the recorded paths are never reset.  A run of [GenerateImage] that
    returned no error appends the pool's paths to the paths the factory had
    recorded before, shuffles all of them, and archives all of them: the
    archive has as many entries as old paths, plus [layerCount], plus the
    manifest.  The factory keeps its directory, so a second image built
    with the same factory holds the files of the first pool again. *)
Theorem factory_accumulates `{R : RandSource} `{D : Docker}
        (env : oracle) (header_block : tar.Header -> list byte)
        (fuel : nat) (pwd : string) :
  (forall size count tags (f : RandomImageFactory) fs r,
      GenerateImage env header_block fuel pwd size count tags f fs = Done r ->
      run_err r = None ->
      exists tw,
        run_archive r = Some tw /\
        allGeneratedFiles (run_factory r)
        ≡ₚ allGeneratedFiles f ++ pool_paths (imageDir f) size count /\
        entry_names (tar.entries tw)
        = allGeneratedFiles (run_factory r) ++ ["./dockerfile.generated"%string] /\
        length (tar.entries tw)
        = (length (allGeneratedFiles f) + N.to_nat count + 1)%nat /\
        imageDir (run_factory r) = imageDir f) /\
  (forall (lf : Legacy.RandomImageFactory) g fs r,
      Legacy.GenerateImage env header_block fuel pwd lf g fs = Done r ->
      Legacy.run_err r = None ->
      exists tw,
        Legacy.run_archive r = Some tw /\
        Legacy.allGeneratedFiles (Legacy.run_factory r)
        ≡ₚ Legacy.allGeneratedFiles lf
           ++ pool_paths Legacy.imageDir (Legacy.LayerSizeKB lf) (Legacy.LayerCount lf) /\
        entry_names (tar.entries tw)
        = Legacy.allGeneratedFiles (Legacy.run_factory r)
          ++ ["./dockerfile.generated"%string] /\
        length (tar.entries tw)
        = (length (Legacy.allGeneratedFiles lf) + N.to_nat (Legacy.LayerCount lf) + 1)%nat).
Proof.
  split.
  - intros size count tags f fs r Hrun Herr.
    destruct (GenerateImage_stages _ _ _ _ _ _ _ _ _ _ Hrun Herr)
      as (f0 & f1 & fs1 & f2 & fs2 & tw & fs3 & cli & f3 & ctx & fs4 & resp &
          (Hdir & Hfiles & _ & _) & HP & HS & HD & HA & HG & HO & HB & ->).
    exists tw. split; [reflexivity|]. cbn [run_factory].
    pose proof (pool_factory_paths _ _ _ _ _ _ _ _ HP) as Hpaths.
    pose proof (pool_factory_fields _ _ _ _ _ _ _ _ _ HP) as (Hd1 & _).
    apply shuffle_factory_fields in HS. destruct HS as (Hd2 & _ & Hperm).
    apply getDockerClient_spec in HG. destruct HG as (_ & Hd3 & Hf3 & _).
    rewrite Hfiles, Hdir in Hpaths.
    unfold createArchive in HA. apply createArchive_with_spec in HA.
    destruct HA as (_ & closing & new & _ & _ & _ & Hnames & _).
    assert (Hall : allGeneratedFiles f3
                   ≡ₚ allGeneratedFiles f ++ pool_paths (imageDir f) size count).
    { rewrite Hf3, Hperm, Hpaths. reflexivity. }
    split; [exact Hall|]. split; [rewrite Hf3; exact Hnames|]. split.
    + rewrite <- entry_names_length, Hnames, length_app, <- Hf3, Hall, length_app.
      unfold pool_paths. rewrite length_map, length_seq. reflexivity.
    + congruence.
  - intros lf g fs r Hrun Herr.
    destruct (Legacy_GenerateImage_stages _ _ _ _ _ _ _ _ Hrun Herr)
      as (lf1 & fs1 & lf2 & g2 & fs2 & tw & fs3 & cli & lf3 & ctx & fs4 & resp &
          HP & HS & HD & HA & HG & HO & HB & ->).
    exists tw. split; [reflexivity|]. cbn [Legacy.run_factory].
    pose proof (Legacy_pool_factory_paths _ _ _ _ _ _ HP) as Hpaths.
    apply Legacy_shuffle_factory_fields in HS. destruct HS as (_ & _ & Hperm).
    apply Legacy_getDockerClient_spec in HG. destruct HG as (_ & _ & Hf3 & _).
    unfold Legacy.createArchive in HA. apply createArchive_with_spec in HA.
    destruct HA as (_ & closing & new & _ & _ & _ & Hnames & _).
    assert (Hall : Legacy.allGeneratedFiles lf3
                   ≡ₚ Legacy.allGeneratedFiles lf
                      ++ pool_paths Legacy.imageDir (Legacy.LayerSizeKB lf)
                                    (Legacy.LayerCount lf)).
    { rewrite Hf3, Hperm, Hpaths. reflexivity. }
    split; [exact Hall|]. split; [rewrite Hf3; exact Hnames|].
    rewrite <- entry_names_length, Hnames, length_app, <- Hf3, Hall, length_app.
    unfold pool_paths. rewrite length_map, length_seq. reflexivity.
Qed.

Lemma DemoImage_image_run_eq' :
  GenerateImage Demo.calm Demo.header_block 2000 DemoImage.pwd 1 2 DemoImage.tags
                DemoBuild.factory Demo.empty_fs = Done DemoImage.image_result.
Proof. exact DemoImage_image_run_eq. Qed.

Lemma factory_accumulates_witness :
  GenerateImage Demo.calm Demo.header_block 2000 DemoImage.pwd 1 2 DemoImage.tags
                DemoBuild.factory Demo.empty_fs = Done DemoImage.image_result /\
  run_err DemoImage.image_result = None /\
  exists tw,
    run_archive DemoImage.image_result = Some tw /\
    allGeneratedFiles (run_factory DemoImage.image_result)
    ≡ₚ allGeneratedFiles DemoBuild.factory ++ pool_paths (imageDir DemoBuild.factory) 1 2 /\
    entry_names (tar.entries tw)
    = allGeneratedFiles (run_factory DemoImage.image_result)
      ++ ["./dockerfile.generated"%string] /\
    length (tar.entries tw)
    = (length (allGeneratedFiles DemoBuild.factory) + N.to_nat 2 + 1)%nat /\
    imageDir (run_factory DemoImage.image_result) = imageDir DemoBuild.factory.
Proof.
  split; [exact DemoImage_image_run_eq'|]. split; [reflexivity|].
  exact (proj1 (@factory_accumulates Demo.source Demo.docker Demo.calm Demo.header_block
                                     2000%nat DemoImage.pwd)
               1%N 2%N DemoImage.tags DemoBuild.factory Demo.empty_fs DemoImage.image_result
               DemoImage_image_run_eq' eq_refl).
Defined.

Section ArchiveContents.
Variable env : oracle.
Variable header_block : tar.Header -> list byte.
Variable statErr readErr : string -> error -> error.

(** The archive that follows the manifest: the last entry is the manifest
    of the entries before it, and the bodies are the files. *)
Lemma archive_of_manifest paths fs1 fs2 name tw fs3 :
  generateDockerfile env paths fs1 = (("./dockerfile.generated"%string, None), fs2) ->
  createArchive_with env header_block statErr readErr name
                     (paths ++ ["./dockerfile.generated"%string]) fs2 = (None, tw, fs3) ->
  "./dockerfile.generated"%string <> name ->
  exists es d,
    tar.entries tw = es ++ [d] /\ entry_names es = paths /\
    tar.Name (tar.hdr d) = "./dockerfile.generated"%string /\
    tar.body d = list_byte_of_string (dockerfile_text (entry_names es)) /\
    forall e, In e (tar.entries tw) -> tar.Name (tar.hdr e) <> name ->
              exists nd, files fs3 !! tar.Name (tar.hdr e) = Some nd /\
                         tar.body e = data nd /\ tar.Size (tar.hdr e) = len (data nd).
Proof.
  intros HD HA Hne.
  pose proof (createArchive_with_frame _ _ _ _ _ _ _ _ _ _ HA) as Hframe.
  apply createArchive_with_spec in HA.
  destruct HA as (_ & closing & new & _ & _ & _ & Hnames & Hok & Hbodies).
  apply generateDockerfile_frame in HD. destruct HD as (_ & HD).
  destruct (HD eq_refl) as (_ & t & Hdf).
  unfold entry_names in Hnames. apply List.map_eq_app in Hnames.
  destruct Hnames as (es & ds & Hsplit & Hes & Hds).
  destruct ds as [|d [|d' ds]]; try discriminate. injection Hds as Hd.
  exists es, d. split; [exact Hsplit|]. split; [exact Hes|]. split; [exact Hd|].
  rewrite List.Forall_forall in Hbodies. rewrite List.Forall_forall in Hok.
  split.
  - destruct (Hbodies d) as (nd & Hnd & Hb).
    + rewrite Hsplit. apply in_or_app. right. left. reflexivity.
    + rewrite Hd. exact Hne.
    + rewrite Hd, Hdf in Hnd. injection Hnd as <-. rewrite Hb.
      unfold entry_names. rewrite Hes. reflexivity.
  - intros e He Hn. destruct (Hbodies e He Hn) as (nd & Hnd & Hb).
    exists nd. split; [rewrite Hframe by exact Hn; exact Hnd|]. split; [exact Hb|].
    destruct (Hok e He) as (Hsize & _). rewrite Hsize, Hb. reflexivity.
Qed.
End ArchiveContents.

(** X9: the archive agrees with its manifest and with the disk.  After a
    run of [GenerateImage] that returned no error, the last entry of the
    archive is [./dockerfile.generated] and its body is the manifest text
    for exactly the names of the entries before it, in archive order; and
    every entry whose name is not the archive's own path holds the bytes of
    the file of that name as it is on disk after the run, with its size in
    the header.  No path of the pool is the path of the archive. *)
Theorem archive_matches_manifest `{R : RandSource} `{D : Docker}
        (env : oracle) (header_block : tar.Header -> list byte)
        (fuel : nat) (pwd : string) :
  (forall size count tags (f : RandomImageFactory) fs r,
      GenerateImage env header_block fuel pwd size count tags f fs = Done r ->
      run_err r = None ->
      exists tw es d,
        run_archive r = Some tw /\
        tar.entries tw = es ++ [d] /\
        entry_names es = allGeneratedFiles (run_factory r) /\
        tar.Name (tar.hdr d) = "./dockerfile.generated"%string /\
        tar.body d = list_byte_of_string (dockerfile_text (entry_names es)) /\
        (forall e, In e (tar.entries tw) ->
                   tar.Name (tar.hdr e) <> path_Join [pwd; "context.tar"%string] ->
                   exists nd, files (run_fs r) !! tar.Name (tar.hdr e) = Some nd /\
                              tar.body e = data nd /\
                              tar.Size (tar.hdr e) = len (data nd)) /\
        (forall p, In p (pool_paths (imageDir f) size count) ->
                   p <> path_Join [pwd; "context.tar"%string])) /\
  (forall (lf : Legacy.RandomImageFactory) g fs r,
      Legacy.GenerateImage env header_block fuel pwd lf g fs = Done r ->
      Legacy.run_err r = None ->
      exists tw es d,
        Legacy.run_archive r = Some tw /\
        tar.entries tw = es ++ [d] /\
        entry_names es = Legacy.allGeneratedFiles (Legacy.run_factory r) /\
        tar.Name (tar.hdr d) = "./dockerfile.generated"%string /\
        tar.body d = list_byte_of_string (dockerfile_text (entry_names es)) /\
        (forall e, In e (tar.entries tw) ->
                   tar.Name (tar.hdr e) <> path_Join [pwd; "context.tar"%string] ->
                   exists nd, files (Legacy.run_fs r) !! tar.Name (tar.hdr e) = Some nd /\
                              tar.body e = data nd /\
                              tar.Size (tar.hdr e) = len (data nd)) /\
        (forall p, In p (pool_paths Legacy.imageDir (Legacy.LayerSizeKB lf)
                                    (Legacy.LayerCount lf)) ->
                   p <> path_Join [pwd; "context.tar"%string])).
Proof.
  assert (Hpool : forall dir size count p,
             In p (pool_paths dir size count) -> p <> path_Join [pwd; "context.tar"%string]).
  { intros dir size count p Hp. unfold pool_paths in Hp. apply in_map_iff in Hp.
    destruct Hp as (k & <- & _). apply tarFile_not_pool. }
  split.
  - intros size count tags f fs r Hrun Herr.
    destruct (GenerateImage_stages _ _ _ _ _ _ _ _ _ _ Hrun Herr)
      as (f0 & f1 & fs1 & f2 & fs2 & tw & fs3 & cli & f3 & ctx & fs4 & resp &
          _ & HP & HS & HD & HA & HG & HO & HB & ->).
    cbn [run_archive run_factory run_fs].
    apply getDockerClient_spec in HG. destruct HG as (_ & _ & Hf3 & _).
    apply Open_spec in HO. destruct HO as (Hf4 & _).
    unfold createArchive in HA.
    destruct (archive_of_manifest _ _ _ _ _ _ _ _ _ _ HD HA (tarFile_not_dockerfile pwd))
      as (es & d & H1 & H2 & H3 & H4 & H5).
    exists tw, es, d. split; [reflexivity|]. split; [exact H1|].
    split; [rewrite Hf3; exact H2|]. split; [exact H3|]. split; [exact H4|].
    split; [|apply Hpool].
    intros e He Hn. rewrite Hf4. apply H5; assumption.
  - intros lf g fs r Hrun Herr.
    destruct (Legacy_GenerateImage_stages _ _ _ _ _ _ _ _ Hrun Herr)
      as (lf1 & fs1 & lf2 & g2 & fs2 & tw & fs3 & cli & lf3 & ctx & fs4 & resp &
          HP & HS & HD & HA & HG & HO & HB & ->).
    cbn [Legacy.run_archive Legacy.run_factory Legacy.run_fs].
    apply Legacy_getDockerClient_spec in HG. destruct HG as (_ & _ & Hf3 & _).
    apply Open_spec in HO. destruct HO as (Hf4 & _).
    unfold Legacy.createArchive in HA.
    destruct (archive_of_manifest _ _ _ _ _ _ _ _ _ _ HD HA (tarFile_not_dockerfile pwd))
      as (es & d & H1 & H2 & H3 & H4 & H5).
    exists tw, es, d. split; [reflexivity|]. split; [exact H1|].
    split; [rewrite Hf3; exact H2|]. split; [exact H3|]. split; [exact H4|].
    split; [|apply Hpool].
    intros e He Hn. rewrite Hf4. apply H5; assumption.
Qed.

Lemma archive_matches_manifest_witness :
  GenerateImage Demo.calm Demo.header_block 2000 DemoImage.pwd 1 2 DemoImage.tags
                DemoBuild.factory Demo.empty_fs = Done DemoImage.image_result /\
  run_err DemoImage.image_result = None /\
  exists tw es d,
    run_archive DemoImage.image_result = Some tw /\
    tar.entries tw = es ++ [d] /\
    entry_names es = allGeneratedFiles (run_factory DemoImage.image_result) /\
    tar.Name (tar.hdr d) = "./dockerfile.generated"%string /\
    tar.body d = list_byte_of_string (dockerfile_text (entry_names es)) /\
    (forall e, In e (tar.entries tw) ->
               tar.Name (tar.hdr e) <> path_Join [DemoImage.pwd; "context.tar"%string] ->
               exists nd, files (run_fs DemoImage.image_result) !! tar.Name (tar.hdr e)
                          = Some nd /\
                          tar.body e = data nd /\
                          tar.Size (tar.hdr e) = len (data nd)) /\
    (forall p, In p (pool_paths (imageDir DemoBuild.factory) 1 2) ->
               p <> path_Join [DemoImage.pwd; "context.tar"%string]).
Proof.
  split; [exact DemoImage_image_run_eq'|]. split; [reflexivity|].
  exact (proj1 (@archive_matches_manifest Demo.source Demo.docker Demo.calm
                                          Demo.header_block 2000%nat DemoImage.pwd)
               1%N 2%N DemoImage.tags DemoBuild.factory Demo.empty_fs DemoImage.image_result
               DemoImage_image_run_eq' eq_refl).
Defined.

Opaque filePath.

Section PoolFrame.
Context {R : RandSource}.
Variable env : oracle.
Variable F : Type.
Variable record : string -> F -> F.
Variable gen : nat -> Z -> F -> outcome (list byte * F).

Lemma pool_loop_frame (todo : nat) :
  forall fuel dir size i f fs r f' fs',
    pool_loop env F record gen fuel dir size todo i f fs = Done (r, f', fs') ->
    forall q, (forall k, (k < todo)%nat -> q <> filePath dir size (i + N.of_nat k)) ->
              files fs' !! q = files fs !! q.
Proof.
  induction todo as [|todo IH]; intros fuel dir size i f fs r f' fs' Hrun q Hq;
    simpl in Hrun.
  - injection Hrun as <- <- <-. reflexivity.
  - assert (Hq0 : q <> filePath dir size i).
    { specialize (Hq 0%nat ltac:(lia)). replace (i + N.of_nat 0)%N with i in Hq by lia.
      exact Hq. }
    assert (Hq1 : forall k, (k < todo)%nat -> q <> filePath dir size (i + 1 + N.of_nat k)).
    { intros k Hk. specialize (Hq (S k) ltac:(lia)).
      replace (i + N.of_nat (S k))%N with (i + 1 + N.of_nat k)%N in Hq by lia. exact Hq. }
    destruct (Stat env (filePath dir size i) fs) as [[info|err] fs1] eqn:ES;
      apply Stat_spec in ES; destruct ES as (Hf1 & _).
    + rewrite (IH _ _ _ _ _ _ _ _ _ Hrun q Hq1), Hf1. reflexivity.
    + destruct (negb (IsNotExist err)).
      { injection Hrun as <- <- <-. rewrite Hf1. reflexivity. }
      destruct (gen fuel _ (record (filePath dir size i) f)) as [[bs f2]| |];
        try discriminate.
      destruct (WriteFile env (filePath dir size i) bs fs1) as [[err'|] fs2] eqn:EW;
        apply WriteFile_spec in EW; destruct EW as (_ & Hf2 & _).
      { injection Hrun as <- <- <-. rewrite Hf2, Hf1 by exact Hq0. reflexivity. }
      rewrite (IH _ _ _ _ _ _ _ _ _ Hrun q Hq1), Hf2, Hf1 by exact Hq0. reflexivity.
Qed.

(** The pool changes the files at its own paths only, and of those only
    the ones that were not there. *)
Lemma pool_frame fuel dir size count f fs r f' fs' :
  pool env F record gen fuel dir size count f fs = Done (r, f', fs') ->
  forall q, ~ In q (pool_paths dir size count) \/ is_Some (files fs !! q) ->
            files fs' !! q = files fs !! q.
Proof.
  intros Hrun q [Hq|[nd Hq]].
  - unfold pool in Hrun.
    destruct (MkdirAll env dir fs) as [[err|] fs1] eqn:EM;
      apply MkdirAll_spec in EM; destruct EM as (Hf1 & _).
    + injection Hrun as <- <- <-. rewrite Hf1. reflexivity.
    + rewrite (pool_loop_frame _ _ _ _ _ _ _ _ _ _ Hrun q), Hf1; [reflexivity|].
      intros k Hk E. apply Hq. unfold pool_paths. apply in_map_iff.
      exists k. split; [rewrite E; reflexivity|]. apply in_seq. lia.
  - apply pool_preserves in Hrun. destruct Hrun as (Hpres & _).
    rewrite Hq. apply Hpres, Hq.
Qed.
End PoolFrame.

Transparent filePath.

(** X10: what a run leaves alone.  Whatever [GenerateImage] returns, the
    only files it creates or changes are pool files that were not there, the
    manifest [./dockerfile.generated] and the archive [$PWD/context.tar]:
    every other path, and every pool file that existed, has the same content
    and time stamp as before, or is absent as before. *)
Theorem run_touches_only_artifacts `{R : RandSource} `{D : Docker}
        (env : oracle) (header_block : tar.Header -> list byte)
        (fuel : nat) (pwd : string) :
  (forall size count tags (f : RandomImageFactory) fs r,
      GenerateImage env header_block fuel pwd size count tags f fs = Done r ->
      forall q,
        q <> "./dockerfile.generated"%string ->
        q <> path_Join [pwd; "context.tar"%string] ->
        ~ In q (pool_paths (imageDir f) size count) \/ is_Some (files fs !! q) ->
        files (run_fs r) !! q = files fs !! q) /\
  (forall (lf : Legacy.RandomImageFactory) g fs r,
      Legacy.GenerateImage env header_block fuel pwd lf g fs = Done r ->
      forall q,
        q <> "./dockerfile.generated"%string ->
        q <> path_Join [pwd; "context.tar"%string] ->
        ~ In q (pool_paths Legacy.imageDir (Legacy.LayerSizeKB lf) (Legacy.LayerCount lf))
        \/ is_Some (files fs !! q) ->
        files (Legacy.run_fs r) !! q = files fs !! q).
Proof.
  split.
  - intros size count tags f fs r Hrun q Hq1 Hq2 Hq3. unfold GenerateImage in Hrun.
    set (f0 := match logger f with
               | None => set_logger (Some {| prefix := ""; flag := 3 |}) f
               | Some _ => f
               end) in Hrun.
    assert (Hdir : imageDir f0 = imageDir f) by (unfold f0; destruct (logger f); reflexivity).
    destruct (generateRandomFilePool env fuel size count f0 fs)
      as [[[r1 f1] fs1]| |] eqn:EP; try discriminate.
    unfold generateRandomFilePool in EP. rewrite Hdir in EP.
    pose proof (pool_frame _ _ _ _ _ _ _ _ _ _ _ _ _ EP q Hq3) as H1.
    destruct r1 as [err|]; [injection Hrun as <-; exact H1|].
    destruct (shuffleGeneratedFilePaths f1) as [f2| |]; try discriminate.
    destruct (generateDockerfile env (allGeneratedFiles f2) fs1) as [[name r2] fs2] eqn:ED.
    apply generateDockerfile_frame in ED. destruct ED as (H2 & _).
    specialize (H2 q Hq1).
    destruct r2 as [err|]; [injection Hrun as <-; cbn [run_fs]; congruence|].
    destruct (createArchive env header_block _ _ fs2) as [[r3 tw] fs3] eqn:EA.
    unfold createArchive in EA.
    pose proof (createArchive_with_frame _ _ _ _ _ _ _ _ _ _ EA q Hq2) as H3.
    destruct r3 as [err|]; [injection Hrun as <-; cbn [run_fs]; congruence|].
    destruct (getDockerClient f2) as [[cli|err] f3];
      [|injection Hrun as <-; cbn [run_fs]; congruence].
    destruct (Open env _ fs3) as [[ctx|err] fs4] eqn:EO;
      apply Open_spec in EO; destruct EO as (H4 & _).
    + destruct (ImageBuild cli ctx name tags); injection Hrun as <-; cbn [run_fs];
        congruence.
    + injection Hrun as <-. cbn [run_fs]. congruence.
  - intros lf g fs r Hrun q Hq1 Hq2 Hq3. unfold Legacy.GenerateImage in Hrun.
    destruct (Legacy.generateRandomFilePool env fuel lf fs)
      as [[[r1 lf1] fs1]| |] eqn:EP; try discriminate.
    unfold Legacy.generateRandomFilePool in EP.
    pose proof (pool_frame _ _ _ _ _ _ _ _ _ _ _ _ _ EP q Hq3) as H1.
    destruct r1 as [err|]; [injection Hrun as <-; exact H1|].
    destruct (Legacy.shuffleGeneratedFilePaths lf1 g) as [[lf2 g2]| |]; try discriminate.
    destruct (generateDockerfile env (Legacy.allGeneratedFiles lf2) fs1)
      as [[name r2] fs2] eqn:ED.
    apply generateDockerfile_frame in ED. destruct ED as (H2 & _).
    specialize (H2 q Hq1).
    destruct r2 as [err|]; [injection Hrun as <-; cbn [Legacy.run_fs]; congruence|].
    destruct (Legacy.createArchive env header_block _ _ fs2) as [[r3 tw] fs3] eqn:EA.
    unfold Legacy.createArchive in EA.
    pose proof (createArchive_with_frame _ _ _ _ _ _ _ _ _ _ EA q Hq2) as H3.
    destruct r3 as [err|]; [injection Hrun as <-; cbn [Legacy.run_fs]; congruence|].
    destruct (Legacy.getDockerClient lf2) as [[cli|err] lf3];
      [|injection Hrun as <-; cbn [Legacy.run_fs]; congruence].
    destruct (Open env _ fs3) as [[ctx|err] fs4] eqn:EO;
      apply Open_spec in EO; destruct EO as (H4 & _).
    + destruct (ImageBuild cli ctx name (Legacy.Tags lf3)); injection Hrun as <-;
        cbn [Legacy.run_fs]; congruence.
    + injection Hrun as <-. cbn [Legacy.run_fs]. congruence.
Qed.

Lemma run_touches_only_artifacts_witness :
  GenerateImage Demo.calm Demo.header_block 2000 DemoImage.pwd 1 2 DemoImage.tags
                DemoBuild.factory Demo.empty_fs = Done DemoImage.image_result /\
  forall q,
    q <> "./dockerfile.generated"%string ->
    q <> path_Join [DemoImage.pwd; "context.tar"%string] ->
    ~ In q (pool_paths (imageDir DemoBuild.factory) 1 2)
    \/ is_Some (files Demo.empty_fs !! q) ->
    files (run_fs DemoImage.image_result) !! q = files Demo.empty_fs !! q.
Proof.
  split; [exact DemoImage_image_run_eq'|].
  exact (proj1 (@run_touches_only_artifacts Demo.source Demo.docker Demo.calm
                                            Demo.header_block 2000%nat DemoImage.pwd)
               1%N 2%N DemoImage.tags DemoBuild.factory Demo.empty_fs DemoImage.image_result
               DemoImage_image_run_eq').
Defined.

(** X11: what the daemon is given.  When [GenerateImage] returns no error,
    the daemon accepted one build whose context is the content of
    [$PWD/context.tar] as the run left it, whose Dockerfile is
    [./dockerfile.generated], and whose tags are the caller's.  The client
    is the one the factory held, or a new one that the factory holds from
    then on.  From the build command the tags are always
    [registry.digitalocean.com/meow/rando], whatever [--tags] says. *)
Theorem daemon_receives `{R : RandSource} `{D : Docker}
        (env : oracle) (header_block : tar.Header -> list byte)
        (fuel : nat) (pwd : string) :
  (forall size count tags (f : RandomImageFactory) fs r,
      GenerateImage env header_block fuel pwd size count tags f fs = Done r ->
      run_err r = None ->
      exists cli nd resp,
        files (run_fs r) !! path_Join [pwd; "context.tar"%string] = Some nd /\
        ImageBuild cli (data nd) "./dockerfile.generated" tags = inl resp /\
        dockerClient (run_factory r) = Some cli /\
        match dockerClient f with
        | Some c => cli = c
        | None => NewEnvClient = inl cli
        end) /\
  (forall layerSize layerCount seed tags g fs r,
      cmd.RunE env header_block fuel pwd layerSize layerCount seed tags g fs = Done r ->
      Legacy.run_err r = None ->
      exists cli nd resp,
        files (Legacy.run_fs r) !! path_Join [pwd; "context.tar"%string] = Some nd /\
        ImageBuild cli (data nd) "./dockerfile.generated"
                   ["registry.digitalocean.com/meow/rando"%string] = inl resp /\
        NewClientWithOpts = inl cli /\
        Legacy.dockerClient (Legacy.run_factory r) = Some cli).
Proof.
  split.
  - intros size count tags f fs r Hrun Herr.
    destruct (GenerateImage_stages _ _ _ _ _ _ _ _ _ _ Hrun Herr)
      as (f0 & f1 & fs1 & f2 & fs2 & tw & fs3 & cli & f3 & ctx & fs4 & resp &
          (_ & _ & _ & Hc0) & HP & HS & HD & HA & HG & HO & HB & ->).
    cbn [run_factory run_fs].
    apply pool_factory_fields in HP. destruct HP as (_ & Hc1 & _).
    apply shuffle_factory_fields in HS. destruct HS as (_ & Hc2 & _).
    apply getDockerClient_spec in HG. destruct HG as (Hc3 & _ & _ & _ & Hcli).
    rewrite Hc2, Hc1, Hc0 in Hcli.
    unfold createArchive in HA. apply createArchive_with_created in HA.
    destruct HA as [nd Hnd].
    apply Open_spec in HO. destruct HO as (Hf4 & _ & Hctx).
    rewrite (Hctx nd Hnd) in HB.
    exists cli, nd, resp. rewrite Hf4. repeat split; assumption.
  - intros layerSize layerCount seed tags g fs r Hrun Herr. unfold cmd.RunE in Hrun.
    destruct (Legacy_GenerateImage_stages _ _ _ _ _ _ _ _ Hrun Herr)
      as (lf1 & fs1 & lf2 & g2 & fs2 & tw & fs3 & cli & lf3 & ctx & fs4 & resp &
          HP & HS & HD & HA & HG & HO & HB & ->).
    cbn [Legacy.run_factory Legacy.run_fs].
    apply Legacy_pool_factory_fields in HP. destruct HP as (_ & _ & _ & Ht1 & Hc1).
    apply Legacy_shuffle_factory_fields in HS. destruct HS as (Ht2 & Hc2 & _).
    apply Legacy_getDockerClient_spec in HG. destruct HG as (Hc3 & Ht3 & _ & Hcli).
    rewrite Hc2, Hc1 in Hcli. cbn [Legacy.dockerClient] in Hcli.
    rewrite Ht3, Ht2, Ht1 in HB. cbn [Legacy.Tags] in HB.
    unfold Legacy.createArchive in HA. apply createArchive_with_created in HA.
    destruct HA as [nd Hnd].
    apply Open_spec in HO. destruct HO as (Hf4 & _ & Hctx).
    rewrite (Hctx nd Hnd) in HB.
    exists cli, nd, resp. rewrite Hf4. repeat split; assumption.
Qed.

Lemma daemon_receives_witness :
  GenerateImage Demo.calm Demo.header_block 2000 DemoImage.pwd 1 2 DemoImage.tags
                DemoBuild.factory Demo.empty_fs = Done DemoImage.image_result /\
  run_err DemoImage.image_result = None /\
  exists cli nd resp,
    files (run_fs DemoImage.image_result) !! path_Join [DemoImage.pwd; "context.tar"%string]
    = Some nd /\
    ImageBuild (Docker := Demo.docker) cli (data nd) "./dockerfile.generated" DemoImage.tags
    = inl resp /\
    dockerClient (run_factory DemoImage.image_result) = Some cli /\
    match dockerClient DemoBuild.factory with
    | Some c => cli = c
    | None => NewEnvClient = inl cli
    end.
Proof.
  split; [exact DemoImage_image_run_eq'|]. split; [reflexivity|].
  exact (proj1 (@daemon_receives Demo.source Demo.docker Demo.calm Demo.header_block
                                 2000%nat DemoImage.pwd)
               1%N 2%N DemoImage.tags DemoBuild.factory Demo.empty_fs DemoImage.image_result
               DemoImage_image_run_eq' eq_refl).
Defined.

(** X12: [GenerateImage] returns.  On a source that does not reject for
    ever and whose [Intn] stays in range, and for a layer size whose byte
    count is not negative, a run neither panics nor loops: from some amount
    of fuel on it returns one and the same result. *)
Theorem GenerateImage_returns `{R : RandSource} `{D : Docker}
        (env : oracle) (header_block : tar.Header -> list byte) (pwd : string) :
  productive -> Intn_in_range ->
  (forall size count tags (f : RandomImageFactory) fs,
      0 <= layer_bytes size ->
      exists fuel0 r,
        forall fuel, (fuel0 <= fuel)%nat ->
                     GenerateImage env header_block fuel pwd size count tags f fs = Done r) /\
  (forall (lf : Legacy.RandomImageFactory) g fs,
      0 <= layer_bytes (Legacy.LayerSizeKB lf) ->
      exists fuel0 r,
        forall fuel, (fuel0 <= fuel)%nat ->
                     Legacy.GenerateImage env header_block fuel pwd lf g fs = Done r).
Proof.
  intros Hprod Hrange. split.
  - intros size count tags f fs Hn.
    set (f0 := match logger f with
               | None => set_logger (Some {| prefix := ""; flag := 3 |}) f
               | Some _ => f
               end).
    destruct (pool_returns env RandomImageFactory
                (fun p f => set_files (allGeneratedFiles f ++ [p]) f) randBytes
                (layer_bytes size)) with (dir := imageDir f0) (size := size) (count := count)
                                         (f := f0) (fs := fs)
      as (fuel0 & r1 & f1 & fs1 & HP).
    { intros x. destruct (randBytes_from_terminates Hprod _ (src x) Hn) as (fuel1 & b & s & H).
      exists fuel1, b, (set_src s x). intros fuel Hf. unfold randBytes.
      rewrite (randBytes_from_fuel_mono _ _ _ _ _ Hf H). reflexivity. }
    { reflexivity. }
    exists fuel0.
    assert (Hsame : forall fuel, (fuel0 <= fuel)%nat ->
              GenerateImage env header_block fuel pwd size count tags f fs
              = GenerateImage env header_block fuel0 pwd size count tags f fs).
    { intros fuel Hf. unfold GenerateImage, generateRandomFilePool. fold f0.
      rewrite (HP fuel Hf), (HP fuel0 (le_n _)). reflexivity. }
    assert (Hr : exists r, GenerateImage env header_block fuel0 pwd size count tags f fs
                           = Done r).
    { unfold GenerateImage, generateRandomFilePool. fold f0. rewrite (HP fuel0 (le_n _)).
      destruct r1 as [err|]; [eexists; reflexivity|].
      unfold shuffleGeneratedFilePaths. rewrite (shuffle_spec Hrange).
      destruct (generateDockerfile env _ fs1) as [[name [err|]] fs2];
        [eexists; reflexivity|].
      destruct (createArchive env header_block _ _ fs2) as [[[err|] tw] fs3];
        [eexists; reflexivity|].
      destruct (getDockerClient _) as [[cli|err] f3]; [|eexists; reflexivity].
      destruct (Open env _ fs3) as [[ctx|err] fs4]; [|eexists; reflexivity].
      destruct (ImageBuild cli ctx name tags); eexists; reflexivity. }
    destruct Hr as [r Hr]. exists r. intros fuel Hf. rewrite (Hsame fuel Hf). exact Hr.
  - intros lf g fs Hn.
    destruct (pool_returns env Legacy.RandomImageFactory
                (fun p f => Legacy.set_files (Legacy.allGeneratedFiles f ++ [p]) f)
                Legacy.randBytes (layer_bytes (Legacy.LayerSizeKB lf)))
      with (dir := Legacy.imageDir) (size := Legacy.LayerSizeKB lf)
           (count := Legacy.LayerCount lf) (f := lf) (fs := fs)
      as (fuel0 & r1 & lf1 & fs1 & HP).
    { intros x.
      destruct (randBytes_from_terminates Hprod _ (NewSource (Legacy.Seed x)) Hn)
        as (fuel1 & b & s & H).
      exists fuel1, b, x. intros fuel Hf. unfold Legacy.randBytes.
      rewrite (randBytes_from_fuel_mono _ _ _ _ _ Hf H). reflexivity. }
    { reflexivity. }
    exists fuel0.
    assert (Hsame : forall fuel, (fuel0 <= fuel)%nat ->
              Legacy.GenerateImage env header_block fuel pwd lf g fs
              = Legacy.GenerateImage env header_block fuel0 pwd lf g fs).
    { intros fuel Hf. unfold Legacy.GenerateImage, Legacy.generateRandomFilePool.
      rewrite (HP fuel Hf), (HP fuel0 (le_n _)). reflexivity. }
    assert (Hr : exists r, Legacy.GenerateImage env header_block fuel0 pwd lf g fs = Done r).
    { unfold Legacy.GenerateImage, Legacy.generateRandomFilePool.
      rewrite (HP fuel0 (le_n _)).
      destruct r1 as [err|]; [eexists; reflexivity|].
      unfold Legacy.shuffleGeneratedFilePaths. rewrite (shuffle_spec Hrange).
      destruct (generateDockerfile env _ fs1) as [[name [err|]] fs2];
        [eexists; reflexivity|].
      destruct (Legacy.createArchive env header_block _ _ fs2) as [[[err|] tw] fs3];
        [eexists; reflexivity|].
      destruct (Legacy.getDockerClient _) as [[cli|err] lf3]; [|eexists; reflexivity].
      destruct (Open env _ fs3) as [[ctx|err] fs4]; [|eexists; reflexivity].
      destruct (ImageBuild cli ctx name _); eexists; reflexivity. }
    destruct Hr as [r Hr]. exists r. intros fuel Hf. rewrite (Hsame fuel Hf). exact Hr.
Qed.

Lemma GenerateImage_returns_witness :
  productive (R := Demo.source) /\ Intn_in_range (R := Demo.source) /\
  (forall size count tags (f : RandomImageFactory) fs,
      0 <= layer_bytes size ->
      exists fuel0 r,
        forall fuel, (fuel0 <= fuel)%nat ->
                     GenerateImage (R := Demo.source) (D := Demo.docker)
                                   Demo.calm Demo.header_block fuel DemoImage.pwd
                                   size count tags f fs = Done r) /\
  (forall (lf : Legacy.RandomImageFactory) g fs,
      0 <= layer_bytes (Legacy.LayerSizeKB lf) ->
      exists fuel0 r,
        forall fuel, (fuel0 <= fuel)%nat ->
                     Legacy.GenerateImage (R := Demo.source) (D := Demo.docker)
                                          Demo.calm Demo.header_block fuel DemoImage.pwd
                                          lf g fs = Done r).
Proof.
  split; [exact Demo_source_productive|]. split; [exact Demo_Intn_in_range|].
  exact (@GenerateImage_returns Demo.source Demo.docker Demo.calm Demo.header_block
           DemoImage.pwd Demo_source_productive Demo_Intn_in_range).
Defined.

(** ** The errors of the struct-field variant's archive *)

(** X13: the struct-field variant cannot hand on the cause of a failed
    [os.Stat] or [ioutil.ReadFile] in [createArchive].  Whenever its
    [createArchive] fails, the error either wraps the [*PathError] of the
    failed call, or it is a plain error without a cause whose text quotes
    the cause where the path was meant and ends in [%!w(MISSING)].  The
    second case is the one of a failed [os.Stat]; the options variant wraps
    the cause there and names the path. *)
Theorem legacy_archive_error_not_wrapped
        (env : oracle) (header_block : tar.Header -> list byte)
        (name : string) (paths : list string) (fs : FS) :
  (forall err tw fs',
      Legacy.createArchive env header_block name paths fs = (Some err, tw, fs') ->
      exists closing e rest cause,
        trace fs' = closing ++ (e :: rest) ++ trace fs /\ path_error_of e cause /\
        (Unwrap err = Some cause \/
         Unwrap err = None /\
         exists what, In what ["failed to read file info "%string; "failed to read file "%string] /\
                      Error err = what +:+ Quote (Error cause) +:+ ": %!w(MISSING)")) /\
  (forall p rest fs1 cause fs2,
      paths = p :: rest ->
      Create env name fs = (None, fs1) ->
      Stat env p fs1 = (inr cause, fs2) ->
      fst (fst (Legacy.createArchive env header_block name paths fs))
      = Some (errorString ("failed to read file info " +:+ Quote (Error cause)
                             +:+ ": %!w(MISSING)")) /\
      fst (fst (createArchive env header_block name paths fs))
      = Some (wrapError ("failed to read file info " +:+ Quote p +:+ ": " +:+ Error cause)
                        cause)).
Proof.
  split.
  - intros err tw fs' H. unfold Legacy.createArchive in H.
    apply createArchive_with_spec in H.
    destruct H as (_ & closing & new & Ht & _ & e & rest & cause & -> & _ & _ & Hpe & Herr).
    exists closing, e, rest, cause. split; [exact Ht|]. split; [exact Hpe|].
    destruct Herr as [->|[(p & _ & [->| ->])|[->| ->]]].
    + left. reflexivity.
    + right. split; [reflexivity|]. exists "failed to read file info "%string.
      split; [left; reflexivity|reflexivity].
    + right. split; [reflexivity|]. exists "failed to read file "%string.
      split; [right; left; reflexivity|reflexivity].
    + left. reflexivity.
    + left. reflexivity.
  - intros p rest fs1 cause fs2 -> HC HS.
    unfold Legacy.createArchive, createArchive, createArchive_with. rewrite HC.
    cbn [createArchive_loop]. rewrite HS.
    destruct (tar.Close env (tar.NewWriter name) fs2) as [[r3 tw3] fs3].
    split; [reflexivity|]. cbn [fst]. f_equal.
    assert (HE : Errorf "failed to read file info %q: %w" [OStr p; OErr cause]
                 = wrapError ("failed to read file info "
                                +:+ (Quote p +:+ (": " +:+ (Error cause +:+ "")))) cause)
      by reflexivity.
    rewrite HE, string_app_nil_r. reflexivity.
Qed.

Lemma DemoMore_legacy_denied_archive_eq :
  Legacy.createArchive DemoImage.denied_at_stat Demo.header_block "/home/u/context.tar"
                       ["layer.txt"%string] Demo.empty_fs
  = (Some DemoMore.legacy_denied_err, DemoMore.legacy_denied_writer,
     DemoMore.legacy_denied_fs).
Proof.
  vm_cast_no_check
    (@eq_refl _ (Some DemoMore.legacy_denied_err, DemoMore.legacy_denied_writer,
                 DemoMore.legacy_denied_fs)).
Qed.

Lemma legacy_archive_error_not_wrapped_witness :
  Legacy.createArchive DemoImage.denied_at_stat Demo.header_block "/home/u/context.tar"
                       ["layer.txt"%string] Demo.empty_fs
  = (Some DemoMore.legacy_denied_err, DemoMore.legacy_denied_writer,
     DemoMore.legacy_denied_fs) /\
  exists closing e rest cause,
    trace DemoMore.legacy_denied_fs = closing ++ (e :: rest) ++ trace Demo.empty_fs /\
    path_error_of e cause /\
    (Unwrap DemoMore.legacy_denied_err = Some cause \/
     Unwrap DemoMore.legacy_denied_err = None /\
     exists what, In what ["failed to read file info "%string; "failed to read file "%string] /\
                  Error DemoMore.legacy_denied_err
                  = what +:+ Quote (Error cause) +:+ ": %!w(MISSING)").
Proof.
  split; [exact DemoMore_legacy_denied_archive_eq|].
  exact (proj1 (legacy_archive_error_not_wrapped
                  DemoImage.denied_at_stat Demo.header_block "/home/u/context.tar"
                  ["layer.txt"%string] Demo.empty_fs)
               DemoMore.legacy_denied_err DemoMore.legacy_denied_writer
               DemoMore.legacy_denied_fs DemoMore_legacy_denied_archive_eq).
Defined.

(** ** The orders the shuffler can reach *)

Lemma swap_app_l (i j : nat) (l t : list string) :
  (i < length l)%nat -> (j < length l)%nat -> swap i j (l ++ t) = swap i j l ++ t.
Proof.
  intros Hi Hj. unfold swap. rewrite !lookup_app_l by lia.
  destruct (l !! i) as [x|]; [|reflexivity]. destruct (l !! j) as [y|]; [|reflexivity].
  rewrite insert_app_l by lia. rewrite insert_app_l by (rewrite length_insert; lia).
  reflexivity.
Qed.

Lemma swap_lookup_l (i j : nat) (l : list string) :
  (i < length l)%nat -> (j < length l)%nat -> swap i j l !! i = l !! j.
Proof.
  intros Hi Hj. unfold swap.
  destruct (lookup_lt_is_Some_2 l i Hi) as [x Hx].
  destruct (lookup_lt_is_Some_2 l j Hj) as [y Hy]. rewrite Hx, Hy.
  destruct (decide (i = j)) as [->|Hne].
  - rewrite list_lookup_insert_eq by (rewrite length_insert; lia). congruence.
  - rewrite list_lookup_insert_ne by congruence.
    rewrite list_lookup_insert_eq by lia. reflexivity.
Qed.

Lemma swap_lookup_r (i j : nat) (l : list string) :
  (i < length l)%nat -> (j < length l)%nat -> swap i j l !! j = l !! i.
Proof.
  intros Hi Hj. unfold swap.
  destruct (lookup_lt_is_Some_2 l i Hi) as [x Hx].
  destruct (lookup_lt_is_Some_2 l j Hj) as [y Hy]. rewrite Hx, Hy.
  rewrite list_lookup_insert_eq by (rewrite length_insert; lia). reflexivity.
Qed.

Lemma swap_lookup_other (i j k : nat) (l : list string) :
  k <> i -> k <> j -> swap i j l !! k = l !! k.
Proof.
  intros Hi Hj. unfold swap.
  destruct (l !! i) as [x|]; [|reflexivity]. destruct (l !! j) as [y|]; [|reflexivity].
  rewrite !list_lookup_insert_ne by congruence. reflexivity.
Qed.

Lemma swap_involutive (i j : nat) (l : list string) :
  (i < length l)%nat -> (j < length l)%nat -> swap i j (swap i j l) = l.
Proof.
  intros Hi Hj. apply list_eq. intros k.
  assert (Hi' : (i < length (swap i j l))%nat) by (rewrite swap_length; exact Hi).
  assert (Hj' : (j < length (swap i j l))%nat) by (rewrite swap_length; exact Hj).
  destruct (decide (k = i)) as [->|Hki].
  - rewrite swap_lookup_l, swap_lookup_r by assumption. reflexivity.
  - destruct (decide (k = j)) as [->|Hkj].
    + rewrite swap_lookup_r, swap_lookup_l by assumption. reflexivity.
    + rewrite !swap_lookup_other by assumption. reflexivity.
Qed.

Lemma choices_in_range_tail (i j : nat) (js : list nat) :
  choices_in_range i (j :: js) -> (j <= i)%nat /\ choices_in_range (S i) js.
Proof.
  intros H. split.
  - specialize (H 0%nat j eq_refl). lia.
  - intros k x Hk. specialize (H (S k) x Hk). lia.
Qed.

Lemma fisher_yates_prefix (js : list nat) :
  forall i (l t : list string),
    choices_in_range i js -> (i + length js <= length l)%nat ->
    fisher_yates i js (l ++ t) = fisher_yates i js l ++ t.
Proof.
  induction js as [|j js IH]; intros i l t Hr Hlen; [reflexivity|].
  apply choices_in_range_tail in Hr. destruct Hr as [Hj Hr]. simpl in *.
  rewrite swap_app_l by lia. apply IH; [exact Hr|]. rewrite swap_length. lia.
Qed.

Lemma fisher_yates_app (js1 js2 : list nat) :
  forall i (l : list string),
    fisher_yates i (js1 ++ js2) l
    = fisher_yates (i + length js1) js2 (fisher_yates i js1 l).
Proof.
  induction js1 as [|j js1 IH]; intros i l; simpl.
  - rewrite Nat.add_0_r. reflexivity.
  - rewrite IH. replace (S i + length js1)%nat with (i + S (length js1))%nat by lia.
    reflexivity.
Qed.

Lemma last_split (l : list string) (a : string) (n : nat) :
  length l = S n -> l !! n = Some a -> l = take n l ++ [a].
Proof.
  intros Hlen Ha. rewrite <- (take_drop n l) at 1. f_equal.
  apply list_eq. intros k. rewrite lookup_drop.
  destruct k as [|k]; simpl.
  - rewrite Nat.add_0_r. exact Ha.
  - rewrite lookup_nil. apply lookup_ge_None. lia.
Qed.

(** Every order is reached by in-range choices. *)
Lemma fisher_yates_reaches (l : list string) :
  forall l', l' ≡ₚ l ->
             exists js, length js = length l /\ choices_in_range 0 js /\
                        fisher_yates 0 js l = l'.
Proof.
  induction l as [|a l0 IH] using rev_ind; intros l' Hperm.
  - apply Permutation_nil_r in Hperm. subst l'. exists []. split; [reflexivity|].
    split; [|reflexivity]. intros k j Hk. rewrite lookup_nil in Hk. discriminate.
  - set (n := length l0).
    assert (Hlen' : length l' = S n).
    { rewrite Hperm, length_app. simpl. unfold n. lia. }
    assert (Hin : a ∈ l').
    { rewrite Hperm. apply elem_of_app. right. apply list_elem_of_singleton. reflexivity. }
    apply list_elem_of_lookup in Hin. destruct Hin as [j Hj].
    assert (Hjn : (j < S n)%nat) by (rewrite <- Hlen'; eapply lookup_lt_Some; exact Hj).
    set (P' := swap n j l').
    assert (HP'n : P' !! n = Some a).
    { unfold P'. rewrite swap_lookup_l by lia. exact Hj. }
    assert (HP'len : length P' = S n) by (unfold P'; rewrite swap_length; exact Hlen').
    pose proof (last_split P' a n HP'len HP'n) as Hsplit.
    assert (HP : take n P' ≡ₚ l0).
    { apply (Permutation_app_inv_r [a]). rewrite <- Hsplit. unfold P'.
      rewrite swap_perm. exact Hperm. }
    destruct (IH _ HP) as (js0 & Hl0 & Hr0 & Hfy).
    exists (js0 ++ [j]). split; [rewrite !length_app; simpl; lia|]. split.
    + intros k x Hk. destruct (decide (k < length js0)%nat) as [Hlt|Hge].
      * rewrite lookup_app_l in Hk by exact Hlt. exact (Hr0 k x Hk).
      * rewrite lookup_app_r in Hk by lia.
        destruct (k - length js0)%nat as [|m] eqn:Em; [|destruct m; discriminate].
        injection Hk as <-. unfold n in Hjn. lia.
    + rewrite fisher_yates_app, fisher_yates_prefix by (assumption || lia).
      rewrite Hfy, <- Hsplit. simpl. rewrite Hl0. fold n. unfold P'.
      apply swap_involutive; lia.
Qed.

Lemma snoc_of_length (js : list nat) (n : nat) :
  length js = S n -> exists js' j, js = js' ++ [j] /\ length js' = n.
Proof.
  intros Hlen. destruct js as [|x js] using rev_ind.
  - discriminate.
  - exists js, x. split; [reflexivity|]. rewrite length_app in Hlen. simpl in Hlen. lia.
Qed.

Lemma choices_in_range_snoc (js : list nat) (j : nat) :
  choices_in_range 0 (js ++ [j]) -> choices_in_range 0 js /\ (j <= length js)%nat.
Proof.
  intros H. split.
  - intros k x Hk. apply (H k x). rewrite lookup_app_l by (eapply lookup_lt_Some; exact Hk).
    exact Hk.
  - specialize (H (length js) j). rewrite lookup_app_r in H by lia.
    rewrite Nat.sub_diag in H. specialize (H eq_refl). lia.
Qed.

Lemma fisher_yates_snoc (js : list nat) (j : nat) (l : list string) (a : string) :
  length js = length l -> choices_in_range 0 js ->
  fisher_yates 0 (js ++ [j]) (l ++ [a]) = swap (length l) j (fisher_yates 0 js l ++ [a]).
Proof.
  intros Hlen Hr. rewrite fisher_yates_app, fisher_yates_prefix by (assumption || lia).
  simpl. rewrite Hlen. reflexivity.
Qed.

(** On distinct elements, different choices give different orders. *)
Lemma fisher_yates_inj (l : list string) :
  NoDup l ->
  forall js1 js2,
    length js1 = length l -> length js2 = length l ->
    choices_in_range 0 js1 -> choices_in_range 0 js2 ->
    fisher_yates 0 js1 l = fisher_yates 0 js2 l -> js1 = js2.
Proof.
  induction l as [|a l0 IH] using rev_ind; intros Hnd js1 js2 H1 H2 Hr1 Hr2 Heq.
  - destruct js1; [|discriminate]. destruct js2; [|discriminate]. reflexivity.
  - rewrite length_app in H1, H2. simpl in H1, H2.
    replace (length l0 + 1)%nat with (S (length l0)) in H1, H2 by lia.
    destruct (snoc_of_length _ _ H1) as (js1' & j1 & -> & Hl1).
    destruct (snoc_of_length _ _ H2) as (js2' & j2 & -> & Hl2).
    apply choices_in_range_snoc in Hr1. destruct Hr1 as [Hr1 Hj1].
    apply choices_in_range_snoc in Hr2. destruct Hr2 as [Hr2 Hj2].
    rewrite !fisher_yates_snoc in Heq by assumption.
    set (n := length l0) in *.
    set (P1 := fisher_yates 0 js1' l0) in *. set (P2 := fisher_yates 0 js2' l0) in *.
    assert (HP1 : length P1 = n) by (unfold P1; apply fisher_yates_perm).
    assert (HP2 : length P2 = n) by (unfold P2; apply fisher_yates_perm).
    assert (Ha1 : swap n j1 (P1 ++ [a]) !! j1 = Some a).
    { rewrite swap_lookup_r by (rewrite length_app; simpl; lia).
      rewrite lookup_app_r by lia. rewrite HP1, Nat.sub_diag. reflexivity. }
    assert (Ha2 : swap n j2 (P2 ++ [a]) !! j2 = Some a).
    { rewrite swap_lookup_r by (rewrite length_app; simpl; lia).
      rewrite lookup_app_r by lia. rewrite HP2, Nat.sub_diag. reflexivity. }
    assert (Hnd' : NoDup (swap n j1 (P1 ++ [a]))).
    { assert (Hp : swap n j1 (P1 ++ [a]) ≡ₚ l0 ++ [a]).
      { rewrite swap_perm. apply Permutation_app_tail. unfold P1. apply fisher_yates_perm. }
      rewrite Hp. exact Hnd. }
    rewrite <- Heq in Ha2.
    pose proof (NoDup_lookup _ _ _ _ Hnd' Ha1 Ha2) as Hj. subst j2.
    assert (HP : P1 ++ [a] = P2 ++ [a]).
    { rewrite <- (swap_involutive n j1 (P1 ++ [a])) by (rewrite length_app; simpl; lia).
      rewrite Heq. apply swap_involutive; rewrite length_app; simpl; lia. }
    apply app_inj_tail in HP. destruct HP as [HP _].
    apply NoDup_app in Hnd. destruct Hnd as (Hnd0 & _).
    rewrite (IH Hnd0 js1' js2'); try assumption; try lia. reflexivity.
Qed.

Lemma Script_Intn_in_range : @Intn_in_range Script.source.
Proof.
  intros n [|x s] Hn; simpl; [lia|]. apply Z.mod_pos_bound. exact Hn.
Qed.

Lemma Script_draws (js : list nat) :
  forall i, choices_in_range i js ->
            draws (R := Script.source) (length js) i (map Z.of_nat js) = (js, []).
Proof.
  induction js as [|j js IH]; intros i Hr; [reflexivity|].
  apply choices_in_range_tail in Hr. destruct Hr as [Hj Hr]. simpl.
  rewrite (IH (S i) Hr). rewrite Z.mod_small by lia. rewrite Nat2Z.id. reflexivity.
Qed.

(** X14: the shuffler can produce every order, each in one way.  For
    every permutation [l'] of the recorded paths there are answers [js] of
    [Intn], each within its range, that make the loop return [l']: every
    source that gives these answers does, and a source that replays them is
    one.  When the paths are pairwise distinct, no other answers lead to
    [l']. *)
Theorem shuffle_reaches_every_order (l l' : list string) :
  l' ≡ₚ l ->
  exists js,
    length js = length l /\ choices_in_range 0 js /\
    (forall (R : RandSource) (s : Src),
        Intn_in_range -> fst (draws (length l) 0 s) = js ->
        shuffle l s = Done (l', snd (draws (length l) 0 s))) /\
    shuffle (R := Script.source) l (map Z.of_nat js) = Done (l', []) /\
    (NoDup l ->
     forall (R : RandSource) (s s' : Src),
       Intn_in_range -> shuffle l s = Done (l', s') ->
       fst (draws (length l) 0 s) = js).
Proof.
  intros Hperm. destruct (fisher_yates_reaches l l' Hperm) as (js & Hlen & Hr & Hfy).
  exists js. split; [exact Hlen|]. split; [exact Hr|]. split; [|split].
  - intros R s Hrange Hjs. rewrite (shuffle_spec Hrange), Hjs, Hfy. reflexivity.
  - rewrite (shuffle_spec Script_Intn_in_range), <- Hlen, (Script_draws js 0 Hr).
    simpl. rewrite Hfy. reflexivity.
  - intros Hnd R s s' Hrange Hrun. rewrite (shuffle_spec Hrange) in Hrun.
    injection Hrun as Hrun _.
    apply (fisher_yates_inj l Hnd); try assumption.
    + apply draws_length.
    + apply draws_in_range, Hrange.
    + congruence.
Qed.

Lemma shuffle_reaches_every_order_witness :
  ["b"; "c"; "a"]%string ≡ₚ ["a"; "b"; "c"]%string /\
  exists js,
    length js = length ["a"; "b"; "c"]%string /\ choices_in_range 0 js /\
    (forall (R : RandSource) (s : Src),
        Intn_in_range -> fst (draws (length ["a"; "b"; "c"]%string) 0 s) = js ->
        shuffle ["a"; "b"; "c"]%string s
        = Done (["b"; "c"; "a"]%string, snd (draws (length ["a"; "b"; "c"]%string) 0 s))) /\
    shuffle (R := Script.source) ["a"; "b"; "c"]%string (map Z.of_nat js)
    = Done (["b"; "c"; "a"]%string, []) /\
    (NoDup ["a"; "b"; "c"]%string ->
     forall (R : RandSource) (s s' : Src),
       Intn_in_range -> shuffle ["a"; "b"; "c"]%string s = Done (["b"; "c"; "a"]%string, s') ->
       fst (draws (length ["a"; "b"; "c"]%string) 0 s) = js).
Proof.
  assert (H : ["b"; "c"; "a"]%string ≡ₚ ["a"; "b"; "c"]%string).
  { symmetry. apply (Permutation_cons_append ["b"; "c"]%string "a"%string). }
  split; [exact H|].
  exact (shuffle_reaches_every_order ["a"; "b"; "c"]%string ["b"; "c"; "a"]%string H).
Defined.

(** ** The bytes of the archive *)

Section ArchiveBytes.
Variable env : oracle.
Variable header_block : tar.Header -> list byte.
Variable statErr readErr : string -> error -> error.

Lemma archive_bytes_snoc (es : list tar.entry) (e : tar.entry) :
  archive_bytes header_block (es ++ [e])
  = archive_bytes header_block es ++ entry_bytes header_block e.
Proof.
  unfold archive_bytes. rewrite map_app, concat_app. simpl. rewrite app_nil_r. reflexivity.
Qed.

Lemma write_bytes_data p bs fs fs' :
  write_bytes env p bs fs = (None, fs') ->
  exists t, files fs' !! p
            = Some {| data := match files fs !! p with
                              | Some nd => data nd
                              | None => []
                              end ++ bs; mtime := t |}.
Proof. intros H. apply write_bytes_spec in H. destruct H as (_ & _ & _ & H). exact H. Qed.

Lemma archive_loop_bytes (paths : list string) :
  forall tw fs tw' fs',
    createArchive_loop env header_block statErr readErr paths tw fs = (None, tw', fs') ->
    archive_so_far header_block tw fs -> archive_so_far header_block tw' fs'.
Proof.
  induction paths as [|p paths IH]; intros tw fs tw' fs' Hrun Hinv; simpl in Hrun.
  - injection Hrun as <- <-. exact Hinv.
  - destruct Hinv as (Hnb & nd & Hnd & Hdata).
    destruct (Stat env p fs) as [[info|err] fs1] eqn:ES; [|discriminate].
    apply Stat_spec in ES. destruct ES as (Hf1 & _ & _ & (Hex & Hsize)).
    destruct (ReadFile env p fs1) as [[bs|err] fs2] eqn:ER; [|discriminate].
    apply ReadFile_spec in ER. destruct ER as (Hf2 & _ & new & _ & _ & ndp & Hndp & ->).
    rewrite Hf1 in Hndp. specialize (Hsize ndp Hndp).
    unfold tar.WriteHeader in Hrun. rewrite Hnb in Hrun. cbn [Z.ltb Z.compare] in Hrun.
    destruct (write_bytes env (tar.w tw) _ fs2) as [[err|] fs3] eqn:EW1; [discriminate|].
    apply write_bytes_data in EW1. destruct EW1 as (t3 & Hf3).
    rewrite Hf2, Hf1, Hnd in Hf3. cbn [tar.Size] in Hrun. rewrite Hsize in Hf3.
    unfold tar.Write in Hrun. cbn [tar.nb tar.w tar.entries tar.pad] in Hrun.
    rewrite Hsize, Z.ltb_irrefl in Hrun.
    rewrite append_body_last in Hrun. cbn [tar.hdr tar.body] in Hrun.
    rewrite Z.sub_diag in Hrun.
    assert (Hgoal : forall fs4 nd4,
               files fs4 !! tar.w tw = Some nd4 ->
               data nd4 = data nd ++ tar.zeros (tar.pad tw)
                                  ++ header_block {| tar.Name := p; tar.Mode := 384;
                                                     tar.Size := len (data ndp) |}
                                  ++ data ndp ->
               archive_so_far header_block
                 {| tar.w := tar.w tw;
                    tar.entries := tar.entries tw
                                   ++ [{| tar.hdr := {| tar.Name := p; tar.Mode := 384;
                                                        tar.Size := len (data ndp) |};
                                          tar.body := [] ++ data ndp |}];
                    tar.nb := 0; tar.pad := (- len (data ndp)) mod 512 |} fs4).
    { intros fs4 nd4 H4 Hd4. split; [reflexivity|]. exists nd4. split; [exact H4|].
      cbn [tar.w tar.pad tar.entries]. rewrite archive_bytes_snoc, <- Hdata, Hd4.
      unfold entry_bytes. cbn [tar.hdr tar.body tar.Size app].
      rewrite <- !app_assoc. reflexivity. }
    destruct (0 <? len (data ndp)) eqn:Epos.
    + destruct (write_bytes env (tar.w tw) (data ndp) fs3) as [[err|] fs4] eqn:EW2;
        [discriminate|].
      apply write_bytes_data in EW2. destruct EW2 as (t4 & Hf4). rewrite Hf3 in Hf4.
      cbn [data] in Hf4.
      eapply IH; [exact Hrun|]. eapply Hgoal; [exact Hf4|]. cbn [data].
      rewrite <- !app_assoc. reflexivity.
    + assert (Hnil : data ndp = []).
      { apply Z.ltb_ge in Epos. unfold len in Epos. destruct (data ndp); [reflexivity|].
        simpl in Epos. lia. }
      eapply IH; [exact Hrun|]. eapply Hgoal; [exact Hf3|]. cbn [data].
      rewrite Hnil, !app_nil_r. reflexivity.
Qed.

Lemma archive_with_bytes name paths fs tw fs' :
  no_fault env ->
  createArchive_with env header_block statErr readErr name paths fs = (None, tw, fs') ->
  exists nd, files fs' !! name = Some nd /\
             data nd = archive_bytes header_block (tar.entries tw) ++ tar.zeros 1024.
Proof.
  intros Hcalm. unfold createArchive_with, Create.
  destruct (open_trunc env name fs) as [[err|] fs1] eqn:EC; [discriminate|].
  apply open_trunc_spec in EC. destruct EC as (_ & _ & _ & (t & Hp)).
  destruct (createArchive_loop env header_block statErr readErr paths
                               (tar.NewWriter name) fs1) as [[r2 tw2] fs2] eqn:EL.
  pose proof (createArchive_loop_spec _ _ _ _ _ (tar.NewWriter name) _ _ _ _ eq_refl EL) as (Hw2 & _).
  destruct r2 as [err|].
  { destruct (tar.Close env tw2 fs2) as [[r3 tw3] fs3]. discriminate. }
  apply archive_loop_bytes in EL.
  2: { split; [reflexivity|]. exists {| data := []; mtime := t |}. split; [exact Hp|].
       reflexivity. }
  destruct EL as (Hnb & nd & Hnd & Hdata). simpl in Hw2.
  unfold tar.Close. rewrite Hnb. cbn [Z.ltb Z.compare].
  unfold write_bytes. rewrite Hcalm, Hnd. intros [= <- <-].
  cbn [files put_file log tar.entries]. rewrite Hw2, lookup_insert_eq.
  eexists. split; [reflexivity|]. cbn [data]. rewrite <- Hdata, <- !app_assoc. reflexivity.
Qed.
End ArchiveBytes.

Lemma zeros_length (n : Z) : 0 <= n -> len (tar.zeros n) = n.
Proof. intros H. unfold len, tar.zeros. rewrite length_replicate. lia. Qed.

Lemma len_app {A : Type} (a b : list A) : len (a ++ b) = len a + len b.
Proof. unfold len. rewrite length_app. lia. Qed.

Lemma archive_bytes_blocks (header_block : tar.Header -> list byte) (es : list tar.entry) :
  (forall h, len (header_block h) = 512) -> Forall entry_ok es ->
  len (archive_bytes header_block es) mod 512 = 0.
Proof.
  intros Hhb Hok. induction Hok as [|e es He Hes IH]; [reflexivity|].
  unfold archive_bytes in *. simpl. rewrite len_app. unfold entry_bytes at 1.
  rewrite !len_app, Hhb, zeros_length by (apply Z.mod_pos_bound; lia).
  destruct He as (Hsize & _). rewrite Hsize.
  set (n := len (tar.body e)) in *. set (m := len (concat _)) in *.
  assert (H : (n + (- n) mod 512) mod 512 = 0).
  { rewrite Z.add_mod_idemp_r by lia. rewrite Z.add_opp_diag_r. reflexivity. }
  rewrite <- Z.add_mod_idemp_r by lia. rewrite IH, Z.add_0_r.
  rewrite <- Z.add_mod_idemp_r by lia. rewrite H. reflexivity.
Qed.

(** X15: the bytes of the archive.  When no call fails, [createArchive]
    leaves at [name] exactly the bytes of its entries, each a header block,
    the body and zeros up to a multiple of 512, followed by a trailer of
    1024 zeros: what the file held before is gone.  With header blocks of
    512 bytes the length of the archive is a multiple of 512.  In both
    variants. *)
Theorem archive_file_bytes (env : oracle) (header_block : tar.Header -> list byte)
        (name : string) (paths : list string) (fs : FS) :
  no_fault env ->
  forall tw fs',
    createArchive env header_block name paths fs = (None, tw, fs')
    \/ Legacy.createArchive env header_block name paths fs = (None, tw, fs') ->
    exists nd,
      files fs' !! name = Some nd /\
      data nd = archive_bytes header_block (tar.entries tw) ++ tar.zeros 1024 /\
      ((forall h, len (header_block h) = 512) -> len (data nd) mod 512 = 0).
Proof.
  intros Hcalm tw fs' Hrun.
  assert (H : exists statErr readErr,
             createArchive_with env header_block statErr readErr name paths fs
             = (None, tw, fs')).
  { destruct Hrun as [Hrun|Hrun]; eexists _, _; exact Hrun. }
  destruct H as (statErr & readErr & H).
  destruct (archive_with_bytes _ _ _ _ _ _ _ _ _ Hcalm H) as (nd & Hnd & Hdata).
  exists nd. split; [exact Hnd|]. split; [exact Hdata|].
  intros Hhb. apply createArchive_with_spec in H.
  destruct H as (_ & closing & new & _ & _ & _ & _ & Hok & _).
  rewrite Hdata, len_app, zeros_length by lia.
  rewrite <- Z.add_mod_idemp_l by lia.
  rewrite (archive_bytes_blocks header_block _ Hhb Hok). reflexivity.
Qed.

Lemma DemoArchive_archive_eq :
  createArchive Demo.calm Demo.header_block "/home/u/context.tar"
                ["layer.txt"%string] DemoArchive.one_file_fs
  = (None, DemoArchive.writer, DemoArchive.fs_after).
Proof.
  vm_cast_no_check
    (@eq_refl _ (@None error, DemoArchive.writer, DemoArchive.fs_after)).
Qed.

Lemma archive_file_bytes_witness :
  no_fault Demo.calm /\
  (createArchive Demo.calm Demo.header_block "/home/u/context.tar"
                 ["layer.txt"%string] DemoArchive.one_file_fs
   = (None, DemoArchive.writer, DemoArchive.fs_after)
   \/ Legacy.createArchive Demo.calm Demo.header_block "/home/u/context.tar"
                           ["layer.txt"%string] DemoArchive.one_file_fs
      = (None, DemoArchive.writer, DemoArchive.fs_after)) /\
  exists nd,
    files DemoArchive.fs_after !! "/home/u/context.tar"%string = Some nd /\
    data nd = archive_bytes Demo.header_block (tar.entries DemoArchive.writer)
              ++ tar.zeros 1024 /\
    ((forall h, len (Demo.header_block h) = 512) -> len (data nd) mod 512 = 0).
Proof.
  assert (Hcalm : no_fault Demo.calm) by (intros t c p; reflexivity).
  split; [exact Hcalm|]. split; [left; exact DemoArchive_archive_eq|].
  exact (archive_file_bytes Demo.calm Demo.header_block "/home/u/context.tar"
           ["layer.txt"%string] DemoArchive.one_file_fs Hcalm
           DemoArchive.writer DemoArchive.fs_after (or_introl DemoArchive_archive_eq)).
Defined.

(** ** Slices of different lengths *)

Section Suffix.
Context {R : RandSource}.

Lemma loop_keeps_suffix (fuel : nat) :
  forall j cache remain (pre b : list byte) s b2 s2,
    j < len pre ->
    randBytes_loop fuel j cache remain (pre ++ b) s = Done (b2, s2) ->
    drop (length pre) b2 = b.
Proof.
  induction fuel as [|fuel IH]; intros j cache remain pre b s b2 s2 Hj Hrun.
  - simpl in Hrun. destruct (j <? 0); [|discriminate].
    injection Hrun as <- <-. apply drop_app_length.
  - destruct (Z.ltb_spec j 0) as [Hneg|Hpos].
    + rewrite randBytes_loop_done in Hrun by exact Hneg.
      injection Hrun as <- <-. apply drop_app_length.
    + rewrite randBytes_loop_S in Hrun by exact Hpos. unfold loop_step in Hrun.
      unfold len in Hj.
      destruct (if remain =? 0 then let '(c, s') := Int63 s in (c, letterIdxMax, s')
                else (cache, remain, s)) as [[c1 r1] s1].
      destruct (Z.land c1 letterIdxMask <? len letterBytes).
      * rewrite insert_app_l in Hrun by lia.
        apply IH in Hrun; [|unfold len; rewrite length_insert; lia].
        rewrite length_insert in Hrun. exact Hrun.
      * apply IH in Hrun; [exact Hrun|unfold len; lia].
Qed.

Lemma loop_suffix (fuel1 : nat) :
  forall fuel2 i cache remain (pre b : list byte) s b1 s1 b2 s2,
    -1 <= i ->
    randBytes_loop fuel1 i cache remain b s = Done (b1, s1) ->
    randBytes_loop fuel2 (i + len pre) cache remain (pre ++ b) s = Done (b2, s2) ->
    drop (length pre) b2 = b1.
Proof.
  induction fuel1 as [|fuel1 IH];
    intros fuel2 i cache remain pre b s b1 s1 b2 s2 Hi Hrun1 Hrun2.
  - simpl in Hrun1. destruct (i <? 0) eqn:Ei; [|discriminate].
    injection Hrun1 as <- <-. apply Z.ltb_lt in Ei.
    eapply loop_keeps_suffix; [|exact Hrun2]. lia.
  - destruct (Z.ltb_spec i 0) as [Hneg|Hpos].
    + rewrite randBytes_loop_done in Hrun1 by exact Hneg.
      injection Hrun1 as <- <-. eapply loop_keeps_suffix; [|exact Hrun2]. lia.
    + destruct fuel2 as [|fuel2].
      { simpl in Hrun2. replace (i + len pre <? 0) with false in Hrun2
          by (symmetry; apply Z.ltb_ge; unfold len; lia). discriminate. }
      rewrite randBytes_loop_S in Hrun1 by exact Hpos.
      rewrite randBytes_loop_S in Hrun2 by (unfold len; lia).
      unfold loop_step in Hrun1, Hrun2.
      destruct (if remain =? 0 then let '(c, s') := Int63 s in (c, letterIdxMax, s')
                else (cache, remain, s)) as [[c1 r1] s'].
      replace (Z.to_nat (i + len pre)) with (length pre + Z.to_nat i)%nat in Hrun2
        by (unfold len; lia).
      rewrite insert_app_r in Hrun2.
      destruct (Z.land c1 letterIdxMask <? len letterBytes).
      * replace (i + len pre - 1) with (i - 1 + len pre) in Hrun2 by lia.
        eapply IH; [|exact Hrun1|exact Hrun2]. lia.
      * eapply IH; [|exact Hrun1|exact Hrun2]. lia.
Qed.

Lemma randBytes_from_suffix fuel1 fuel2 n m s b1 s1 b2 s2 :
  0 <= n <= m ->
  randBytes_from fuel1 n s = Done (b1, s1) ->
  randBytes_from fuel2 m s = Done (b2, s2) ->
  drop (Z.to_nat (m - n)) b2 = b1.
Proof.
  intros Hnm. unfold randBytes_from.
  replace (n <? 0) with false by (symmetry; apply Z.ltb_ge; lia).
  replace (m <? 0) with false by (symmetry; apply Z.ltb_ge; lia).
  destruct (Int63 s) as [c s']. intros H1 H2.
  set (pre := replicate (Z.to_nat (m - n)) x00).
  assert (Hpre : length pre = Z.to_nat (m - n)) by (unfold pre; apply length_replicate).
  replace (replicate (Z.to_nat m) x00) with (pre ++ replicate (Z.to_nat n) x00) in H2.
  2: { unfold pre. rewrite <- replicate_add. f_equal. lia. }
  replace (m - 1) with (n - 1 + len pre) in H2 by (unfold len; lia).
  rewrite <- Hpre. eapply loop_suffix; [|exact H1|exact H2]. lia.
Qed.
End Suffix.

(** X16: a shorter slice is the end of a longer one.  From the same state
    of the source, the [n] bytes of [randBytes(n)] are the last [n] bytes of
    [randBytes(m)] for every [m >= n]: the loop fills the slice from its
    end.  So in the struct-field variant, where every call starts from the
    seed, a file of a smaller layer size is the tail of every file of a
    larger one. *)
Theorem randBytes_suffix `{R : RandSource} `{D : Docker} (n m : Z) :
  0 <= n <= m ->
  (forall fuel1 fuel2 (f : RandomImageFactory) b1 f1 b2 f2,
      randBytes fuel1 n f = Done (b1, f1) ->
      randBytes fuel2 m f = Done (b2, f2) ->
      drop (Z.to_nat (m - n)) b2 = b1) /\
  (forall fuel1 fuel2 (lf lf' : Legacy.RandomImageFactory) b1 lf1 b2 lf2,
      Legacy.Seed lf = Legacy.Seed lf' ->
      Legacy.randBytes fuel1 n lf = Done (b1, lf1) ->
      Legacy.randBytes fuel2 m lf' = Done (b2, lf2) ->
      drop (Z.to_nat (m - n)) b2 = b1).
Proof.
  intros Hnm. split.
  - intros fuel1 fuel2 f b1 f1 b2 f2 H1 H2. unfold randBytes in H1, H2.
    destruct (randBytes_from fuel1 n (src f)) as [[x1 s1]| |] eqn:E1; try discriminate.
    destruct (randBytes_from fuel2 m (src f)) as [[x2 s2]| |] eqn:E2; try discriminate.
    injection H1 as <- _. injection H2 as <- _.
    eapply randBytes_from_suffix; eassumption.
  - intros fuel1 fuel2 lf lf' b1 lf1 b2 lf2 Hseed H1 H2.
    unfold Legacy.randBytes in H1, H2. rewrite Hseed in H1.
    destruct (randBytes_from fuel1 n _) as [[x1 s1]| |] eqn:E1; try discriminate.
    destruct (randBytes_from fuel2 m _) as [[x2 s2]| |] eqn:E2; try discriminate.
    injection H1 as <- _. injection H2 as <- _.
    eapply randBytes_from_suffix; eassumption.
Qed.

Lemma DemoMore_long_request_eq :
  randBytes (R := Demo.source) (D := Demo.docker) 4000 2048 DemoBuild.factory
  = Done (DemoMore.two_kb, DemoMore.factory_after_long_request).
Proof.
  vm_cast_no_check
    (@eq_refl _ (@Done (list byte * @RandomImageFactory Demo.source Demo.docker)
                       (DemoMore.two_kb, DemoMore.factory_after_long_request))).
Qed.

Lemma randBytes_suffix_witness :
  0 <= 1024 <= 2048 /\
  randBytes (R := Demo.source) (D := Demo.docker) 2000 1024 DemoBuild.factory
  = Done (DemoBuild.first_kb, DemoMore.factory_after_first_request) /\
  randBytes (R := Demo.source) (D := Demo.docker) 4000 2048 DemoBuild.factory
  = Done (DemoMore.two_kb, DemoMore.factory_after_long_request) /\
  drop (Z.to_nat (2048 - 1024)) DemoMore.two_kb = DemoBuild.first_kb.
Proof.
  split; [lia|]. split; [exact DemoMore_first_request_eq|].
  split; [exact DemoMore_long_request_eq|].
  exact (proj1 (@randBytes_suffix Demo.source Demo.docker 1024 2048 ltac:(lia))
               2000%nat 4000%nat DemoBuild.factory
               DemoBuild.first_kb DemoMore.factory_after_first_request
               DemoMore.two_kb DemoMore.factory_after_long_request
               DemoMore_first_request_eq DemoMore_long_request_eq).
Defined.

(** ** The manifest on disk *)

Lemma WriteFile_succeeds (env : oracle) (p : string) (bs : list byte) (fs : FS) :
  env (clock fs) SysCreate p = None -> p ∉ dirs fs ->
  env (S (clock fs)) SysWrite p = None ->
  exists fs', WriteFile env p bs fs = (None, fs').
Proof.
  intros H1 Hd H2. unfold WriteFile, open_trunc. rewrite H1.
  destruct (decide (p ∈ dirs fs)) as [Hin|_]; [contradiction|].
  unfold write_bytes. cbn [clock put_file log trace length]. fold (clock fs).
  rewrite H2. eexists. reflexivity.
Qed.

(** C7: for every list of generated file paths, in the order it is given
    (the shuffled order), the text of the manifest has as its lines the
    fixed header line followed by one [ADD <path> /opt] line per path, in
    that order; for the empty list the header line alone.  When the creation
    and the write of [./dockerfile.generated] do not fail, the generator
    returns this name and no error, the file holds exactly that text, and no
    other file changed.  In general it returns an error only after a call
    that failed, the last one it made, and then returns the empty name and
    an error that wraps the cause. *)
Theorem generateDockerfile_lines (env : oracle) (paths : list string) (fs : FS) :
  Forall is_pool_path paths ->
  lines (dockerfile_text paths) = header_line :: map directive_line paths /\
  length (lines (dockerfile_text paths)) = S (length paths) /\
  (paths = [] -> lines (dockerfile_text paths) = [header_line]) /\
  (env (clock fs) SysCreate "./dockerfile.generated"%string = None ->
   "./dockerfile.generated"%string ∉ dirs fs ->
   env (S (clock fs)) SysWrite "./dockerfile.generated"%string = None ->
   exists t fs',
     generateDockerfile env paths fs = (("./dockerfile.generated"%string, None), fs') /\
     files fs' !! "./dockerfile.generated"%string
     = Some {| data := list_byte_of_string (dockerfile_text paths); mtime := t |} /\
     (forall q, q <> "./dockerfile.generated"%string -> files fs' !! q = files fs !! q)) /\
  (forall name r fs',
      generateDockerfile env paths fs = ((name, r), fs') ->
      (exists new, trace fs' = new ++ trace fs /\ fatal succeeded r new) /\
      match r with
      | None =>
        name = "./dockerfile.generated"%string /\
        exists t, files fs' !! name =
                  Some {| data := list_byte_of_string (dockerfile_text paths); mtime := t |}
      | Some err => name = ""%string /\ exists cause, Unwrap err = Some cause
      end).
Proof.
  intros Hpaths.
  assert (Hnl : Forall newline_free paths).
  { eapply Forall_impl; [exact Hpaths|]. apply newline_free_pool_path. }
  pose proof (dockerfile_lines paths Hnl) as Hlines.
  split; [exact Hlines|]. split; [rewrite Hlines; simpl; rewrite length_map; reflexivity|].
  split; [intros ->; reflexivity|]. split.
  - intros H1 Hd H2.
    destruct (WriteFile_succeeds env "./dockerfile.generated"
                (list_byte_of_string (dockerfile_text paths)) fs H1 Hd H2) as (fs' & HW).
    assert (HG : generateDockerfile env paths fs
                 = (("./dockerfile.generated"%string, None), fs')).
    { unfold generateDockerfile. rewrite HW. reflexivity. }
    apply generateDockerfile_frame in HG as HF. destruct HF as (Hframe & Hfile).
    destruct (Hfile eq_refl) as (_ & t & Ht).
    exists t, fs'. split; [exact HG|]. split; [exact Ht|exact Hframe].
  - intros name r fs' HG.
    pose proof (generateDockerfile_fatal _ _ _ _ _ _ HG) as (_ & _ & Hnew).
    split; [exact Hnew|].
    unfold generateDockerfile in HG.
    destruct (WriteFile env "./dockerfile.generated" _ fs) as [[err|] fs1] eqn:EW;
      injection HG as <- <- <-.
    + split; [reflexivity|]. eexists. reflexivity.
    + split; [reflexivity|].
      apply WriteFile_spec in EW. destruct EW as (_ & _ & _ & Hr). exact Hr.
Qed.

Lemma generateDockerfile_lines_witness :
  let paths := ["generated-files/4848484/random_1KB_1.txt";
                "generated-files/4848484/random_1KB_0.txt"]%string in
  Forall is_pool_path paths /\
  lines (dockerfile_text paths)
  = ["FROM scratch"; "ADD generated-files/4848484/random_1KB_1.txt /opt";
     "ADD generated-files/4848484/random_1KB_0.txt /opt"]%string /\
  exists t fs',
    generateDockerfile Demo.calm paths Demo.empty_fs
    = (("./dockerfile.generated"%string, None), fs') /\
    files fs' !! "./dockerfile.generated"%string
    = Some {| data := list_byte_of_string (dockerfile_text paths); mtime := t |} /\
    (forall q, q <> "./dockerfile.generated"%string ->
               files fs' !! q = files Demo.empty_fs !! q).
Proof.
  intros paths.
  assert (H : Forall is_pool_path paths).
  { constructor; [|constructor; [|constructor]].
    - exists 1%N, 1%N. left. exists 4848484. vm_compute. reflexivity.
    - exists 1%N, 0%N. left. exists 4848484. vm_compute. reflexivity. }
  split; [exact H|].
  destruct (generateDockerfile_lines Demo.calm paths Demo.empty_fs H)
    as (Hlines & _ & _ & Hwrite & _).
  split; [exact Hlines|].
  apply Hwrite; [reflexivity| |reflexivity].
  intros Hin. simpl in Hin. apply elem_of_empty in Hin. exact Hin.
Defined.

(** ** The order of the shuffler and the seed *)


Opaque filePath.

Section SameDraws.
Context {R : RandSource} {D : Docker}.
Variable env1 env2 : oracle.


End SameDraws.

Transparent filePath.











Lemma DemoReuse_second_run_eq :
  GenerateImage Demo.calm Demo.header_block 2000 DemoImage.pwd 1 2 DemoImage.tags
                (run_factory DemoImage.image_result) (run_fs DemoImage.image_result)
  = Done DemoReuse.second_result.
Proof.
  vm_cast_no_check
    (@eq_refl _ (@Done (@run Demo.source Demo.docker) DemoReuse.second_result)).
Qed.

(** C8 as stated fails for a factory that is used again: after the run of
    [DemoImage] (seed 4848484, two layers of 1 KB), a second
    [GenerateImage] with layer count 2 on the same factory returns no error
    and leaves an archive of five entries, each file of the pool twice. *)
Lemma reused_factory_archives_more :
  GenerateImage Demo.calm Demo.header_block 2000 DemoImage.pwd 1 2 DemoImage.tags
                DemoBuild.factory Demo.empty_fs = Done DemoImage.image_result /\
  GenerateImage Demo.calm Demo.header_block 2000 DemoImage.pwd 1 2 DemoImage.tags
                (run_factory DemoImage.image_result) (run_fs DemoImage.image_result)
  = Done DemoReuse.second_result /\
  run_err DemoReuse.second_result = None /\
  exists tw,
    run_archive DemoReuse.second_result = Some tw /\
    entry_names (tar.entries tw)
    = ["generated-files/4848484/random_1KB_1.txt"; "generated-files/4848484/random_1KB_1.txt";
       "generated-files/4848484/random_1KB_0.txt"; "generated-files/4848484/random_1KB_0.txt";
       "./dockerfile.generated"]%string /\
    length (tar.entries tw) = 5%nat /\
    length (tar.entries tw) <> (N.to_nat 2 + 1)%nat.
Proof.
  split; [exact DemoImage_image_run_eq'|]. split; [exact DemoReuse_second_run_eq|].
  split; [reflexivity|].
  destruct (run_archive DemoReuse.second_result) as [tw|] eqn:E; [|discriminate].
  exists tw. split; [reflexivity|].
  assert (Hnames : entry_names (tar.entries tw) = DemoReuse.second_names).
  { unfold DemoReuse.second_names. injection E as <-. reflexivity. }
  split; [exact Hnames|].
  assert (Hlen : length (tar.entries tw) = 5%nat).
  { rewrite <- entry_names_length, Hnames. reflexivity. }
  split; [exact Hlen|]. rewrite Hlen. discriminate.
Qed.
